(** * Autodiff subgraph slicer (torch/csrc/jit/passes/create_autodiff_subgraphs.cpp)

    A shallow embedding of the pass that partitions a JIT graph into
    [prim::DifferentiableGraph] group nodes, together with the properties
    established about it.  Graph mutation is rendered as explicit state
    passing over blocks; pointers to nodes are rendered as cursors (a node
    identifier, or one of the two sentinels of a block). *)

From Stdlib Require Import List Arith Bool Lia PeanoNat.
From Stdlib Require Import Sorting.Sorted Sorting.Permutation.
Import ListNotations.

Set Implicit Arguments.

(** ** The intermediate representation *)

Module IR.

(** Operation identifiers.  Only the symbols the pass inspects are named;
    every other operator is [op s]. *)
Inductive NodeKind : Type :=
| prim_DifferentiableGraph
| prim_Constant
| prim_profile
| prim_Param
| prim_Return
| aten_view
| aten_view_as
| aten_reshape
| aten_reshape_as
| aten_transpose
| aten_expand
| aten_expand_as
| op (sym : nat).

Definition kind_eqb (a b : NodeKind) : bool :=
  match a, b with
  | prim_DifferentiableGraph, prim_DifferentiableGraph => true
  | prim_Constant, prim_Constant => true
  | prim_profile, prim_profile => true
  | prim_Param, prim_Param => true
  | prim_Return, prim_Return => true
  | aten_view, aten_view => true
  | aten_view_as, aten_view_as => true
  | aten_reshape, aten_reshape => true
  | aten_reshape_as, aten_reshape_as => true
  | aten_transpose, aten_transpose => true
  | aten_expand, aten_expand => true
  | aten_expand_as, aten_expand_as => true
  | op x, op y => Nat.eqb x y
  | _, _ => false
  end.

(** Type descriptors: a tensor type carries the optional gradient
    requirement; [rest] stands for every other field of the descriptor. *)
Inductive Ty : Type :=
| TensorType (requiresGrad : option bool) (rest : nat)
| OtherType (tag : nat).

(** Values are handles; their types live in a store (see [TypeStore]). *)
Definition Value := nat.

(** A node.  [blocks] are the owned child blocks and [subgraph] the
    [attr::Subgraph] payload of a group node; both are triples of
    (parameter values, interior nodes, returned values). *)
#[warnings="-register-all"]
Inductive Node : Type := mkNode {
  nid : nat;
  kind : NodeKind;
  inputs : list Value;
  outputs : list Value;
  blocks : list (list Value * list Node * list Value);
  hasSideEffects : bool;
  profiled_type : option Ty;
  subgraph : option (list Value * list Node * list Value)
}.

Definition Block : Type := (list Value * list Node * list Value)%type.
Definition Graph : Type := Block.

Definition block_params (b : Block) : list Value := fst (fst b).
Definition nodes (b : Block) : list Node := snd (fst b).
Definition block_returns (b : Block) : list Value := snd b.
Definition with_nodes (b : Block) (ns : list Node) : Block :=
  (block_params b, ns, block_returns b).

(** The two sentinels of a block. *)
Definition param_node (b : Block) : Node :=
  mkNode 0 prim_Param [] (block_params b) [] false None None.
Definition return_node (b : Block) : Node :=
  mkNode 0 prim_Return (block_returns b) [] [] false None None.

(** A pointer to a node of a given block. *)
Inductive Cursor : Type :=
| AtParam
| AtNode (id : nat)
| AtReturn.

Definition cursor_eqb (a b : Cursor) : bool :=
  match a, b with
  | AtParam, AtParam => true
  | AtReturn, AtReturn => true
  | AtNode x, AtNode y => Nat.eqb x y
  | _, _ => false
  end.

Fixpoint find_node (id : nat) (ns : list Node) : option Node :=
  match ns with
  | [] => None
  | n :: rest => if Nat.eqb (nid n) id then Some n else find_node id rest
  end.

(** Dereferencing a cursor. *)
Definition node_at (b : Block) (c : Cursor) : option Node :=
  match c with
  | AtParam => Some (param_node b)
  | AtReturn => Some (return_node b)
  | AtNode id => find_node id (nodes b)
  end.

(** [Node::prev()] by identifier, on the interior list. *)
Fixpoint prev_in (id : nat) (before : Cursor) (ns : list Node) : option Cursor :=
  match ns with
  | [] => None
  | n :: rest =>
      if Nat.eqb (nid n) id then Some before
      else prev_in id (AtNode (nid n)) rest
  end.

Definition last_cursor (ns : list Node) : Cursor :=
  match rev ns with
  | [] => AtParam
  | n :: _ => AtNode (nid n)
  end.

(** Stepping a reverse iterator.  Stepping off the parameter node, or from
    a node that is no longer in the block, is outside the model. *)
Definition prev (b : Block) (c : Cursor) : option Cursor :=
  match c with
  | AtParam => None
  | AtReturn => Some (last_cursor (nodes b))
  | AtNode id => prev_in id AtParam (nodes b)
  end.

End IR.

Import IR.

Definition b2n (b : bool) : nat := if b then 1 else 0.

(** ** External collaborators

    The alias database, the subgraph utilities, the differentiability test
    and common-subexpression elimination are consumed through their
    interfaces.  Structural mutators take the block they act on and return
    the mutated block. *)

Record Oracles : Type := {
  (* [isDifferentiable] of the autodiff runtime, applied to a node. *)
  isDifferentiable : Node -> bool;
  (* [Node::notExecutedOp()]. *)
  notExecutedOp : Node -> bool;
  (* [EliminateCommonSubexpression] on a graph. *)
  EliminateCommonSubexpression : Graph -> Graph;
  (* [SubgraphUtils::createSingletonSubgraphAndUpdateAliasing]: the block
      after wrapping, and the new group node. *)
  createSingletonSubgraphAndUpdateAliasing : Block -> Node -> Block * Node;
  (* [AliasDb::moveBeforeTopologicallyValid producer consumer]: [None] when
      it answers false (nothing moved), else the reordered block. *)
  moveBeforeTopologicallyValid : Block -> Node -> Node -> option Block;
  (* [SubgraphUtils::mergeNodeIntoSubgraphAndUpdateAliasing producer consumer]. *)
  mergeNodeIntoSubgraphAndUpdateAliasing : Block -> Node -> Node -> Block;
  (* [SubgraphUtils::unmergeSubgraph]: the nodes that take the place of the
      dissolved group in its block. *)
  unmergeSubgraph : Node -> list Node;
  (* [SubgraphUtils::unmergeAliasedOutputs]: the group afterwards, the
      nodes moved out of it (placed after the group), and whether anything
      changed. *)
  unmergeAliasedOutputs : Node -> Node * list Node * bool;
  (* [SubgraphUtils::unmergeOutputsAlisingInputs], same shape. *)
  unmergeOutputsAlisingInputs : Node -> Node * list Node * bool
}.

Definition is_group (n : Node) : bool :=
  kind_eqb (kind n) prim_DifferentiableGraph.

Definition subgraph_nodes (n : Node) : list Node :=
  match subgraph n with
  | Some g => nodes g
  | None => []
  end.

Definition set_subgraph (n : Node) (g : option Graph) : Node :=
  mkNode (nid n) (kind n) (inputs n) (outputs n) (blocks n)
         (hasSideEffects n) (profiled_type n) g.

Definition set_blocks (n : Node) (bs : list Block) : Node :=
  mkNode (nid n) (kind n) (inputs n) (outputs n) bs
         (hasSideEffects n) (profiled_type n) (subgraph n).

(** The idiom [for (Node* n : block->nodes()) for (Block* b : n->blocks()) f(b)]
    with the state [S] that [f] threads; child blocks are rewritten in place. *)
Fixpoint for_blocks {S : Type} (f : Block -> S -> option (Block * S))
         (bs : list Block) (s : S) : option (list Block * S) :=
  match bs with
  | [] => Some ([], s)
  | b :: rest =>
      match f b s with
      | None => None
      | Some (b', s1) =>
          match for_blocks f rest s1 with
          | None => None
          | Some (rest', s2) => Some (b' :: rest', s2)
          end
      end
  end.

Fixpoint for_nodes {S : Type} (f : Block -> S -> option (Block * S))
         (ns : list Node) (s : S) : option (list Node * S) :=
  match ns with
  | [] => Some ([], s)
  | n :: rest =>
      match for_blocks f (blocks n) s with
      | None => None
      | Some (bs, s1) =>
          match for_nodes f rest s1 with
          | None => None
          | Some (rest', s2) => Some (set_blocks n bs :: rest', s2)
          end
      end
  end.

(** A work block: the pair (begin, end) of boundary nodes. *)
Definition WorkBlock : Type := (Cursor * Cursor)%type.
Definition wb_begin (w : WorkBlock) : Cursor := fst w.
Definition wb_end (w : WorkBlock) : Cursor := snd w.

(** ** SubgraphSlicer *)

Section SubgraphSlicer.

Variable O : Oracles.
Variable minSubgraphSize_ : nat.

Definition isViewOp (n : Node) : bool :=
  match kind n with
  | aten_view | aten_view_as | aten_reshape | aten_reshape_as
  | aten_transpose | aten_expand | aten_expand_as => true
  | _ => false
  end.

Definition shouldConsiderForMerge (node : Node) : bool :=
  if kind_eqb (kind node) prim_DifferentiableGraph then true
  else if kind_eqb (kind node) prim_Constant then false
  else if isViewOp node then false
  else isDifferentiable O node.

(** *** buildWorkBlocks

    [scan_back] is the while loop, walking the interior from the node before
    the return node towards the parameter node; its arguments are the nodes
    still to visit (tail first), [end_bound_node], [differentiable_nodes]
    and the worklist.  The final flush is the empty case. *)
Fixpoint scan_back (rnodes : list Node) (end_bound_node : Cursor)
         (differentiable_nodes : nat) (worklist : list WorkBlock)
  : list WorkBlock :=
  match rnodes with
  | [] =>
      if minSubgraphSize_ <=? differentiable_nodes
      then worklist ++ [(AtParam, end_bound_node)]
      else worklist
  | curr :: rest =>
      let differentiable_nodes :=
        differentiable_nodes + b2n (shouldConsiderForMerge curr) in
      if hasSideEffects curr then
        let worklist :=
          if minSubgraphSize_ <=? differentiable_nodes
          then worklist ++ [(AtNode (nid curr), end_bound_node)]
          else worklist in
        scan_back rest (AtNode (nid curr)) 0 worklist
      else scan_back rest end_bound_node differentiable_nodes worklist
  end.

Definition buildWorkBlocks (block_ : Block) : list WorkBlock :=
  scan_back (rev (nodes block_)) AtReturn 0 [].

(** *** inlineIfTooSmall

    [reaches_min i ns] is the counting loop with its early exit: [true] when
    the running count of executed nodes reaches the minimum. *)
Fixpoint reaches_min (i : nat) (ns : list Node) : bool :=
  match ns with
  | [] => false
  | n :: rest =>
      let i := i + b2n (negb (notExecutedOp O n)) in
      if minSubgraphSize_ <=? i then true else reaches_min i rest
  end.

(** [None] is the failed assertion on the kind of [n], or the failed
    access to its subgraph.  Otherwise the boolean is the function's result
    and the list is what stands in the block at the place of [n]
    afterwards. *)
Definition inlineIfTooSmall (n : Node) : option (list Node * bool) :=
  if negb (is_group n) then None
  else
    match subgraph n with
    | None => None
    | Some subgraph =>
        if reaches_min 0 (nodes subgraph) then Some ([n], false)
        else Some (unmergeSubgraph O n, true)
    end.

(** *** cleanupSubgraphs

    The while loop walks the block from its last node towards the parameter
    node; [prevNode] is taken before the current node is touched, so nodes
    inlined in place of a dissolved group are not visited.  [after] holds
    the part of the block already behind the cursor.  A group node without
    its subgraph makes [g(attr::Subgraph)] fail. *)
Fixpoint cleanup_loop (rnodes : list Node) (after : list Node)
         (diff_nodes : list Node) : option (list Node * list Node) :=
  match rnodes with
  | [] => Some (after, diff_nodes)
  | curNode :: prevNodes =>
      if is_group curNode then
        match subgraph curNode with
        | None => None
        | Some g =>
            let curNode :=
              set_subgraph curNode (Some (EliminateCommonSubexpression O g)) in
            match inlineIfTooSmall curNode with
            | None => None
            | Some (repl, inlined) =>
                cleanup_loop prevNodes (repl ++ after)
                  (if inlined then diff_nodes else diff_nodes ++ [curNode])
            end
        end
      else cleanup_loop prevNodes (curNode :: after) diff_nodes
  end.

(** [fuel] bounds the nesting depth of child blocks. *)
Fixpoint cleanupSubgraphs (fuel : nat) (block_ : Block) (diff_nodes : list Node)
  : option (Block * list Node) :=
  match fuel with
  | 0 => None
  | S fuel =>
      match cleanup_loop (rev (nodes block_)) [] diff_nodes with
      | None => None
      | Some (ns, diff_nodes) =>
          match for_nodes (cleanupSubgraphs fuel) ns diff_nodes with
          | None => None
          | Some (ns', diff_nodes) => Some (with_nodes block_ ns', diff_nodes)
          end
      end
  end.

(** *** Specification vocabulary for the cleanup *)

(** Number of executed (non-no-op) nodes among [ns]. *)
Definition executed (ns : list Node) : nat :=
  length (filter (fun m => negb (notExecutedOp O m)) ns).

Definition executed_count (g : Node) : nat := executed (subgraph_nodes g).

(** A group as the cleanup records it: deduplicated inside. *)
Definition finalized (n : Node) : Node :=
  set_subgraph n (option_map (EliminateCommonSubexpression O) (subgraph n)).

Definition survives (n : Node) : bool :=
  is_group n && reaches_min 0 (subgraph_nodes (finalized n)).

(** The groups of one block level that are kept, tail-most first. *)
Definition level_kept (ns : list Node) : list Node :=
  map finalized (filter survives (rev ns)).

(** The order of the recorded groups, stated on the block tree: the kept
    groups of the block itself, tail-most first, then what the child blocks
    of its nodes contribute, node by node and block by block. *)
Inductive diff_of_block : Block -> list Node -> Prop :=
| diff_block b ns nested :
    cleanup_loop (rev (nodes b)) [] [] = Some (ns, level_kept (nodes b)) ->
    diff_of_nodes ns nested ->
    diff_of_block b (level_kept (nodes b) ++ nested)
with diff_of_nodes : list Node -> list Node -> Prop :=
| diff_nodes_nil : diff_of_nodes [] []
| diff_nodes_cons n rest Ln Lrest :
    diff_of_blocks (blocks n) Ln ->
    diff_of_nodes rest Lrest ->
    diff_of_nodes (n :: rest) (Ln ++ Lrest)
with diff_of_blocks : list Block -> list Node -> Prop :=
| diff_blocks_nil : diff_of_blocks [] []
| diff_blocks_cons b rest Lb Lrest :
    diff_of_block b Lb ->
    diff_of_blocks rest Lrest ->
    diff_of_blocks (b :: rest) (Lb ++ Lrest).

(** A group the size filter keeps. *)
Definition big_enough (g : Node) : Prop :=
  is_group g = true /\ minSubgraphSize_ <= executed_count g.

(** A cleanup function that appends, for every block, a list ordered by
    [diff_of_block]. *)
Definition ordered_block (f : Block -> list Node -> option (Block * list Node))
  : Prop :=
  forall b d b' d', f b d = Some (b', d') ->
    exists L, d' = d ++ L /\ diff_of_block b L.

(** *** unfuseAliasedOutputs *)

(** One reverse sweep over the block ([|=] does not short-circuit: both
    repairs run on every group). *)
Fixpoint unfuse_sweep (rnodes : list Node) (after : list Node)
         (any_changed : bool) : list Node * bool :=
  match rnodes with
  | [] => (after, any_changed)
  | n :: rest =>
      if is_group n then
        let '(n1, out1, c1) := unmergeAliasedOutputs O n in
        let any_changed := any_changed || c1 in
        let '(n2, out2, c2) := unmergeOutputsAlisingInputs O n1 in
        let any_changed := any_changed || c2 in
        unfuse_sweep rest (n2 :: out2 ++ out1 ++ after) any_changed
      else unfuse_sweep rest (n :: after) any_changed
  end.

(** The [while (any_changed)] loop; [fuel] bounds the number of sweeps. *)
Fixpoint unfuse_while (fuel : nat) (ns : list Node) : option (list Node) :=
  match fuel with
  | 0 => None
  | S fuel =>
      let '(ns', any_changed) := unfuse_sweep (rev ns) [] false in
      if any_changed then unfuse_while fuel ns' else Some ns'
  end.

Fixpoint unfuseAliasedOutputs (fuel : nat) (b : Block) : option Block :=
  match fuel with
  | 0 => None
  | S fuel' =>
      match unfuse_while fuel (nodes b) with
      | None => None
      | Some ns =>
          match for_nodes (fun ib (_ : unit) =>
                             option_map (fun ib' => (ib', tt))
                                        (unfuseAliasedOutputs fuel' ib))
                          ns tt with
          | None => None
          | Some (ns', _) => Some (with_nodes b ns')
          end
      end
  end.

(** *** sortReverseTopological *)

Definition produces (v : Value) (n : Node) : bool :=
  existsb (Nat.eqb v) (outputs n).

(** Position (1-based, the parameter node being at 0) and node of the
    interior producer of [v]. *)
Fixpoint find_producer (v : Value) (idx : nat) (ns : list Node)
  : option (nat * Node) :=
  match ns with
  | [] => None
  | n :: rest =>
      if produces v n then Some (idx, n) else find_producer v (S idx) rest
  end.

(** [v->node()] when [v->node()->owningBlock() == block_]. *)
Definition producer_in (block_ : Block) (v : Value) : option (nat * Node) :=
  match find_producer v 1 (nodes block_) with
  | Some r => Some r
  | None =>
      if existsb (Nat.eqb v) (block_params block_)
      then Some (0, param_node block_)
      else None
  end.

Definition topo_position (block_ : Block) (v : Value) : nat :=
  match producer_in block_ v with
  | Some (i, _) => i
  | None => 0
  end.

(** [a->node()->isAfter(b->node())]. *)
Definition isAfter (block_ : Block) (a b : Value) : bool :=
  topo_position block_ b <? topo_position block_ a.

(** [std::sort] with the comparator [isAfter], as an insertion sort.  The
    library leaves open the relative order of values whose producer is the
    same node; the insertion sort fixes one. *)
Fixpoint insert_sorted (block_ : Block) (v : Value) (l : list Value)
  : list Value :=
  match l with
  | [] => [v]
  | w :: rest =>
      if isAfter block_ w v then w :: insert_sorted block_ v rest
      else v :: l
  end.

Fixpoint sort_values (block_ : Block) (l : list Value) : list Value :=
  match l with
  | [] => []
  | v :: rest => insert_sorted block_ v (sort_values block_ rest)
  end.

Definition owned_here (block_ : Block) (i : Value) : bool :=
  match producer_in block_ i with
  | Some _ => true
  | None => false
  end.

Definition sortReverseTopological (block_ : Block) (inputs : list Value)
  : list Value :=
  sort_values block_ (filter (owned_here block_) inputs).

(** The order [sortReverseTopological] establishes: a later-positioned
    producer comes first. *)
Definition later_first (block_ : Block) (a c : Value) : Prop :=
  topo_position block_ c <= topo_position block_ a.

(** *** tryMerge

    [None] is the failed assertion on [consumer]; otherwise the block
    afterwards and the optional group. *)
Definition tryMerge (block_ : Block) (consumer producer : Node)
  : option (Block * option Node) :=
  if negb (is_group consumer) then None
  else
    if shouldConsiderForMerge producer then
      match moveBeforeTopologicallyValid O block_ producer consumer with
      | Some moved =>
          Some (mergeNodeIntoSubgraphAndUpdateAliasing O moved producer consumer,
                Some consumer)
      | None => Some (block_, None)
      end
    else Some (block_, None).

(** *** scanNode *)

(** The loop over the sorted inputs: stops at the first successful merge. *)
Fixpoint try_inputs (block_ : Block) (consumer : Node) (ins : list Value)
  : option (Block * option Node) :=
  match ins with
  | [] => Some (block_, None)
  | input :: rest =>
      match producer_in block_ input with
      | None => None
      | Some (_, producer) =>
          match tryMerge block_ consumer producer with
          | None => None
          | Some (block', Some group) => Some (block', Some group)
          | Some (block', None) => try_inputs block' consumer rest
          end
      end
  end.

Definition step_back (block_ : Block) (c : Cursor) (changed : bool)
  : option (Block * Cursor * bool) :=
  match prev block_ c with
  | Some p => Some (block_, p, changed)
  | None => None
  end.

(** The wrapping of a candidate that is not yet a group: the block, the
    group and the iterator of the group afterwards. *)
Definition ensure_group (block_ : Block) (consumer : Node) (it : Cursor)
  : Block * Node * Cursor :=
  if negb (is_group consumer) then
    let '(b', g) :=
      createSingletonSubgraphAndUpdateAliasing O block_ consumer in
    (b', g, AtNode (nid g))
  else (block_, consumer, it).

(** The result is the block afterwards, the iterator to resume from, and
    the changed flag. *)
Definition scanNode (block_ : Block) (it : Cursor)
  : option (Block * Cursor * bool) :=
  match node_at block_ it with
  | None => None
  | Some consumer =>
      if shouldConsiderForMerge consumer then
        let '(block1, consumer1, it1) := ensure_group block_ consumer it in
        match try_inputs block1 consumer1
                (sortReverseTopological block1 (inputs consumer1)) with
        | None => None
        | Some (block2, Some group) => Some (block2, AtNode (nid group), true)
        | Some (block2, None) => step_back block2 it1 false
        end
      else step_back block_ it false
  end.

(** An input whose producer [tryMerge] declines. *)
Definition refused (block_ : Block) (group : Node) (v : Value) : Prop :=
  exists i p, producer_in block_ v = Some (i, p)
              /\ tryMerge block_ group p = Some (block_, None).

(** *** buildupSubgraphs *)

(** The inner [for] loop over one work block.  [visited] records, oldest
    last, the nodes handed to [scanNode]; it is not part of the program
    state.  [fuel] bounds the number of iterations. *)
Fixpoint sweep (fuel : nat) (block_ : Block) (begin it : Cursor)
         (any_changed : bool) (visited : list Cursor)
  : option (Block * bool * list Cursor) :=
  if cursor_eqb it begin then Some (block_, any_changed, visited)
  else
    match fuel with
    | 0 => None
    | S fuel =>
        match scanNode block_ it with
        | None => None
        | Some (block', it', changed) =>
            sweep fuel block' begin it' (any_changed || changed) (it :: visited)
        end
    end.

(** The [while (any_changed)] loop of one work block. *)
Fixpoint merge_while (fuel : nat) (block_ : Block) (workblock : WorkBlock)
  : option Block :=
  match fuel with
  | 0 => None
  | S fuel' =>
      match sweep fuel block_ (wb_begin workblock) (wb_end workblock) false [] with
      | None => None
      | Some (block', any_changed, _) =>
          if any_changed then merge_while fuel' block' workblock
          else Some block'
      end
  end.

Fixpoint for_workblocks (fuel : nat) (block_ : Block) (ws : list WorkBlock)
  : option Block :=
  match ws with
  | [] => Some block_
  | w :: rest =>
      match merge_while fuel block_ w with
      | None => None
      | Some block' => for_workblocks fuel block' rest
      end
  end.

Fixpoint buildupSubgraphs (fuel : nat) (block_ : Block) : option Block :=
  match fuel with
  | 0 => None
  | S fuel' =>
      match for_workblocks fuel block_ (buildWorkBlocks block_) with
      | None => None
      | Some block1 =>
          match for_nodes (fun sb (_ : unit) =>
                             option_map (fun sb' => (sb', tt))
                                        (buildupSubgraphs fuel' sb))
                          (nodes block1) tt with
          | None => None
          | Some (ns', _) => Some (with_nodes block1 ns')
          end
      end
  end.

(** Number of merge candidates among [ns]. *)
Definition candidates (ns : list Node) : nat :=
  length (filter shouldConsiderForMerge ns).

(** What one reads in "the sweep stays strictly between the two
    boundaries": neither boundary is handed to [scanNode]. *)
Definition visits_only_interior (w : WorkBlock) (visited : list Cursor) : Prop :=
  forall c, In c visited -> c <> wb_begin w /\ c <> wb_end w.

(** *** run *)
Definition run (fuel : nat) (block_ : Block) (diff_nodes : list Node)
  : option (Block * list Node) :=
  match buildupSubgraphs fuel block_ with
  | None => None
  | Some b1 =>
      match unfuseAliasedOutputs fuel b1 with
      | None => None
      | Some b2 =>
          match cleanupSubgraphs fuel b2 diff_nodes with
          | None => None
          | Some (b3, diff_nodes) =>
              Some (EliminateCommonSubexpression O b3, diff_nodes)
          end
      end
  end.

End SubgraphSlicer.

(** ** Contract of the merge collaborators

    What the fixed-point loop relies on.  Positions are counted from the
    parameter node (0) to the return node. *)

Fixpoint index_of (id : nat) (ns : list Node) : option nat :=
  match ns with
  | [] => None
  | n :: rest =>
      if Nat.eqb (nid n) id then Some 0 else option_map S (index_of id rest)
  end.

Definition ids (b : Block) : list nat := map nid (nodes b).

Definition idx (b : Block) (c : Cursor) : option nat :=
  match c with
  | AtParam => Some 0
  | AtNode id => option_map S (index_of id (nodes b))
  | AtReturn => Some (S (length (nodes b)))
  end.

Definition at_or_before (b : Block) (x y : Cursor) : Prop :=
  exists i j, idx b x = Some i /\ idx b y = Some j /\ i <= j.

(** The nodes that bound work blocks: the sentinels and the side-effecting
    nodes. *)
Definition is_boundary (b : Block) (c : Cursor) : Prop :=
  match c with
  | AtNode id => exists s, find_node id (nodes b) = Some s
                           /\ hasSideEffects s = true
  | _ => True
  end.

(** Well-formed blocks: identities are unique, and no merge candidate has
    side effects. *)
Definition pure_candidates (O : Oracles) (b : Block) : Prop :=
  forall n, In n (nodes b) -> shouldConsiderForMerge O n = true ->
            hasSideEffects n = false.

Definition well_formed (O : Oracles) (b : Block) : Prop :=
  NoDup (ids b) /\ pure_candidates O b.

Record MergeContract (O : Oracles) : Prop := {
  (* the sentinels are no merge candidates *)
  sentinels_are_not_candidates :
    forall b, shouldConsiderForMerge O (param_node b) = false
              /\ shouldConsiderForMerge O (return_node b) = false;
  (* wrapping replaces the node, in place, by a group of the same identity
     and without side effects *)
  wrap_in_place :
    forall b n b' g,
      find_node (nid n) (nodes b) = Some n ->
      createSingletonSubgraphAndUpdateAliasing O b n = (b', g) ->
      is_group g = true /\ nid g = nid n /\ hasSideEffects g = false
      /\ exists pre post,
          nodes b = pre ++ n :: post /\ nodes b' = pre ++ g :: post
          /\ find_node (nid n) pre = None;
  (* a merge removes a node, and moves nothing across a boundary: the
     boundaries keep their order among themselves and with the group *)
  merge_shrinks :
    forall b p c moved,
      well_formed O b ->
      shouldConsiderForMerge O p = true ->
      is_group c = true ->
      find_node (nid c) (nodes b) = Some c ->
      moveBeforeTopologicallyValid O b p c = Some moved ->
      let b2 := mergeNodeIntoSubgraphAndUpdateAliasing O moved p c in
      length (nodes b2) < length (nodes b)
      /\ well_formed O b2
      /\ (forall x, is_boundary b x -> is_boundary b2 x)
      /\ (forall x y,
            is_boundary b x ->
            is_boundary b y \/ y = AtNode (nid c) ->
            at_or_before b x y -> at_or_before b2 x y)
}.

(** The boundaries of [b] are boundaries of [b'], in the same order. *)
Definition keeps_boundaries (b b' : Block) : Prop :=
  (forall x, is_boundary b x -> is_boundary b' x)
  /\ (forall x y, is_boundary b x -> is_boundary b y ->
                  at_or_before b x y -> at_or_before b' x y).

(** A work block of [b]: two boundaries, the first at or before the second. *)
Definition valid_workblock (b : Block) (w : WorkBlock) : Prop :=
  is_boundary b (wb_begin w) /\ is_boundary b (wb_end w)
  /\ at_or_before b (wb_begin w) (wb_end w).

(** ** Contract of the merge collaborators, without a premise on purity

    The same collaborators, bound for every block whose node identities are
    unique.  Side-effecting nodes are never reordered around: a granted
    merge removes a producer that has no side effects and stands before the
    group, keeps every other side-effecting node, the group's own position
    apart, and lets no node pass below a boundary it stood after; what stood
    at or after the group still does.  Wrapping is in place and keeps the
    identity. *)

Definition strictly_before (b : Block) (x y : Cursor) : Prop :=
  exists i j, idx b x = Some i /\ idx b y = Some j /\ i < j.

Record LoopContract (O : Oracles) : Prop := {
  loop_sentinels :
    forall b, shouldConsiderForMerge O (param_node b) = false
              /\ shouldConsiderForMerge O (return_node b) = false;
  loop_wrap :
    forall b n b' g,
      find_node (nid n) (nodes b) = Some n ->
      createSingletonSubgraphAndUpdateAliasing O b n = (b', g) ->
      is_group g = true /\ nid g = nid n
      /\ exists pre post,
          nodes b = pre ++ n :: post /\ nodes b' = pre ++ g :: post
          /\ find_node (nid n) pre = None;
  loop_merge :
    forall b p c moved,
      NoDup (ids b) ->
      is_group c = true ->
      find_node (nid c) (nodes b) = Some c ->
      moveBeforeTopologicallyValid O b p c = Some moved ->
      let b2 := mergeNodeIntoSubgraphAndUpdateAliasing O moved p c in
      length (nodes b2) < length (nodes b)
      /\ NoDup (ids b2)
      /\ ~ is_boundary b (AtNode (nid p))
      /\ strictly_before b (AtNode (nid p)) (AtNode (nid c))
      /\ (forall x, x <> AtNode (nid c) ->
                    is_boundary b x -> is_boundary b2 x)
      /\ (forall x y,
            y <> AtNode (nid p) -> is_boundary b x ->
            at_or_before b x y -> at_or_before b2 x y)
      /\ (forall y,
            at_or_before b (AtNode (nid c)) y ->
            at_or_before b2 (AtNode (nid c)) y)
}.

(** The boundaries of [b] that stand at or before [s] are boundaries of
    [b'], in the same order. *)
Definition keeps_below (b b' : Block) (s : Cursor) : Prop :=
  (forall x, is_boundary b x -> at_or_before b x s -> is_boundary b' x)
  /\ (forall x y, is_boundary b x -> is_boundary b y ->
                  at_or_before b y s -> at_or_before b x y ->
                  at_or_before b' x y).

(** The state of a sweep: identities are unique, [begin] is a boundary at
    or before the iterator, and the iterator is at or before [end_]. *)
Definition sweeping (b : Block) (begin it end_ : Cursor) : Prop :=
  NoDup (ids b) /\ is_boundary b begin
  /\ at_or_before b begin it /\ at_or_before b it end_.

(** ** Contract of the alias repairs

    Aliasing among the boundary values of a subgraph is decided by the
    alias analysis; it enters as two predicates on the subgraph payload. *)

Record AliasFacts : Type := {
  outputs_alias : option Graph -> Prop;
  output_aliases_input : option Graph -> Prop
}.

Definition alias_free (AF : AliasFacts) (n : Node) : Prop :=
  ~ outputs_alias AF (subgraph n) /\ ~ output_aliases_input AF (subgraph n).

(** A dissolved group releases no node that owns child blocks. *)
Definition releases_no_blocks (O : Oracles) (n : Node) : Prop :=
  forall m, In m (unmergeSubgraph O (finalized O n)) -> blocks m = [].

Record AliasContract (O : Oracles) (AF : AliasFacts) : Prop := {
  (* a repair that reports no change left the group alone, and then the
     group has no aliasing of that kind *)
  aliased_outputs_fixed :
    forall n n' out,
      unmergeAliasedOutputs O n = (n', out, false) ->
      n' = n /\ out = [] /\ ~ outputs_alias AF (subgraph n);
  aliasing_inputs_fixed :
    forall n n' out,
      unmergeOutputsAlisingInputs O n = (n', out, false) ->
      n' = n /\ out = [] /\ ~ output_aliases_input AF (subgraph n);
  (* deduplication inside a subgraph introduces no aliasing *)
  cse_keeps_alias_free :
    forall n, alias_free AF n -> alias_free AF (finalized O n)
}.

(** [P] holds of every group node of the block tree (child blocks
    included, subgraph interiors not). *)
#[warnings="-register-all"]
Inductive tree_groups (P : Node -> Prop) : Block -> Prop :=
| tree_groups_intro b :
    (forall n, In n (nodes b) ->
               (is_group n = true -> P n)
               /\ (forall ib, In ib (blocks n) -> tree_groups P ib)) ->
    tree_groups P b.

(** ** Gradient metadata *)

(** A use site: the consuming node and the input slot. *)
Record Use : Type := mkUse { user : Node; offset : nat }.

(** What the pass reads of the value bookkeeping of a graph: the kind of the
    node producing a value, and the use list of a value (in the order the
    IR keeps it). *)
Record ValueInfo : Type := {
  producer_kind : Value -> NodeKind;
  uses : Value -> list Use
}.

(** The types of the values; [Value::setType] updates it at one handle. *)
Definition TypeStore : Type := Value -> Ty.

Definition setType (types : TypeStore) (v : Value) (t : Ty) : TypeStore :=
  fun w => if Nat.eqb w v then t else types w.

(** The assertion on the kind of [n] is guarded at both call sites. *)
Definition getProfileNodeRequiresGrad (n : Node) : option bool :=
  match profiled_type n with
  | None => None
  | Some (OtherType _) => None
  | Some (TensorType requiresGrad _) => requiresGrad
  end.

Definition is_profile (n : Node) : bool := kind_eqb (kind n) prim_profile.

Section GradientMetadata.

Variable info : ValueInfo.

(** The loop over [dg_value->uses()]. *)
Fixpoint search_dg_uses (dg_uses : list Use) : option bool :=
  match dg_uses with
  | [] => None
  | dg_use :: rest =>
      if is_profile (user dg_use) then
        match getProfileNodeRequiresGrad (user dg_use) with
        | Some r => Some r
        | None => search_dg_uses rest
        end
      else search_dg_uses rest
  end.

(** The flag one use site yields.  The outer [None] is a fault: a group
    without its subgraph, or an offset beyond the subgraph's inputs. *)
Definition flag_of_use (use : Use) : option (option bool) :=
  match (if is_profile (user use)
         then getProfileNodeRequiresGrad (user use) else None) with
  | Some r => Some (Some r)
  | None =>
      if is_group (user use) then
        match subgraph (user use) with
        | None => None
        | Some dg =>
            match nth_error (block_params dg) (offset use) with
            | None => None
            | Some dg_value => Some (search_dg_uses (uses info dg_value))
            end
        end
      else Some None
  end.

(** The loop over [diff_graph->output(i)->uses()], leaving at the first
    flag. *)
Fixpoint search_uses (us : list Use) : option (option bool) :=
  match us with
  | [] => Some None
  | use :: rest =>
      match flag_of_use use with
      | None => None
      | Some (Some r) => Some (Some r)
      | Some None => search_uses rest
      end
  end.

(** The loop over the subgraph outputs, from index [i]. *)
Fixpoint outputs_loop (diff_graph : Node) (i : nat) (outs : list Value)
         (types : TypeStore) : option TypeStore :=
  match outs with
  | [] => Some types
  | output :: rest =>
      if kind_eqb (producer_kind info output) prim_profile then
        outputs_loop diff_graph (S i) rest types
      else
        match types output with
        | OtherType _ => outputs_loop diff_graph (S i) rest types
        | TensorType (Some _) _ => outputs_loop diff_graph (S i) rest types
        | TensorType None fields =>
            match nth_error (outputs diff_graph) i with
            | None => None
            | Some outer =>
                match search_uses (uses info outer) with
                | None => None
                | Some (Some r) =>
                    outputs_loop diff_graph (S i) rest
                      (setType types output (TensorType (Some r) fields))
                | Some None => outputs_loop diff_graph (S i) rest types
                end
            end
        end
  end.

(** [None]: the assertion on the kind failed, the subgraph is missing, or a
    fault occurred in the search. *)
Definition AddRequiresGradToDifferentiableGraph (diff_graph : Node)
           (types : TypeStore) : option TypeStore :=
  if negb (is_group diff_graph) then None
  else
    match subgraph diff_graph with
    | None => None
    | Some sg => outputs_loop diff_graph 0 (block_returns sg) types
    end.

Fixpoint grad_blocks (f : Block -> TypeStore -> option TypeStore)
         (bs : list Block) (types : TypeStore) : option TypeStore :=
  match bs with
  | [] => Some types
  | b :: rest =>
      match f b types with
      | None => None
      | Some types' => grad_blocks f rest types'
      end
  end.

Fixpoint grad_nodes (f : Block -> TypeStore -> option TypeStore)
         (ns : list Node) (types : TypeStore) : option TypeStore :=
  match ns with
  | [] => Some types
  | n :: rest =>
      match (if is_group n
             then AddRequiresGradToDifferentiableGraph n types
             else Some types) with
      | None => None
      | Some types1 =>
          match grad_blocks f (blocks n) types1 with
          | None => None
          | Some types2 => grad_nodes f rest types2
          end
      end
  end.

(** [fuel] bounds the nesting depth of child blocks. *)
Fixpoint AddRequiresGradOnOutputNodes (fuel : nat) (block : Block)
         (types : TypeStore) : option TypeStore :=
  match fuel with
  | 0 => None
  | S fuel => grad_nodes (AddRequiresGradOnOutputNodes fuel) (nodes block) types
  end.

(** *** Specification vocabulary for the propagator *)

(** The search as a two-phase reading has it: first every use is inspected
    for a profiling node carrying a flag; only when there is none are the
    group users looked through. *)
Fixpoint direct_flag (us : list Use) : option bool :=
  match us with
  | [] => None
  | use :: rest =>
      match (if is_profile (user use)
             then getProfileNodeRequiresGrad (user use) else None) with
      | Some r => Some r
      | None => direct_flag rest
      end
  end.

Fixpoint through_groups (us : list Use) : option bool :=
  match us with
  | [] => None
  | use :: rest =>
      if is_group (user use) then
        match subgraph (user use) with
        | None => through_groups rest
        | Some dg =>
            match nth_error (block_params dg) (offset use) with
            | None => through_groups rest
            | Some dg_value =>
                match search_dg_uses (uses info dg_value) with
                | Some r => Some r
                | None => through_groups rest
                end
            end
        end
      else through_groups rest
  end.

Definition two_phase_search (us : list Use) : option bool :=
  match direct_flag us with
  | Some r => Some r
  | None => through_groups us
  end.

(** The only change of a type store the propagator may make: a tensor type
    without a flag, of a value not produced by a profiling node, receives a
    flag; its other fields stay. *)
Definition flag_only (types types' : TypeStore) : Prop :=
  forall v,
    types' v = types v
    \/ exists fields r,
        types v = TensorType None fields
        /\ types' v = TensorType (Some r) fields
        /\ kind_eqb (producer_kind info v) prim_profile = false.

End GradientMetadata.

(** ** Entry point

    [info_of] is the value bookkeeping of a graph, [types] the types of its
    values on entry.  The result is the graph afterwards, the types
    afterwards, and [diff_nodes]. *)
Definition CreateAutodiffSubgraphs (O : Oracles) (info_of : Graph -> ValueInfo)
           (fuel : nat) (graph : Graph) (threshold : nat) (types : TypeStore)
  : option (Graph * TypeStore * list Node) :=
  match run O threshold fuel graph [] with
  | None => None
  | Some (graph', diff_nodes) =>
      match AddRequiresGradOnOutputNodes (info_of graph') fuel graph' types with
      | None => None
      | Some types' => Some (graph', types', diff_nodes)
      end
  end.

(** ** A reference instance of the collaborators

    Used to run the pass on concrete graphs. *)

Module Reference.

(** Modelled from the spec: the DifferentiabilityOracle is external; here
    the operators [op s] with [s < 100] are the differentiable ones. *)
Definition isDifferentiable (n : Node) : bool :=
  match kind n with
  | op s => s <? 100
  | _ => false
  end.

(** Modelled from the spec: the no-op nodes are the constants and the
    type-profiling nodes. *)
Definition notExecutedOp (n : Node) : bool :=
  kind_eqb (kind n) prim_Constant || kind_eqb (kind n) prim_profile.

(** Modelled from the spec: deduplication removes structurally identical
    pure nodes; the graphs run here have none, so it is the identity. *)
Definition EliminateCommonSubexpression (g : Graph) : Graph := g.

Fixpoint split_at (id : nat) (ns : list Node)
  : option (list Node * Node * list Node) :=
  match ns with
  | [] => None
  | n :: rest =>
      if Nat.eqb (nid n) id then Some ([], n, rest)
      else
        match split_at id rest with
        | None => None
        | Some (pre, m, post) => Some (n :: pre, m, post)
        end
  end.

Definition mem (v : Value) (l : list Value) : bool := existsb (Nat.eqb v) l.

Definition consumes_any (vs : list Value) (n : Node) : bool :=
  existsb (fun v => mem v vs) (inputs n).

(** Modelled from the spec: CreateSingletonGroup wraps the node alone into
    a new group node at the same position, preserving all use sites.  The
    group takes over the identifier and the boundary values of the node. *)
Definition createSingletonSubgraphAndUpdateAliasing (b : Block) (n : Node)
  : Block * Node :=
  let g := mkNode (nid n) prim_DifferentiableGraph (inputs n) (outputs n) []
                  false None (Some (inputs n, [n], outputs n)) in
  match split_at (nid n) (nodes b) with
  | Some (pre, _, post) => (with_nodes b (pre ++ g :: post), g)
  | None => (b, g)
  end.

(** Modelled from the spec: CanReorderBefore holds when the producer can be
    moved immediately before the consumer without crossing a side-effecting
    node or one of its own consumers; the move is then carried out. *)
Definition moveBeforeTopologicallyValid (b : Block) (producer consumer : Node)
  : option Block :=
  match split_at (nid producer) (nodes b) with
  | None => None
  | Some (pre, p, rest) =>
      match split_at (nid consumer) rest with
      | None => None
      | Some (mid, c, post) =>
          if negb (hasSideEffects p)
             && forallb (fun m => negb (hasSideEffects m)
                                  && negb (consumes_any (outputs p) m)) mid
          then Some (with_nodes b (pre ++ mid ++ p :: c :: post))
          else None
      end
  end.

Definition subgraph_params (n : Node) : list Value :=
  match subgraph n with Some g => block_params g | None => [] end.
Definition subgraph_returns (n : Node) : list Value :=
  match subgraph n with Some g => block_returns g | None => [] end.

(** The nodes a producer contributes to a group: its own subgraph when it
    is a group, else itself. *)
Definition contents (p : Node) : list Node :=
  if is_group p then subgraph_nodes p else [p].

(** Modelled from the spec: MergeInto folds the producer into the group and
    removes it from the block.  The group's inputs become the producer's
    inputs followed by the group's inputs that the producer does not
    define; the producer's outputs still used elsewhere become outputs of
    the group. *)
Definition mergeNodeIntoSubgraphAndUpdateAliasing (b : Block)
           (producer consumer : Node) : Block :=
  match split_at (nid producer) (nodes b) with
  | None => b
  | Some (pre, p, rest) =>
      match split_at (nid consumer) rest with
      | None => b
      | Some (mid, c, post) =>
          let others := pre ++ mid ++ post in
          let escaping :=
            filter (fun v => existsb (consumes_any [v]) others
                             || mem v (block_returns b)) (outputs p) in
          let ins := inputs p
                     ++ filter (fun v => negb (mem v (outputs p))) (inputs c) in
          let outs := outputs c ++ escaping in
          let g := mkNode (nid c) prim_DifferentiableGraph ins outs []
                          false None
                          (Some (ins, contents p ++ subgraph_nodes c, outs)) in
          with_nodes b (pre ++ mid ++ g :: post)
      end
  end.

(** Modelled from the spec: DissolveGroup returns the contents of the group
    to the parent block, preserving relative order. *)
Definition unmergeSubgraph (n : Node) : list Node := subgraph_nodes n.

Fixpoint dedup (seen : list Value) (l : list Value) : list Value :=
  match l with
  | [] => []
  | v :: rest => if mem v seen then dedup seen rest
                 else v :: dedup (v :: seen) rest
  end.

Definition has_dup (l : list Value) : bool :=
  negb (length (dedup [] l) =? length l).

Definition set_returns (n : Node) (rets : list Value) : Node :=
  match subgraph n with
  | Some g => set_subgraph n (Some (block_params g, nodes g, rets))
  | None => n
  end.

(** Modelled from the spec: two outputs of a subgraph alias when they are
    the same value; the repair keeps one of them. *)
Definition unmergeAliasedOutputs (n : Node) : Node * list Node * bool :=
  if has_dup (subgraph_returns n)
  then (set_returns n (dedup [] (subgraph_returns n)), [], true)
  else (n, [], false).

(** Modelled from the spec: an output aliases an input when it is a
    pass-through of it; the repair lets the value flow past the group. *)
Definition unmergeOutputsAlisingInputs (n : Node) : Node * list Node * bool :=
  if existsb (fun v => mem v (subgraph_params n)) (subgraph_returns n)
  then (set_returns n (filter (fun v => negb (mem v (subgraph_params n)))
                              (subgraph_returns n)), [], true)
  else (n, [], false).

Definition oracles : Oracles :=
  Build_Oracles isDifferentiable notExecutedOp EliminateCommonSubexpression
                createSingletonSubgraphAndUpdateAliasing
                moveBeforeTopologicallyValid
                mergeNodeIntoSubgraphAndUpdateAliasing
                unmergeSubgraph unmergeAliasedOutputs
                unmergeOutputsAlisingInputs.

End Reference.

(** ** Sample graphs *)

Module Scenario.

Definition plain (id : nat) (k : NodeKind) (ins outs : list Value)
           (effects : bool) : Node :=
  mkNode id k ins outs [] effects None None.

(** [A(diff), B(side-effecting), C(diff), D(diff)] over one graph input
    (value 1); [D] consumes the output of [C]. *)
Definition A : Node := plain 1 (op 1) [1] [11] false.
Definition B : Node := plain 2 (op 200) [1] [] true.
Definition C : Node := plain 3 (op 1) [1] [13] false.
Definition D : Node := plain 4 (op 1) [13] [14] false.
Definition chain : Graph := ([1], [A; B; C; D], [11; 14]).

(** The same sequence as a linear chain: every node consumes the output of
    the node before it. *)
Definition A' : Node := plain 1 (op 1) [1] [11] false.
Definition B' : Node := plain 2 (op 200) [11] [12] true.
Definition C' : Node := plain 3 (op 1) [12] [13] false.
Definition D' : Node := plain 4 (op 1) [13] [14] false.
Definition line : Graph := ([1], [A'; B'; C'; D'], [14]).
Definition CD' : Node :=
  mkNode 4 prim_DifferentiableGraph [12] [14] [] false None
         (Some ([12], [C'; D'], [14])).
Definition line_partitioned : Graph := ([1], [A'; B'; CD'], [14]).

(** The sequence with a side-effecting node that the differentiability
    oracle accepts. *)
Definition Bd : Node := plain 2 (op 1) [1] [12] true.
Definition impure : Graph := ([1], [A; Bd; C; D], [11; 14]).

(** The group the pass builds on [chain], and the graph it leaves. *)
Definition CD : Node :=
  mkNode 4 prim_DifferentiableGraph [1] [14] [] false None
         (Some ([1], [C; D], [14])).
Definition chain_partitioned : Graph := ([1], [A; B; CD], [11; 14]).

(** A graph that already holds group nodes, on two levels: the root block
    holds the groups [Ga] and [Gb] (two executed nodes each) around the
    node [Ctl], whose child block holds the group [Gs] (one executed node)
    and the group [Gc] (two executed nodes). *)
Definition group (id : nat) (ins outs : list Value) (g : Graph) : Node :=
  mkNode id prim_DifferentiableGraph ins outs [] false None (Some g).
Definition Ma1 : Node := plain 101 (op 1) [1] [111] false.
Definition Ma2 : Node := plain 102 (op 1) [111] [112] false.
Definition Ga : Node := group 10 [1] [112] ([1], [Ma1; Ma2], [112]).
Definition Mb1 : Node := plain 121 (op 1) [1] [121] false.
Definition Mb2 : Node := plain 122 (op 1) [121] [122] false.
Definition Gb : Node := group 12 [1] [122] ([1], [Mb1; Mb2], [122]).
Definition Mc1 : Node := plain 201 (op 1) [2] [211] false.
Definition Mc2 : Node := plain 202 (op 1) [211] [212] false.
Definition Gc : Node := group 20 [2] [212] ([2], [Mc1; Mc2], [212]).
Definition Ms : Node := plain 203 (op 1) [2] [221] false.
Definition Gs : Node := group 21 [2] [221] ([2], [Ms], [221]).
Definition inner : Block := ([2], [Gs; Gc], [212; 221]).
Definition Ctl : Node := mkNode 11 (op 300) [1] [] [inner] false None None.
Definition tree : Graph := ([1], [Ga; Ctl; Gb], [112; 122]).

(** What the pass leaves of [tree] at threshold 2: [Gs] is dissolved. *)
Definition inner_cleaned : Block := ([2], [Ms; Gc], [212; 221]).
Definition tree_cleaned : Graph :=
  ([1], [Ga; set_blocks Ctl [inner_cleaned]; Gb], [112; 122]).

(** A group [Outer] whose subgraph holds one node, the group [Hid], itself
    of one executed node. *)
Definition Mh : Node := plain 301 (op 1) [1] [311] false.
Definition Hid : Node := group 31 [1] [311] ([1], [Mh], [311]).
Definition Outer : Node := group 30 [1] [311] ([1], [Hid], [311]).
Definition nested : Graph := ([1], [Outer], [311]).

(** A group [Gh] whose subgraph holds one node, [Nh], which owns a child
    block; the group [Q] of that block returns the same value twice. *)
Definition Mq1 : Node := plain 401 (op 1) [3] [411] false.
Definition Mq2 : Node := plain 402 (op 1) [411] [412] false.
Definition Q : Node := group 40 [3] [412; 412] ([3], [Mq1; Mq2], [412; 412]).
Definition Nh : Node :=
  mkNode 41 (op 1) [1] [413] [([3], [Q], [412])] false None None.
Definition Gh : Node := group 42 [1] [413] ([1], [Nh], [413]).
Definition hidden : Graph := ([1], [Gh], [413]).

Definition no_info (g : Graph) : ValueInfo :=
  {| producer_kind := fun _ => op 0; uses := fun _ => [] |}.
Definition untyped : TypeStore := fun _ => OtherType 0.

(** A group [G1] with one tensor output (inner value 20, outer value 21)
    that lacks the flag.  The outer value is used first by the group [G2]
    (slot 0, inner value 50, profiled inside as requiring a gradient) and
    then by a profiling node [P] recording that none is required. *)
Definition P : Node :=
  mkNode 7 prim_profile [21] [22] [] false (Some (TensorType (Some false) 0)) None.
Definition Pin : Node :=
  mkNode 8 prim_profile [50] [51] [] false (Some (TensorType (Some true) 0)) None.
Definition M : Node := plain 9 (op 1) [10] [20] false.
Definition G1 : Node :=
  mkNode 5 prim_DifferentiableGraph [10] [21] [] false None
         (Some ([10], [M], [20])).
Definition G2 : Node :=
  mkNode 6 prim_DifferentiableGraph [21] [52] [] false None
         (Some ([50], [Pin], [51])).
Definition flag_info : ValueInfo :=
  {| producer_kind := fun _ => op 1;
     uses := fun v => if Nat.eqb v 21 then [mkUse G2 0; mkUse P 0]
                      else if Nat.eqb v 50 then [mkUse Pin 0]
                      else [] |}.
Definition flag_types : TypeStore := fun _ => TensorType None 0.

(** The same uses around a group [G3] whose subgraph output (inner value
    20) is produced by a profiling node that carries no flag. *)
Definition Pm : Node :=
  mkNode 9 prim_profile [10] [20] [] false (Some (TensorType None 0)) None.
Definition G3 : Node :=
  mkNode 5 prim_DifferentiableGraph [10] [21] [] false None
         (Some ([10], [Pm], [20])).
Definition profiled_info : ValueInfo :=
  {| producer_kind := fun v => if Nat.eqb v 20 then prim_profile else op 1;
     uses := uses flag_info |}.

(** Aliasing as the reference repairs see it. *)
Definition alias_facts : AliasFacts :=
  {| outputs_alias := fun g =>
       match g with
       | Some sg => Reference.has_dup (block_returns sg) = true
       | None => False
       end;
     output_aliases_input := fun g =>
       match g with
       | Some sg =>
           existsb (fun v => Reference.mem v (block_params sg))
                   (block_returns sg) = true
       | None => False
       end |}.

End Scenario.

(** ** Further specification vocabulary *)

(** Number of side-effecting nodes among [ns]. *)
Definition side_effecting (ns : list Node) : nat :=
  length (filter hasSideEffects ns).

(** What the cleanup loop leaves at the place of one node of the level. *)
Definition level_repl (O : Oracles) (minSubgraphSize_ : nat) (n : Node)
  : list Node :=
  if is_group n then
    if survives O minSubgraphSize_ n then [finalized O n]
    else unmergeSubgraph O (finalized O n)
  else [n].

(** A run of the sweep of one work block, as a trace: from the cursor
    [it] the sweep hands [it] to [scanNode] and goes on from the cursor
    that [scanNode] returns, on the block it leaves; it ends, without a
    further call, exactly when the cursor is the begin boundary.  The trace
    lists the cursors handed to [scanNode], first one first; the boolean
    is the disjunction of the changed flags. *)
Inductive sweep_run (O : Oracles) (begin : Cursor)
  : Block -> Cursor -> list Cursor -> Block -> bool -> Prop :=
| sweep_stop b : sweep_run O begin b begin [] b false
| sweep_next b it b1 it1 changed trace b' ch :
    it <> begin ->
    scanNode O b it = Some (b1, it1, changed) ->
    sweep_run O begin b1 it1 trace b' ch ->
    sweep_run O begin b it (it :: trace) b' (changed || ch).

(** Where a value is produced, said on the node list of the block: [v] is
    produced at position [i] of [b] when the interior node at position [i]
    (counted from 1) is the first to list [v] among its outputs, or when no
    interior node lists it, it is a parameter of the block, and [i] is 0,
    the position of the parameter node. *)
Definition produced_at (b : Block) (v : Value) (i : nat) : Prop :=
  (exists pre p post,
      nodes b = pre ++ p :: post
      /\ In v (outputs p)
      /\ (forall q, In q pre -> ~ In v (outputs q))
      /\ i = S (length pre))
  \/ ((forall q, In q (nodes b) -> ~ In v (outputs q))
      /\ In v (block_params b) /\ i = 0).

(** [v] is an output of a node of [b] or a parameter of [b]. *)
Definition produced_here (b : Block) (v : Value) : Prop :=
  In v (block_params b) \/ exists p, In p (nodes b) /\ In v (outputs p).

(** [a] is produced no earlier in [b] than [c]. *)
Definition produced_later_first (b : Block) (a c : Value) : Prop :=
  forall i j, produced_at b a i -> produced_at b c j -> j <= i.

(** A group node carries the subgraph attribute. *)
Definition has_subgraph (n : Node) : Prop :=
  is_group n = true -> subgraph n <> None.

(** The size filter stated on the count of executed nodes: what stands at
    the place of one node of a block level once the cleanup has passed
    over the level.  A group is kept when its deduplicated subgraph is not
    empty and holds at least the minimum of executed nodes. *)
Definition size_filtered (O : Oracles) (minSubgraphSize_ : nat) (n : Node)
  : list Node :=
  if is_group n then
    match subgraph_nodes (finalized O n) with
    | [] => unmergeSubgraph O (finalized O n)
    | _ :: _ =>
        if minSubgraphSize_ <=? executed_count O (finalized O n)
        then [finalized O n]
        else unmergeSubgraph O (finalized O n)
    end
  else [n].

(** The block tree after the cleanup: every node of a level is replaced by
    what the size filter leaves of it, once; the child blocks of the nodes
    that then stand in the level, released ones included, are cleaned in
    turn.  Nodes released by a dissolution are not filtered again at their
    level, and subgraphs are not entered. *)
#[warnings="-register-all"]
Inductive cleaned (O : Oracles) (minSubgraphSize_ : nat)
  : Block -> Block -> Prop :=
| cleaned_intro b ns' :
    Forall2 (fun n n' =>
               exists bs, n' = set_blocks n bs
                          /\ Forall2 (cleaned O minSubgraphSize_) (blocks n) bs)
            (flat_map (size_filtered O minSubgraphSize_) (nodes b)) ns' ->
    cleaned O minSubgraphSize_ b (with_nodes b ns').

(** A use site the propagator can follow: when the user is a group node it
    carries its subgraph and the offset designates one of its inputs. *)
Definition use_well_formed (use : Use) : Prop :=
  is_group (user use) = true ->
  exists dg v, subgraph (user use) = Some dg
               /\ nth_error (block_params dg) (offset use) = Some v.

(** A use by a node that is neither a profiling node nor a group. *)
Definition ordinary_use (use : Use) : Prop :=
  is_profile (user use) = false /\ is_group (user use) = false.

(** * Properties *)

Lemma cursor_eqb_eq (a b : Cursor) : cursor_eqb a b = true <-> a = b.
Proof.
  destruct a, b; simpl; split; intro H; try congruence; try reflexivity.
  - apply Nat.eqb_eq in H. now subst.
  - inversion H. apply Nat.eqb_refl.
Qed.

Lemma cursor_eqb_refl (a : Cursor) : cursor_eqb a a = true.
Proof. now apply cursor_eqb_eq. Qed.

(** ** Traversal of child blocks *)

Section Traversal.

Context {S : Type} (f : Block -> S -> option (Block * S)) (I : S -> Prop).
Hypothesis f_keeps : forall b s b' s', f b s = Some (b', s') -> I s -> I s'.

Lemma for_blocks_keeps bs : forall s bs' s',
  for_blocks f bs s = Some (bs', s') -> I s -> I s'.
Proof.
  induction bs as [|b rest IH]; simpl; intros s bs' s' H Hs.
  - now inversion H; subst.
  - destruct (f b s) as [[b1 s1]|] eqn:Eb; try discriminate.
    destruct (for_blocks f rest s1) as [[r2 s2]|] eqn:Er; try discriminate.
    inversion H; subst. eapply IH; eauto.
Qed.

Lemma for_nodes_keeps ns : forall s ns' s',
  for_nodes f ns s = Some (ns', s') -> I s -> I s'.
Proof.
  induction ns as [|n rest IH]; simpl; intros s ns' s' H Hs.
  - now inversion H; subst.
  - destruct (for_blocks f (blocks n) s) as [[bs s1]|] eqn:Eb; try discriminate.
    destruct (for_nodes f rest s1) as [[r2 s2]|] eqn:Er; try discriminate.
    inversion H; subst. eapply IH; eauto using for_blocks_keeps.
Qed.

End Traversal.

(** ** One step of the cleanup loop *)

Lemma cleanup_loop_cons O t n rest after d :
  cleanup_loop O t (n :: rest) after d
  = if is_group n then
      match subgraph n with
      | None => None
      | Some _ =>
          if reaches_min O t 0 (subgraph_nodes (finalized O n))
          then cleanup_loop O t rest (finalized O n :: after)
                            (d ++ [finalized O n])
          else cleanup_loop O t rest
                            (unmergeSubgraph O (finalized O n) ++ after) d
      end
    else cleanup_loop O t rest (n :: after) d.
Proof.
  simpl. destruct (is_group n) eqn:G; [|reflexivity].
  unfold finalized. destruct (subgraph n) as [g|] eqn:E; [|reflexivity].
  simpl. unfold inlineIfTooSmall.
  change (is_group (set_subgraph n (Some (EliminateCommonSubexpression O g))))
    with (is_group n).
  rewrite G. simpl. unfold subgraph_nodes. simpl.
  now destruct (reaches_min O t 0 (nodes (EliminateCommonSubexpression O g))).
Qed.

Lemma reaches_min_iff O minSubgraphSize_ ns : forall i,
  reaches_min O minSubgraphSize_ i ns = true
  <-> ns <> [] /\ minSubgraphSize_ <= i + executed O ns.
Proof.
  induction ns as [|n rest IH]; intro i; simpl.
  - split; [discriminate|]. intros [C _]. now elim C.
  - unfold executed. simpl.
    destruct (minSubgraphSize_ <=? i + b2n (negb (notExecutedOp O n))) eqn:E.
    + apply Nat.leb_le in E. split; [|reflexivity]. intros _.
      split; [discriminate|].
      destruct (notExecutedOp O n); simpl in *; lia.
    + apply Nat.leb_gt in E. rewrite IH. unfold executed.
      split.
      * intros [_ H]. split; [discriminate|].
        destruct (notExecutedOp O n); simpl in *; lia.
      * intros [_ H]. split.
        -- intros ->. simpl in *.
           destruct (notExecutedOp O n); simpl in *; lia.
        -- destruct (notExecutedOp O n); simpl in *; lia.
Qed.

(** ** Size filter *)

Section SizeFilter.

Variable O : Oracles.
Variable minSubgraphSize_ : nat.

Local Abbreviation reaches := (reaches_min O minSubgraphSize_).
Local Abbreviation count := (executed O).

Lemma reaches_min_sound ns : forall i,
  reaches i ns = true -> minSubgraphSize_ <= i + count ns.
Proof.
  induction ns as [|n rest IH]; simpl; intros i H; try discriminate.
  unfold executed in *. simpl.
  destruct (minSubgraphSize_ <=? i + b2n (negb (notExecutedOp O n))) eqn:E.
  - apply Nat.leb_le in E.
    destruct (notExecutedOp O n); simpl in *; lia.
  - apply IH in H. destruct (notExecutedOp O n); simpl in *; lia.
Qed.

Lemma reaches_min_complete ns : forall i,
  i + count ns < minSubgraphSize_ -> reaches i ns = false.
Proof.
  induction ns as [|n rest IH]; simpl; intros i H; try reflexivity.
  unfold executed in *. simpl in H.
  destruct (minSubgraphSize_ <=? i + b2n (negb (notExecutedOp O n))) eqn:E.
  - apply Nat.leb_le in E.
    destruct (notExecutedOp O n); simpl in *; lia.
  - apply IH. destruct (notExecutedOp O n); simpl in *; lia.
Qed.

Local Abbreviation big_enough := (big_enough O minSubgraphSize_).

Lemma cleanup_loop_keeps rn : forall after d ns d',
  cleanup_loop O minSubgraphSize_ rn after d = Some (ns, d') ->
  Forall big_enough d -> Forall big_enough d'.
Proof.
  induction rn as [|n rest IH]; intros after d ns d' H Hd.
  - simpl in H. now inversion H; subst.
  - rewrite cleanup_loop_cons in H.
    destruct (is_group n) eqn:G; [|eauto].
    destruct (subgraph n); [|discriminate].
    destruct (reaches 0 _) eqn:R; [|eauto].
    eapply IH; [exact H|]. apply Forall_app. split; [assumption|].
    constructor; [|constructor]. split; [exact G|].
    apply reaches_min_sound in R. exact R.
Qed.

Lemma cleanupSubgraphs_keeps fuel : forall b d b' d',
  cleanupSubgraphs O minSubgraphSize_ fuel b d = Some (b', d') ->
  Forall big_enough d -> Forall big_enough d'.
Proof.
  induction fuel as [|fuel IH]; simpl; intros b d b' d' H Hd; try discriminate.
  destruct (cleanup_loop _ _ _ _ _) as [[ns d1]|] eqn:L; try discriminate.
  destruct (for_nodes _ _ _) as [[ns' d2]|] eqn:F; try discriminate.
  inversion H; subst.
  eapply (for_nodes_keeps (cleanupSubgraphs O minSubgraphSize_ fuel)
                          (Forall big_enough)); eauto using cleanup_loop_keeps.
Qed.

End SizeFilter.

Lemma CreateAutodiffSubgraphs_cleanup O info_of fuel graph threshold types
      g' types' diff_nodes :
  CreateAutodiffSubgraphs O info_of fuel graph threshold types
  = Some (g', types', diff_nodes) ->
  exists b1 b2 b3,
    buildupSubgraphs O threshold fuel graph = Some b1
    /\ unfuseAliasedOutputs O fuel b1 = Some b2
    /\ cleanupSubgraphs O threshold fuel b2 [] = Some (b3, diff_nodes)
    /\ g' = EliminateCommonSubexpression O b3.
Proof.
  unfold CreateAutodiffSubgraphs, run. intro H.
  destruct (buildupSubgraphs O threshold fuel graph) as [b1|] eqn:E1;
    try discriminate.
  destruct (unfuseAliasedOutputs O fuel b1) as [b2|] eqn:E2; try discriminate.
  destruct (cleanupSubgraphs O threshold fuel b2 []) as [[b3 d]|] eqn:E;
    try discriminate.
  destruct (AddRequiresGradOnOutputNodes _ _ _ _); try discriminate.
  inversion H; subst. exists b1, b2, b3. auto.
Qed.

Lemma size_filtered_level_repl O t n : level_repl O t n = size_filtered O t n.
Proof.
  unfold level_repl, size_filtered, survives.
  destruct (is_group n); [|reflexivity]. simpl.
  pose proof (reaches_min_iff O t (subgraph_nodes (finalized O n)) 0) as R.
  unfold executed_count. simpl in R.
  destruct (subgraph_nodes (finalized O n)) as [|m ms] eqn:E.
  - destruct (reaches_min O t 0 []) eqn:Q; [|reflexivity].
    destruct (proj1 R eq_refl) as [C _]. now elim C.
  - destruct (t <=? executed O (m :: ms)) eqn:L.
    + apply Nat.leb_le in L. rewrite (proj2 R); [reflexivity|].
      split; [discriminate|exact L].
    + apply Nat.leb_gt in L.
      destruct (reaches_min O t 0 (m :: ms)) eqn:Q; [|reflexivity].
      destruct (proj1 R eq_refl) as [_ C]. lia.
Qed.

Lemma cleanup_loop_result O t rn : forall after d ns d',
  cleanup_loop O t rn after d = Some (ns, d') ->
  ns = flat_map (size_filtered O t) (rev rn) ++ after.
Proof.
  induction rn as [|n rest IH]; intros after d ns d' H.
  - simpl in H. now inversion H.
  - rewrite cleanup_loop_cons in H. simpl.
    rewrite flat_map_app. simpl. rewrite app_nil_r, <- app_assoc.
    rewrite <- size_filtered_level_repl. unfold level_repl, survives.
    destruct (is_group n); simpl; [|now apply IH in H].
    destruct (subgraph n); [|discriminate].
    destruct (reaches_min O t 0 _); now apply IH in H.
Qed.

Section Related.

Context {S : Type} (f : Block -> S -> option (Block * S)).
Context (R : Block -> Block -> Prop).
Hypothesis f_related : forall b s b' s', f b s = Some (b', s') -> R b b'.

Lemma for_blocks_related bs : forall s bs' s',
  for_blocks f bs s = Some (bs', s') -> Forall2 R bs bs'.
Proof.
  induction bs as [|b rest IH]; simpl; intros s bs' s' H.
  - inversion H; subst. constructor.
  - destruct (f b s) as [[b1 s1]|] eqn:Eb; try discriminate.
    destruct (for_blocks f rest s1) as [[r2 s2]|] eqn:Er; try discriminate.
    inversion H; subst. constructor; eauto.
Qed.

Lemma for_nodes_related ns : forall s ns' s',
  for_nodes f ns s = Some (ns', s') ->
  Forall2 (fun n n' => exists bs, n' = set_blocks n bs
                                  /\ Forall2 R (blocks n) bs) ns ns'.
Proof.
  induction ns as [|n rest IH]; simpl; intros s ns' s' H.
  - inversion H; subst. constructor.
  - destruct (for_blocks f (blocks n) s) as [[bs s1]|] eqn:Eb;
      try discriminate.
    destruct (for_nodes f rest s1) as [[r2 s2]|] eqn:Er; try discriminate.
    inversion H; subst. constructor; [|eauto].
    exists bs. split; [reflexivity|]. eapply for_blocks_related; eauto.
Qed.

End Related.

Lemma cleanupSubgraphs_cleaned O t fuel : forall b d b' d',
  cleanupSubgraphs O t fuel b d = Some (b', d') -> cleaned O t b b'.
Proof.
  induction fuel as [|fuel IH]; simpl; intros b d b' d' H; try discriminate.
  destruct (cleanup_loop _ _ _ _ _) as [[ns d1]|] eqn:L; try discriminate.
  destruct (for_nodes _ _ _) as [[ns' d2]|] eqn:F; try discriminate.
  inversion H; subst. constructor.
  apply cleanup_loop_result in L.
  rewrite rev_involutive, app_nil_r in L. subst ns.
  eapply for_nodes_related; [|exact F]. exact IH.
Qed.




(** ** Order of the recorded groups *)

Section Order.

Variable O : Oracles.
Variable minSubgraphSize_ : nat.

Local Abbreviation loop := (cleanup_loop O minSubgraphSize_).
Local Abbreviation kept rn :=
  (map (finalized O) (filter (survives O minSubgraphSize_) rn)).

Lemma cleanup_loop_acc rn : forall after d,
  loop rn after d
  = match loop rn after [] with
    | Some (ns, k) => Some (ns, d ++ k)
    | None => None
    end.
Proof.
  induction rn as [|n rest IH]; intros after d.
  - simpl. now rewrite app_nil_r.
  - rewrite !cleanup_loop_cons.
    destruct (is_group n); [|apply IH].
    destruct (subgraph n); [|reflexivity].
    destruct (reaches_min O minSubgraphSize_ 0 _); [|apply IH].
    rewrite IH. rewrite (IH _ ([] ++ [_])).
    destruct (loop rest _ []) as [[ns k]|]; [|reflexivity].
    simpl. now rewrite <- app_assoc.
Qed.

Lemma cleanup_loop_kept rn : forall after ns k,
  loop rn after [] = Some (ns, k) -> k = kept rn.
Proof.
  induction rn as [|n rest IH]; intros after ns k.
  - simpl. intro H. now inversion H.
  - rewrite cleanup_loop_cons. simpl. unfold survives at 1.
    destruct (is_group n) eqn:G; simpl; [|apply IH].
    destruct (subgraph n); [|discriminate].
    destruct (reaches_min O minSubgraphSize_ 0 _); [|apply IH].
    rewrite cleanup_loop_acc.
    destruct (loop rest _ []) as [[ns1 k1]|] eqn:E; [|discriminate].
    intro H. inversion H; subst. simpl. f_equal. eapply IH; eauto.
Qed.

Local Abbreviation cleanup := (cleanupSubgraphs O minSubgraphSize_).

Local Abbreviation ordered_block := (ordered_block O minSubgraphSize_).

Lemma for_blocks_ordered f (Hf : ordered_block f) bs : forall d bs' d',
  for_blocks f bs d = Some (bs', d') ->
  exists L, d' = d ++ L /\ diff_of_blocks O minSubgraphSize_ bs L.
Proof.
  induction bs as [|b rest IH]; simpl; intros d bs' d' H.
  - inversion H; subst. exists []. split; [now rewrite app_nil_r|constructor].
  - destruct (f b d) as [[b1 d1]|] eqn:Eb; try discriminate.
    destruct (for_blocks f rest d1) as [[r2 d2]|] eqn:Er; try discriminate.
    inversion H; subst.
    apply Hf in Eb. destruct Eb as (Lb & -> & Hb).
    apply IH in Er. destruct Er as (Lr & -> & Hr).
    exists (Lb ++ Lr). split; [now rewrite app_assoc|now constructor].
Qed.

Lemma for_nodes_ordered f (Hf : ordered_block f) ns : forall d ns' d',
  for_nodes f ns d = Some (ns', d') ->
  exists L, d' = d ++ L /\ diff_of_nodes O minSubgraphSize_ ns L.
Proof.
  induction ns as [|n rest IH]; simpl; intros d ns' d' H.
  - inversion H; subst. exists []. split; [now rewrite app_nil_r|constructor].
  - destruct (for_blocks f (blocks n) d) as [[bs d1]|] eqn:Eb; try discriminate.
    destruct (for_nodes f rest d1) as [[r2 d2]|] eqn:Er; try discriminate.
    inversion H; subst.
    apply (for_blocks_ordered Hf) in Eb. destruct Eb as (Lb & -> & Hb).
    apply IH in Er. destruct Er as (Lr & -> & Hr).
    exists (Lb ++ Lr). split; [now rewrite app_assoc|now constructor].
Qed.

Lemma cleanupSubgraphs_ordered fuel : ordered_block (cleanup fuel).
Proof.
  induction fuel as [|fuel IH]; intros b d b' d' H; simpl in H;
    try discriminate.
  rewrite cleanup_loop_acc in H.
  destruct (loop (rev (nodes b)) [] []) as [[ns k]|] eqn:L; try discriminate.
  destruct (for_nodes _ _ _) as [[ns' d2]|] eqn:F; try discriminate.
  inversion H; subst.
  pose proof (cleanup_loop_kept _ _ L) as Hk. subst k.
  apply (for_nodes_ordered IH) in F. destruct F as (Ln & -> & Hn).
  exists (kept (rev (nodes b)) ++ Ln). split; [now rewrite app_assoc|].
  apply diff_block with (ns := ns); assumption.
Qed.

End Order.

(** C10.  The list returned by [CreateAutodiffSubgraphs] is the one the
    cleanup records on the unfused graph, starting from the empty list; and
    whatever the cleanup appends for a block is ordered by [diff_of_block]:
    first the kept groups of the block in reverse positional order, then
    the groups of the child blocks of its nodes. *)
Theorem diff_nodes_order O info_of fuel graph threshold types g' types' diff_nodes :
  CreateAutodiffSubgraphs O info_of fuel graph threshold types
  = Some (g', types', diff_nodes) ->
  (exists b1 b2,
      buildupSubgraphs O threshold fuel graph = Some b1
      /\ unfuseAliasedOutputs O fuel b1 = Some b2
      /\ diff_of_block O threshold b2 diff_nodes)
  /\ (forall k b d b' d',
        cleanupSubgraphs O threshold k b d = Some (b', d') ->
        exists L, d' = d ++ L /\ diff_of_block O threshold b L).
Proof.
  intro H. split.
  - apply CreateAutodiffSubgraphs_cleanup in H.
    destruct H as (b1 & b2 & b3 & H1 & H2 & Hc & _).
    exists b1, b2. repeat split; try assumption.
    apply cleanupSubgraphs_ordered in Hc. destruct Hc as (L & -> & HL).
    exact HL.
  - intros k. apply cleanupSubgraphs_ordered.
Qed.

Lemma diff_nodes_order_witness :
  (exists b1 b2,
      buildupSubgraphs Reference.oracles 2 10 Scenario.tree = Some b1
      /\ unfuseAliasedOutputs Reference.oracles 10 b1 = Some b2
      /\ diff_of_block Reference.oracles 2 b2
           [Scenario.Gb; Scenario.Ga; Scenario.Gc])
  /\ (forall k b d b' d',
        cleanupSubgraphs Reference.oracles 2 k b d = Some (b', d') ->
        exists L, d' = d ++ L /\ diff_of_block Reference.oracles 2 b L).
Proof.
  apply (@diff_nodes_order Reference.oracles Scenario.no_info 10 Scenario.tree
           2 Scenario.untyped Scenario.tree_cleaned Scenario.untyped).
  vm_compute. reflexivity.
Defined.

(** ** Work blocks *)

Section WorkBlocks.

Variable O : Oracles.
Variable minSubgraphSize_ : nat.

Local Abbreviation scan := (scan_back O minSubgraphSize_).
Local Abbreviation cand := (candidates O).
Local Abbreviation pure ns := (Forall (fun n => hasSideEffects n = false) ns).

Lemma scan_back_acc rn : forall e c wl,
  scan rn e c wl = wl ++ scan rn e c [].
Proof.
  induction rn as [|n rest IH]; intros e c wl; simpl.
  - destruct (_ <=? _); simpl; now rewrite ?app_nil_r.
  - destruct (hasSideEffects n); [|apply IH].
    destruct (_ <=? _); [|apply IH].
    rewrite IH. rewrite (IH _ _ [_]). now rewrite app_assoc.
Qed.

Lemma candidates_cons n ns :
  cand (n :: ns) = b2n (shouldConsiderForMerge O n) + cand ns.
Proof.
  unfold candidates. simpl. now destruct (shouldConsiderForMerge O n).
Qed.

Lemma candidates_app l1 l2 : cand (l1 ++ l2) = cand l1 + cand l2.
Proof.
  unfold candidates. now rewrite filter_app, length_app.
Qed.

Lemma candidates_rev l : cand (rev l) = cand l.
Proof.
  induction l as [|n l IH]; [reflexivity|].
  simpl rev. rewrite candidates_app, IH, !candidates_cons.
  unfold candidates at 2. simpl. lia.
Qed.

(** Between two boundaries the scan only counts. *)
Lemma scan_back_pure rseg : forall rest e c wl,
  pure rseg ->
  scan (rseg ++ rest) e c wl = scan rest e (c + cand rseg) wl.
Proof.
  induction rseg as [|n rseg IH]; intros rest e c wl Hp; simpl.
  - unfold candidates. simpl. now rewrite Nat.add_0_r.
  - inversion Hp as [|? ? Hn Hrest]; subst. rewrite Hn.
    rewrite IH by assumption. rewrite candidates_cons. f_equal. lia.
Qed.

Lemma scan_back_boundary pre s seg e :
  hasSideEffects s = true -> pure seg ->
  scan (rev (pre ++ s :: seg)) e 0 []
  = (if minSubgraphSize_ <=? cand (s :: seg)
     then [(AtNode (nid s), e)] else [])
    ++ scan (rev pre) (AtNode (nid s)) 0 [].
Proof.
  intros Hs Hp. rewrite rev_app_distr. simpl rev. rewrite <- app_assoc.
  rewrite scan_back_pure by now apply Forall_rev.
  simpl. rewrite Hs. rewrite candidates_rev, candidates_cons.
  replace (cand seg + b2n (shouldConsiderForMerge O s))
    with (b2n (shouldConsiderForMerge O s) + cand seg) by lia.
  destruct (_ <=? _); [|reflexivity].
  now rewrite scan_back_acc.
Qed.

Lemma scan_back_flush seg e :
  pure seg ->
  scan (rev seg) e 0 []
  = if minSubgraphSize_ <=? cand seg then [(AtParam, e)] else [].
Proof.
  intro Hp. rewrite <- (app_nil_r (rev seg)).
  rewrite scan_back_pure by now apply Forall_rev.
  simpl. now rewrite candidates_rev.
Qed.

(** The sweep hands [it] to [scanNode] first and never hands it [begin]. *)
Lemma sweep_visits fuel : forall b begin it ch vis b' ch' vis',
  sweep O fuel b begin it ch vis = Some (b', ch', vis') ->
  exists more,
    vis' = more ++ vis
    /\ ~ In begin more
    /\ (it <> begin -> exists m, more = m ++ [it]).
Proof.
  induction fuel as [|fuel IH]; intros b begin it ch vis b' ch' vis' H;
    simpl in H; destruct (cursor_eqb it begin) eqn:E.
  - inversion H; subst. apply cursor_eqb_eq in E. subst.
    exists []. repeat split; auto. intro C. now elim C.
  - discriminate.
  - inversion H; subst. apply cursor_eqb_eq in E. subst.
    exists []. repeat split; auto. intro C. now elim C.
  - destruct (scanNode O b it) as [[[b1 it1] c1]|]; try discriminate.
    apply IH in H. destruct H as (more & -> & Hn & _).
    exists (more ++ [it]). rewrite <- app_assoc. repeat split; auto.
    + intro C. apply in_app_or in C. destruct C as [C|[C|[]]]; [auto|].
      subst. now rewrite cursor_eqb_refl in E.
    + intros _. now exists more.
Qed.

Lemma sweep_trace fuel : forall b begin it ch0 vis0 b' ch' vis',
  sweep O fuel b begin it ch0 vis0 = Some (b', ch', vis') ->
  exists trace ch,
    sweep_run O begin b it trace b' ch
    /\ vis' = rev trace ++ vis0 /\ ch' = ch0 || ch.
Proof.
  induction fuel as [|fuel IH]; intros b begin it ch0 vis0 b' ch' vis' H;
    simpl in H; destruct (cursor_eqb it begin) eqn:E.
  - inversion H; subst. apply cursor_eqb_eq in E. subst.
    exists [], false. split; [constructor|]. now rewrite orb_false_r.
  - discriminate.
  - inversion H; subst. apply cursor_eqb_eq in E. subst.
    exists [], false. split; [constructor|]. now rewrite orb_false_r.
  - destruct (scanNode O b it) as [[[b1 it1] c1]|] eqn:Sc; try discriminate.
    apply IH in H. destruct H as (trace & ch & R & -> & ->).
    exists (it :: trace), (c1 || ch). split; [|split].
    + econstructor; eauto. intros ->. now rewrite cursor_eqb_refl in E.
    + simpl. now rewrite <- app_assoc.
    + now rewrite orb_assoc.
Qed.

Lemma scanNode_steps_back b it b' it' :
  scanNode O b it = Some (b', it', false) ->
  exists it0,
    prev b' it0 = Some it'
    /\ (it0 = it
        \/ exists consumer,
            node_at b it = Some consumer
            /\ is_group consumer = false
            /\ shouldConsiderForMerge O consumer = true
            /\ it0 = AtNode (nid (snd (createSingletonSubgraphAndUpdateAliasing
                                         O b consumer)))).
Proof.
  unfold scanNode, ensure_group, step_back. intro H.
  destruct (node_at b it) as [consumer|]; [|discriminate].
  destruct (shouldConsiderForMerge O consumer) eqn:Sh.
  - destruct (is_group consumer) eqn:G; simpl in H.
    + destruct (try_inputs _ _ _ _) as [[b2 [g|]]|]; try discriminate.
      destruct (prev b2 it) as [q|] eqn:P; [|discriminate].
      inversion H; subst. exists it. split; [exact P|now left].
    + destruct (createSingletonSubgraphAndUpdateAliasing O b consumer)
        as [b1 g] eqn:W.
      simpl in H.
      destruct (try_inputs _ _ _ _) as [[b2 [g'|]]|]; try discriminate.
      change (prev_in (nid g) AtParam (nodes b2))
        with (prev b2 (AtNode (nid g))) in H.
      destruct (prev b2 (AtNode (nid g))) as [q|] eqn:P; [|discriminate].
      inversion H; subst. exists (AtNode (nid g)). split; [exact P|].
      right. exists consumer. rewrite W. auto.
  - destruct (prev b it) as [q|] eqn:P; [|discriminate].
    inversion H; subst. exists it. split; [exact P|now left].
Qed.

End WorkBlocks.

(** C4 (as amended).  Scanning backward, a side-effecting node [s] emits the
    work block [(s, end_bound)] exactly when the candidates counted since
    the previous boundary, [s] itself included, reach the minimum; the scan
    then continues with the count reset and [s] as the boundary.  At the
    parameter node the last work block is emitted under the same test.
    The sweep of a work block hands its end boundary to [scanNode] first
    and never its begin boundary; it goes on from the cursor each call of
    [scanNode] returns and ends exactly when that cursor is the begin
    boundary ([sweep_run]); and a call that reports no change returns the
    cursor just before the scanned node, or before the group that wraps
    it. *)
Theorem work_blocks_spec O minSubgraphSize_ :
  (forall pre s seg e,
      hasSideEffects s = true ->
      Forall (fun n => hasSideEffects n = false) seg ->
      scan_back O minSubgraphSize_ (rev (pre ++ s :: seg)) e 0 []
      = (if minSubgraphSize_ <=? candidates O (s :: seg)
         then [(AtNode (nid s), e)] else [])
        ++ scan_back O minSubgraphSize_ (rev pre) (AtNode (nid s)) 0 [])
  /\ (forall seg e,
        Forall (fun n => hasSideEffects n = false) seg ->
        scan_back O minSubgraphSize_ (rev seg) e 0 []
        = if minSubgraphSize_ <=? candidates O seg
          then [(AtParam, e)] else [])
  /\ (forall fuel b w b' ch vis,
        wb_begin w <> wb_end w ->
        sweep O fuel b (wb_begin w) (wb_end w) false [] = Some (b', ch, vis) ->
        (exists m, vis = m ++ [wb_end w]) /\ ~ In (wb_begin w) vis)
  /\ (forall fuel b w b' ch vis,
        sweep O fuel b (wb_begin w) (wb_end w) false [] = Some (b', ch, vis) ->
        sweep_run O (wb_begin w) b (wb_end w) (rev vis) b' ch)
  /\ (forall b it b' it',
        scanNode O b it = Some (b', it', false) ->
        exists it0,
          prev b' it0 = Some it'
          /\ (it0 = it
              \/ exists consumer,
                  node_at b it = Some consumer
                  /\ is_group consumer = false
                  /\ shouldConsiderForMerge O consumer = true
                  /\ it0 = AtNode
                             (nid (snd (createSingletonSubgraphAndUpdateAliasing
                                          O b consumer))))).
Proof.
  split; [|split; [|split; [|split]]].
  - intros. now apply scan_back_boundary.
  - intros. now apply scan_back_flush.
  - intros fuel b w b' ch vis Hne H.
    apply sweep_visits in H. destruct H as (more & -> & Hn & Hl).
    rewrite app_nil_r. split; [|assumption].
    apply Hl. congruence.
  - intros fuel b w b' ch vis H.
    apply sweep_trace in H. destruct H as (trace & c & R & -> & ->).
    now rewrite app_nil_r, rev_involutive.
  - intros b it b' it'. apply scanNode_steps_back.
Qed.

Lemma work_blocks_spec_witness :
  buildWorkBlocks Reference.oracles 2 Scenario.chain = [(AtNode 2, AtReturn)]
  /\ exists m,
      [AtNode 4; AtNode 4; AtReturn] = m ++ [AtReturn].
Proof.
  destruct (work_blocks_spec Reference.oracles 2) as (H1 & H2 & H3 & _).
  split.
  - unfold buildWorkBlocks.
    change (nodes Scenario.chain)
      with ([Scenario.A] ++ Scenario.B :: [Scenario.C; Scenario.D]).
    rewrite H1; [| reflexivity | repeat constructor].
    rewrite (H2 [Scenario.A]); [| repeat constructor].
    reflexivity.
  - refine (proj1 (H3 10 Scenario.chain (AtNode 2, AtReturn)
                      Scenario.chain_partitioned true _ _ _)).
    + simpl. discriminate.
    + vm_compute. reflexivity.
Defined.

(** C4 as stated fails: the sweep of the work block [(B, return)] of the
    sample chain hands the return node itself to [scanNode]. *)
Lemma sweep_visits_end_boundary :
  exists b' ch vis,
    In (AtNode 2, AtReturn) (buildWorkBlocks Reference.oracles 2 Scenario.chain)
    /\ sweep Reference.oracles 10 Scenario.chain (AtNode 2) AtReturn false []
       = Some (b', ch, vis)
    /\ ~ visits_only_interior (AtNode 2, AtReturn) vis.
Proof.
  exists Scenario.chain_partitioned, true,
         [AtNode 4; AtNode 4; AtReturn].
  split; [left; reflexivity|]. split; [vm_compute; reflexivity|].
  intro H. destruct (H AtReturn) as [_ Hend]; [simpl; tauto|].
  now apply Hend.
Qed.

(** ** Merging *)

Section Merging.

Variable O : Oracles.

Lemma shouldConsiderForMerge_unfold n :
  shouldConsiderForMerge O n
  = is_group n
    || (negb (kind_eqb (kind n) prim_Constant)
        && negb (isViewOp n)
        && isDifferentiable O n).
Proof.
  unfold shouldConsiderForMerge, is_group.
  destruct (kind_eqb (kind n) prim_DifferentiableGraph); [reflexivity|].
  destruct (kind_eqb (kind n) prim_Constant); [reflexivity|].
  now destruct (isViewOp n).
Qed.

Lemma shouldConsiderForMerge_iff n :
  shouldConsiderForMerge O n = true
  <-> kind n = prim_DifferentiableGraph
      \/ (kind n <> prim_Constant
          /\ ~ In (kind n)
                 [aten_view; aten_view_as; aten_reshape; aten_reshape_as;
                  aten_transpose; aten_expand; aten_expand_as]
          /\ isDifferentiable O n = true).
Proof.
  unfold shouldConsiderForMerge, isViewOp.
  destruct (kind n); simpl; split; intro H;
    match goal with
    | H : _ \/ _ |- _ =>
        destruct H as [H|(H1 & H2 & H3)];
        first [reflexivity | discriminate | exact H3
              | now elim H1 | elim H2; tauto]
    | _ =>
        first [discriminate | left; reflexivity
              | right; split; [discriminate|];
                split; [intuition discriminate|exact H]]
    end.
Qed.

Lemma tryMerge_success b consumer producer moved :
  is_group consumer = true ->
  shouldConsiderForMerge O producer = true ->
  moveBeforeTopologicallyValid O b producer consumer = Some moved ->
  tryMerge O b consumer producer
  = Some (mergeNodeIntoSubgraphAndUpdateAliasing O moved producer consumer,
          Some consumer).
Proof.
  intros G S M. unfold tryMerge. now rewrite G, S, M.
Qed.

Lemma tryMerge_refused b consumer producer :
  is_group consumer = true ->
  shouldConsiderForMerge O producer = false
  \/ moveBeforeTopologicallyValid O b producer consumer = None ->
  tryMerge O b consumer producer = Some (b, None).
Proof.
  intros G [S|M]; unfold tryMerge; rewrite G; simpl.
  - now rewrite S.
  - rewrite M. now destruct (shouldConsiderForMerge O producer).
Qed.

Lemma try_inputs_skip b consumer input rest i producer :
  producer_in b input = Some (i, producer) ->
  tryMerge O b consumer producer = Some (b, None) ->
  try_inputs O b consumer (input :: rest) = try_inputs O b consumer rest.
Proof.
  intros P T. simpl. now rewrite P, T.
Qed.

End Merging.

(** C5.  With [consumer] a group node: the producer passes the candidacy
    filter exactly when its kind is that of a group node, or its kind is
    neither the constant nor one of the seven view operations (view,
    view_as, reshape, reshape_as, transpose, expand, expand_as) and the
    differentiability oracle accepts it; [tryMerge] merges exactly when the producer
    passes the filter and the alias oracle grants the move; in every other
    case it returns the block untouched with no group and no error, and the
    loop over the inputs goes on with the next input. *)
Theorem tryMerge_spec O b consumer producer :
  is_group consumer = true ->
  (shouldConsiderForMerge O producer = true
   <-> kind producer = prim_DifferentiableGraph
       \/ (kind producer <> prim_Constant
           /\ ~ In (kind producer)
                  [aten_view; aten_view_as; aten_reshape; aten_reshape_as;
                   aten_transpose; aten_expand; aten_expand_as]
           /\ isDifferentiable O producer = true))
  /\ (forall moved,
        shouldConsiderForMerge O producer = true ->
        moveBeforeTopologicallyValid O b producer consumer = Some moved ->
        tryMerge O b consumer producer
        = Some (mergeNodeIntoSubgraphAndUpdateAliasing O moved producer consumer,
                Some consumer))
  /\ (shouldConsiderForMerge O producer = false
      \/ moveBeforeTopologicallyValid O b producer consumer = None ->
      tryMerge O b consumer producer = Some (b, None)
      /\ forall input rest i,
          producer_in b input = Some (i, producer) ->
          try_inputs O b consumer (input :: rest)
          = try_inputs O b consumer rest)
  /\ (forall b' g,
        tryMerge O b consumer producer = Some (b', Some g) ->
        shouldConsiderForMerge O producer = true
        /\ moveBeforeTopologicallyValid O b producer consumer <> None).
Proof.
  intro G. split; [apply shouldConsiderForMerge_iff|].
  split; [intros; now apply tryMerge_success|]. split.
  - intro H. pose proof (tryMerge_refused O b consumer producer G H) as T.
    split; [exact T|]. intros. eapply try_inputs_skip; eauto.
  - intros b' g H. unfold tryMerge in H. rewrite G in H. simpl in H.
    destruct (shouldConsiderForMerge O producer); [|discriminate].
    split; [reflexivity|].
    destruct (moveBeforeTopologicallyValid O b producer consumer);
      [discriminate|discriminate].
Qed.

Lemma tryMerge_spec_witness :
  tryMerge Reference.oracles Scenario.chain_partitioned Scenario.CD Scenario.B
  = Some (Scenario.chain_partitioned, None).
Proof.
  refine (proj1 (proj1 (proj2 (proj2
    (@tryMerge_spec Reference.oracles Scenario.chain_partitioned
                    Scenario.CD Scenario.B _))) _)).
  - reflexivity.
  - left. reflexivity.
Defined.

(** ** Producers and positions *)

Lemma existsb_eqb_In v l : existsb (Nat.eqb v) l = true <-> In v l.
Proof.
  rewrite existsb_exists. split.
  - intros (x & Hx & E). apply Nat.eqb_eq in E. now subst.
  - intro H. exists v. split; [exact H|apply Nat.eqb_refl].
Qed.

Lemma produces_In v n : produces v n = true <-> In v (outputs n).
Proof. apply existsb_eqb_In. Qed.

Lemma find_producer_some v ns : forall k i p,
  find_producer v k ns = Some (i, p) ->
  exists pre post,
    ns = pre ++ p :: post
    /\ In v (outputs p)
    /\ (forall q, In q pre -> ~ In v (outputs q))
    /\ i = k + length pre.
Proof.
  induction ns as [|n rest IH]; simpl; intros k i p H; [discriminate|].
  destruct (produces v n) eqn:E.
  - inversion H; subst. exists [], rest. simpl.
    split; [reflexivity|]. split; [now apply produces_In|].
    split; [intros q []|lia].
  - apply IH in H. destruct H as (pre & post & -> & Hin & Hpre & ->).
    exists (n :: pre), post. simpl. split; [reflexivity|].
    split; [exact Hin|]. split; [|lia].
    intros q [<-|Hq]; [|now apply Hpre].
    intro C. apply produces_In in C. congruence.
Qed.

Lemma find_producer_none v ns : forall k,
  find_producer v k ns = None <-> forall q, In q ns -> ~ In v (outputs q).
Proof.
  induction ns as [|n rest IH]; simpl; intro k.
  - split; [intros _ q []|reflexivity].
  - destruct (produces v n) eqn:E.
    + split; [discriminate|]. intro H. exfalso.
      apply (H n (or_introl eq_refl)). now apply produces_In.
    + rewrite IH. split.
      * intros H q [<-|Hq]; [|now apply H].
        intro C. apply produces_In in C. congruence.
      * intros H q Hq. apply H. now right.
Qed.

Lemma find_producer_first v pre p post : forall k,
  In v (outputs p) ->
  (forall q, In q pre -> ~ In v (outputs q)) ->
  find_producer v k (pre ++ p :: post) = Some (k + length pre, p).
Proof.
  induction pre as [|n pre IH]; simpl; intros k Hin Hpre.
  - apply produces_In in Hin. rewrite Hin. f_equal. f_equal. lia.
  - destruct (produces v n) eqn:E.
    + apply produces_In in E. now elim (Hpre n (or_introl eq_refl)).
    + rewrite IH; [f_equal; f_equal; lia|exact Hin|].
      intros q Hq. apply Hpre. now right.
Qed.

Lemma producer_in_at b v i p :
  producer_in b v = Some (i, p) -> produced_at b v i.
Proof.
  unfold producer_in.
  destruct (find_producer v 1 (nodes b)) as [[j q]|] eqn:F.
  - intro H. inversion H; subst. left.
    apply find_producer_some in F.
    destruct F as (pre & post & Hn & Hin & Hpre & ->).
    exists pre, p, post. auto.
  - destruct (existsb (Nat.eqb v) (block_params b)) eqn:E; [|discriminate].
    intro H. inversion H; subst. right.
    split; [now apply (find_producer_none v (nodes b) 1)|].
    split; [now apply existsb_eqb_In|reflexivity].
Qed.

Lemma produced_at_producer b v i :
  produced_at b v i -> exists p, producer_in b v = Some (i, p).
Proof.
  unfold producer_in.
  intros [(pre & p & post & Hn & Hin & Hpre & ->)|(Hno & Hp & ->)].
  - exists p. rewrite Hn, (@find_producer_first v pre p post 1 Hin Hpre).
    reflexivity.
  - exists (param_node b).
    rewrite (proj2 (find_producer_none v (nodes b) 1) Hno).
    now rewrite (proj2 (existsb_eqb_In v (block_params b)) Hp).
Qed.

Lemma produced_at_position b v i :
  produced_at b v i -> topo_position b v = i.
Proof.
  intro H. apply produced_at_producer in H. destruct H as [p H].
  unfold topo_position. now rewrite H.
Qed.

Lemma owned_here_at b v :
  owned_here b v = true <-> exists i, produced_at b v i.
Proof.
  unfold owned_here. split.
  - destruct (producer_in b v) as [[i p]|] eqn:E; [|discriminate].
    intros _. exists i. eapply producer_in_at; eauto.
  - intros [i H]. apply produced_at_producer in H. destruct H as [p H].
    now rewrite H.
Qed.

Lemma produced_here_at b v :
  produced_here b v <-> exists i, produced_at b v i.
Proof.
  split.
  - intro H. apply owned_here_at. unfold owned_here, producer_in.
    destruct (find_producer v 1 (nodes b)) as [r|] eqn:F; [reflexivity|].
    destruct H as [H|(p & Hp & Hv)].
    + now rewrite (proj2 (existsb_eqb_In v (block_params b)) H).
    + exfalso.
      exact (proj1 (find_producer_none v (nodes b) 1) F p Hp Hv).
  - intros [i [(pre & p & post & Hn & Hin & _ & _)|(_ & Hp & _)]].
    + right. exists p. split; [|exact Hin].
      rewrite Hn. apply in_or_app. right. now left.
    + now left.
Qed.

Lemma owned_here_iff b v : owned_here b v = true <-> produced_here b v.
Proof. rewrite owned_here_at. symmetry. apply produced_here_at. Qed.

Lemma later_first_produced b a c :
  later_first b a c -> produced_later_first b a c.
Proof.
  unfold later_first. intros H i j Ha Hc.
  apply produced_at_position in Ha, Hc. lia.
Qed.

Lemma Sorted_weaken {X} (R R' : X -> X -> Prop) l :
  (forall a c, R a c -> R' a c) -> Sorted R l -> Sorted R' l.
Proof.
  intros HR. induction 1 as [|a l _ IH Hd]; constructor; [exact IH|].
  destruct Hd; constructor. now apply HR.
Qed.

(** ** Scanning a node *)

Section Sorting.

Variable b : Block.

Lemma insert_sorted_perm v l : Permutation (insert_sorted b v l) (v :: l).
Proof.
  induction l as [|w l IH]; simpl; [reflexivity|].
  destruct (isAfter b w v); [|reflexivity].
  rewrite IH. apply perm_swap.
Qed.

Lemma sort_values_perm l : Permutation (sort_values b l) l.
Proof.
  induction l as [|v l IH]; simpl; [reflexivity|].
  rewrite insert_sorted_perm. now constructor.
Qed.

Lemma insert_sorted_hd v l a :
  later_first b a v -> HdRel (later_first b) a l ->
  HdRel (later_first b) a (insert_sorted b v l).
Proof.
  intros Hv Hl. destruct l as [|w l]; simpl; [now constructor|].
  destruct (isAfter b w v); constructor; auto. now inversion Hl.
Qed.

Lemma insert_sorted_sorted v l :
  Sorted (later_first b) l -> Sorted (later_first b) (insert_sorted b v l).
Proof.
  induction 1 as [|w l Hs IH Hhd]; simpl; [repeat constructor|].
  unfold isAfter. destruct (topo_position b v <? topo_position b w) eqn:E.
  - constructor; [exact IH|]. apply insert_sorted_hd; [|exact Hhd].
    apply Nat.ltb_lt in E. unfold later_first. lia.
  - constructor; [now constructor|]. constructor.
    apply Nat.ltb_ge in E. exact E.
Qed.

Lemma sort_values_sorted l : Sorted (later_first b) (sort_values b l).
Proof.
  induction l as [|v l IH]; simpl; [constructor|].
  now apply insert_sorted_sorted.
Qed.

End Sorting.

Section Scan.

Variable O : Oracles.

Lemma try_inputs_all_refused b group ins :
  Forall (refused O b group) ins ->
  try_inputs O b group ins = Some (b, None).
Proof.
  induction 1 as [|v l (i & p & P & T) _ IH]; simpl; [reflexivity|].
  now rewrite P, T.
Qed.

Lemma try_inputs_first b group tried input rest i producer b2 g :
  Forall (refused O b group) tried ->
  producer_in b input = Some (i, producer) ->
  tryMerge O b group producer = Some (b2, Some g) ->
  try_inputs O b group (tried ++ input :: rest) = Some (b2, Some g).
Proof.
  induction 1 as [|v l (j & p & P & T) _ IH]; simpl; intros Pi Ti.
  - now rewrite Pi, Ti.
  - rewrite P, T. now apply IH.
Qed.

End Scan.

(** C6.  On a node that is no merge candidate [scanNode] only steps back.
    On a candidate it first makes sure the node is a group (wrapping it
    into a singleton when it is not); the inputs it then tries are the
    group's inputs produced in this block, that is, listed among the
    outputs of a node of the block or among its parameters, each as often
    as it is an input; they are ordered by the position of the producing
    node in the block, a later-positioned producer first; at the first
    input whose merge succeeds it stops and returns the iterator of the
    group with the changed flag set; when every input is refused it steps
    back from the group without a change. *)
Theorem scanNode_spec O b it consumer :
  node_at b it = Some consumer ->
  (shouldConsiderForMerge O consumer = false ->
   scanNode O b it = step_back b it false)
  /\ (is_group consumer = true -> ensure_group O b consumer it = (b, consumer, it))
  /\ (is_group consumer = false ->
      ensure_group O b consumer it
      = (fst (createSingletonSubgraphAndUpdateAliasing O b consumer),
         snd (createSingletonSubgraphAndUpdateAliasing O b consumer),
         AtNode (nid (snd (createSingletonSubgraphAndUpdateAliasing O b consumer)))))
  /\ (shouldConsiderForMerge O consumer = true ->
      forall b1 group it1,
        ensure_group O b consumer it = (b1, group, it1) ->
        Permutation (sortReverseTopological b1 (inputs group))
                    (filter (owned_here b1) (inputs group))
        /\ (forall v, owned_here b1 v = true <-> produced_here b1 v)
        /\ (forall v, In v (sortReverseTopological b1 (inputs group))
                      <-> In v (inputs group) /\ produced_here b1 v)
        /\ Sorted (produced_later_first b1)
                  (sortReverseTopological b1 (inputs group))
        /\ (forall v, In v (sortReverseTopological b1 (inputs group)) ->
                      exists i, produced_at b1 v i
                                /\ forall j, produced_at b1 v j -> j = i)
        /\ (forall tried input rest i producer b2 g,
              sortReverseTopological b1 (inputs group) = tried ++ input :: rest ->
              Forall (refused O b1 group) tried ->
              producer_in b1 input = Some (i, producer) ->
              tryMerge O b1 group producer = Some (b2, Some g) ->
              g = group /\ scanNode O b it = Some (b2, AtNode (nid group), true))
        /\ (Forall (refused O b1 group)
                   (sortReverseTopological b1 (inputs group)) ->
            scanNode O b it = step_back b1 it1 false)).
Proof.
  intro N. split; [|split; [|split]].
  - intro S. unfold scanNode. now rewrite N, S.
  - intro G. unfold ensure_group. now rewrite G.
  - intro G. unfold ensure_group. rewrite G. simpl.
    now destruct (createSingletonSubgraphAndUpdateAliasing O b consumer).
  - intros S b1 group it1 E.
    pose proof (sort_values_perm b1 (filter (owned_here b1) (inputs group)))
      as P.
    assert (M : forall v, In v (sortReverseTopological b1 (inputs group))
                          <-> In v (inputs group) /\ produced_here b1 v).
    { intro v. rewrite <- owned_here_iff, <- filter_In.
      unfold sortReverseTopological. split.
      - apply (Permutation_in _ P).
      - apply (Permutation_in _ (Permutation_sym P)). }
    split; [exact P|].
    split; [intro v; apply owned_here_iff|].
    split; [exact M|].
    split; [eapply Sorted_weaken;
            [apply later_first_produced|apply sort_values_sorted]|].
    split.
    { intros v Hv. apply M in Hv. destruct Hv as [_ Hv].
      apply produced_here_at in Hv. destruct Hv as [i Hi].
      exists i. split; [exact Hi|]. intros j Hj.
      apply produced_at_position in Hi, Hj. congruence. }
    split.
    + intros tried input rest i producer b2 g Hs Hr Hp Ht.
      assert (g = group) as ->.
      { unfold tryMerge in Ht.
        destruct (negb (is_group group)); [discriminate|].
        destruct (shouldConsiderForMerge O producer); [|discriminate].
        destruct (moveBeforeTopologicallyValid O b1 producer group);
          now inversion Ht. }
      split; [reflexivity|].
      unfold scanNode. rewrite N, S, E, Hs.
      now rewrite (try_inputs_first input rest Hr Hp Ht).
    + intro Hr. unfold scanNode. rewrite N, S, E.
      now rewrite (try_inputs_all_refused Hr).
Qed.

Lemma scanNode_spec_witness :
  scanNode Reference.oracles Scenario.chain (AtNode 4)
  = Some (Scenario.chain_partitioned, AtNode 4, true).
Proof.
  pose proof (@scanNode_spec Reference.oracles Scenario.chain (AtNode 4)
                             Scenario.D eq_refl) as (_ & _ & _ & H).
  specialize (H eq_refl _ _ _ eq_refl).
  destruct H as (_ & _ & _ & _ & _ & H & _).
  exact (proj2 (H [] 13 [] 3 Scenario.C Scenario.chain_partitioned _
                  eq_refl (Forall_nil _) eq_refl eq_refl)).
Defined.

(** ** Gradient requirement flags *)

Section Propagator.

Variable info : ValueInfo.

Local Abbreviation silent := (fun u => flag_of_use info u = Some None).

Lemma flag_of_use_direct use r :
  is_profile (user use) = true ->
  getProfileNodeRequiresGrad (user use) = Some r ->
  flag_of_use info use = Some (Some r).
Proof. intros P G. unfold flag_of_use. now rewrite P, G. Qed.

Lemma flag_of_use_group use dg v :
  is_profile (user use) = false
  \/ getProfileNodeRequiresGrad (user use) = None ->
  is_group (user use) = true ->
  subgraph (user use) = Some dg ->
  nth_error (block_params dg) (offset use) = Some v ->
  flag_of_use info use = Some (search_dg_uses (uses info v)).
Proof.
  intros D G S N. unfold flag_of_use. rewrite G, S, N.
  destruct D as [D|D]; rewrite D; [reflexivity|].
  now destruct (is_profile (user use)).
Qed.

Lemma flag_of_use_other use :
  is_profile (user use) = false
  \/ getProfileNodeRequiresGrad (user use) = None ->
  is_group (user use) = false ->
  flag_of_use info use = Some None.
Proof.
  intros D G. unfold flag_of_use. rewrite G.
  destruct D as [D|D]; rewrite D; [reflexivity|].
  now destruct (is_profile (user use)).
Qed.

Lemma search_uses_first tried use rest r :
  Forall silent tried ->
  flag_of_use info use = Some (Some r) ->
  search_uses info (tried ++ use :: rest) = Some (Some r).
Proof.
  induction 1 as [|u l Hu _ IH]; simpl; intro F.
  - now rewrite F.
  - rewrite Hu. now apply IH.
Qed.

Lemma search_uses_none us :
  Forall silent us -> search_uses info us = Some None.
Proof.
  induction 1 as [|u l Hu _ IH]; simpl; [reflexivity|]. now rewrite Hu.
Qed.

Lemma flag_only_refl types : flag_only info types types.
Proof. intro v. now left. Qed.

Lemma flag_only_trans t0 t1 t2 :
  flag_only info t0 t1 -> flag_only info t1 t2 -> flag_only info t0 t2.
Proof.
  intros H01 H12 v.
  destruct (H12 v) as [E|(f & r & E1 & E2 & K)].
  - rewrite E. apply H01.
  - destruct (H01 v) as [E|(f' & r' & _ & E' & _)].
    + right. exists f, r. rewrite <- E. auto.
    + rewrite E' in E1. discriminate.
Qed.

Lemma setType_flag_only types output fields r :
  kind_eqb (producer_kind info output) prim_profile = false ->
  types output = TensorType None fields ->
  flag_only info types (setType types output (TensorType (Some r) fields)).
Proof.
  intros K T v. unfold setType. destruct (Nat.eqb v output) eqn:E.
  - apply Nat.eqb_eq in E. subst. right. exists fields, r. auto.
  - now left.
Qed.

Lemma outputs_loop_frame dg outs : forall i types types',
  outputs_loop info dg i outs types = Some types' ->
  flag_only info types types'
  /\ forall v, ~ In v outs -> types' v = types v.
Proof.
  induction outs as [|output rest IH]; simpl; intros i types types' H.
  - inversion H; subst. split; [apply flag_only_refl|reflexivity].
  - assert (Skip : outputs_loop info dg (S i) rest types = Some types' ->
                   flag_only info types types'
                   /\ forall v, ~ (output = v \/ In v rest) ->
                                types' v = types v).
    { intro H'. apply IH in H'. destruct H' as [F U]. split; [exact F|].
      intros v Hv. apply U. tauto. }
    destruct (kind_eqb (producer_kind info output) prim_profile) eqn:K;
      [now apply Skip|].
    destruct (types output) as [[flag|] fields|tag] eqn:T;
      [now apply Skip| |now apply Skip].
    destruct (nth_error (outputs dg) i) as [outer|]; [|discriminate].
    destruct (search_uses info (uses info outer)) as [[r|]|];
      [|now apply Skip|discriminate].
    apply IH in H. destruct H as [F U]. split.
    + eapply flag_only_trans; [|exact F]. now apply setType_flag_only.
    + intros v Hv. rewrite U by tauto. unfold setType.
      destruct (Nat.eqb v output) eqn:E; [|reflexivity].
      apply Nat.eqb_eq in E. subst. tauto.
Qed.

Lemma AddRequiresGradToDifferentiableGraph_frame dg types types' :
  AddRequiresGradToDifferentiableGraph info dg types = Some types' ->
  flag_only info types types'
  /\ forall v sg, subgraph dg = Some sg -> ~ In v (block_returns sg) ->
                  types' v = types v.
Proof.
  unfold AddRequiresGradToDifferentiableGraph. intro H.
  destruct (negb (is_group dg)); [discriminate|].
  destruct (subgraph dg) as [sg|]; [|discriminate].
  apply outputs_loop_frame in H. destruct H as [F U]. split; [exact F|].
  intros v sg' E. inversion E; subst. apply U.
Qed.

Lemma grad_blocks_flag_only f
      (Hf : forall b t t', f b t = Some t' -> flag_only info t t') bs :
  forall t t', grad_blocks f bs t = Some t' -> flag_only info t t'.
Proof.
  induction bs as [|b rest IH]; simpl; intros t t' H.
  - inversion H; subst. apply flag_only_refl.
  - destruct (f b t) as [t1|] eqn:E; [|discriminate].
    eapply flag_only_trans; eauto.
Qed.

Lemma grad_nodes_flag_only f
      (Hf : forall b t t', f b t = Some t' -> flag_only info t t') ns :
  forall t t', grad_nodes info f ns t = Some t' -> flag_only info t t'.
Proof.
  induction ns as [|n rest IH]; simpl; intros t t' H.
  - inversion H; subst. apply flag_only_refl.
  - destruct (if is_group n then _ else _) as [t1|] eqn:E1; [|discriminate].
    destruct (grad_blocks f (blocks n) t1) as [t2|] eqn:E2; [|discriminate].
    apply (@grad_blocks_flag_only f Hf) in E2. apply IH in H.
    assert (flag_only info t t1) as F1.
    { destruct (is_group n).
      - now apply AddRequiresGradToDifferentiableGraph_frame in E1.
      - inversion E1; subst. apply flag_only_refl. }
    eauto using flag_only_trans.
Qed.

Lemma AddRequiresGradOnOutputNodes_flag_only fuel : forall b t t',
  AddRequiresGradOnOutputNodes info fuel b t = Some t' -> flag_only info t t'.
Proof.
  induction fuel as [|fuel IH]; simpl; intros b t t' H; [discriminate|].
  eapply grad_nodes_flag_only; eauto.
Qed.

End Propagator.

Lemma search_dg_uses_first tried u rest r :
  Forall (fun d => is_profile (user d) = false
                   \/ getProfileNodeRequiresGrad (user d) = None) tried ->
  is_profile (user u) = true ->
  getProfileNodeRequiresGrad (user u) = Some r ->
  search_dg_uses (tried ++ u :: rest) = Some r.
Proof.
  intros Ht Hp Hr. induction Ht as [|d tried [Hd|Hd] _ IH]; simpl.
  - now rewrite Hp, Hr.
  - now rewrite Hd.
  - rewrite Hd. now destruct (is_profile (user d)).
Qed.

Lemma search_dg_uses_none us :
  Forall (fun d => is_profile (user d) = false
                   \/ getProfileNodeRequiresGrad (user d) = None) us ->
  search_dg_uses us = None.
Proof.
  induction 1 as [|d us [Hd|Hd] _ IH]; simpl; [reflexivity| |].
  - now rewrite Hd.
  - rewrite Hd. now destruct (is_profile (user d)).
Qed.

Lemma outputs_loop_at info dg outs : forall i types types',
  outputs_loop info dg i outs types = Some types' ->
  NoDup outs ->
  forall k output outer fields,
    nth_error outs k = Some output ->
    nth_error (outputs dg) (i + k) = Some outer ->
    kind_eqb (producer_kind info output) prim_profile = false ->
    types output = TensorType None fields ->
    types' output
    = match search_uses info (uses info outer) with
      | Some (Some r) => TensorType (Some r) fields
      | _ => TensorType None fields
      end.
Proof.
  induction outs as [|h rest IH]; intros i types types' H ND k output outer
    fields Hk Ho K T; [destruct k; discriminate|].
  inversion ND as [|? ? Hnotin ND']; subst.
  destruct k as [|k]; simpl in Hk.
  - inversion Hk; subst h. rewrite Nat.add_0_r in Ho.
    simpl in H. rewrite K, T, Ho in H.
    destruct (search_uses info (uses info outer)) as [[r|]|];
      [| |discriminate];
      apply outputs_loop_frame in H; destruct H as [_ U];
      rewrite (U output Hnotin); [|exact T].
    unfold setType. now rewrite Nat.eqb_refl.
  - assert (Hne : (output =? h) = false).
    { apply Nat.eqb_neq. intros ->. apply Hnotin.
      eapply nth_error_In; eauto. }
    assert (Step : forall types1,
               types1 output = types output ->
               outputs_loop info dg (S i) rest types1 = Some types' ->
               types' output
               = match search_uses info (uses info outer) with
                 | Some (Some r) => TensorType (Some r) fields
                 | _ => TensorType None fields
                 end).
    { intros types1 E H1.
      eapply (IH (S i) types1 types' H1 ND' k); eauto.
      - now replace (S i + k) with (i + S k) by lia.
      - now rewrite E. }
    simpl in H.
    destruct (kind_eqb (producer_kind info h) prim_profile);
      [now apply (Step types)|].
    destruct (types h) as [[flag|] fields'|tag];
      [now apply (Step types)| |now apply (Step types)].
    destruct (nth_error (outputs dg) i) as [outer'|]; [|discriminate].
    destruct (search_uses info (uses info outer')) as [[r|]|];
      [|now apply (Step types)|discriminate].
    eapply Step; [|exact H]. unfold setType. now rewrite Hne.
Qed.

(** C3 (as amended).  The uses of the outer output are inspected once, in
    order; each use yields the flag of its profiling user when that node
    carries one, and otherwise, when the user is a group node, the first
    flag among the profiling users of the matching subgraph input (one
    level deep, in use order, [None] when there is none).  The first use
    that yields a flag ends the search and that flag is written to the type
    of the subgraph output; when no use yields one the type is left as it
    was and the loop goes on normally.  A subgraph output produced by a
    profiling node is skipped.  For a group whose subgraph outputs are
    pairwise distinct, the type the propagator leaves at a flagless tensor
    output not produced by a profiling node is its type with the flag the
    search found, or its type unchanged when the search found none. *)
Theorem requires_grad_search info :
  (forall use r,
      is_profile (user use) = true ->
      getProfileNodeRequiresGrad (user use) = Some r ->
      flag_of_use info use = Some (Some r))
  /\ (forall use dg v,
        is_profile (user use) = false
        \/ getProfileNodeRequiresGrad (user use) = None ->
        is_group (user use) = true ->
        subgraph (user use) = Some dg ->
        nth_error (block_params dg) (offset use) = Some v ->
        flag_of_use info use = Some (search_dg_uses (uses info v)))
  /\ (forall use,
        is_profile (user use) = false
        \/ getProfileNodeRequiresGrad (user use) = None ->
        is_group (user use) = false ->
        flag_of_use info use = Some None)
  /\ (forall tried use rest r,
        Forall (fun u => flag_of_use info u = Some None) tried ->
        flag_of_use info use = Some (Some r) ->
        search_uses info (tried ++ use :: rest) = Some (Some r))
  /\ (forall us,
        Forall (fun u => flag_of_use info u = Some None) us ->
        search_uses info us = Some None)
  /\ (forall dg i output rest types fields outer,
        kind_eqb (producer_kind info output) prim_profile = false ->
        types output = TensorType None fields ->
        nth_error (outputs dg) i = Some outer ->
        (forall r,
            search_uses info (uses info outer) = Some (Some r) ->
            outputs_loop info dg i (output :: rest) types
            = outputs_loop info dg (S i) rest
                (setType types output (TensorType (Some r) fields)))
        /\ (search_uses info (uses info outer) = Some None ->
            outputs_loop info dg i (output :: rest) types
            = outputs_loop info dg (S i) rest types))
  /\ (forall tried u rest r,
        Forall (fun d => is_profile (user d) = false
                         \/ getProfileNodeRequiresGrad (user d) = None)
               tried ->
        is_profile (user u) = true ->
        getProfileNodeRequiresGrad (user u) = Some r ->
        search_dg_uses (tried ++ u :: rest) = Some r)
  /\ (forall us,
        Forall (fun d => is_profile (user d) = false
                         \/ getProfileNodeRequiresGrad (user d) = None) us ->
        search_dg_uses us = None)
  /\ (forall dg i output rest types,
        kind_eqb (producer_kind info output) prim_profile = true ->
        outputs_loop info dg i (output :: rest) types
        = outputs_loop info dg (S i) rest types)
  /\ (forall dg sg types types' i output outer fields,
        subgraph dg = Some sg ->
        NoDup (block_returns sg) ->
        AddRequiresGradToDifferentiableGraph info dg types = Some types' ->
        nth_error (block_returns sg) i = Some output ->
        nth_error (outputs dg) i = Some outer ->
        kind_eqb (producer_kind info output) prim_profile = false ->
        types output = TensorType None fields ->
        types' output
        = match search_uses info (uses info outer) with
          | Some (Some r) => TensorType (Some r) fields
          | _ => TensorType None fields
          end).
Proof.
  split; [exact (@flag_of_use_direct info)|].
  split; [exact (@flag_of_use_group info)|].
  split; [exact (@flag_of_use_other info)|].
  split; [exact (@search_uses_first info)|].
  split; [exact (@search_uses_none info)|].
  split.
  { intros dg i output rest types fields outer K T N.
    split; [intros r S|intros S]; simpl; now rewrite K, T, N, S. }
  split; [exact search_dg_uses_first|].
  split; [exact search_dg_uses_none|].
  split; [intros dg i output rest types K; simpl; now rewrite K|].
  intros dg sg types types' i output outer fields Sg ND H Hi Ho K T.
  unfold AddRequiresGradToDifferentiableGraph in H.
  destruct (negb (is_group dg)); [discriminate|]. rewrite Sg in H.
  exact (@outputs_loop_at info dg _ 0 types types' H ND i output outer
           fields Hi Ho K T).
Qed.

Lemma requires_grad_search_witness :
  search_uses Scenario.flag_info
              ([] ++ mkUse Scenario.G2 0 :: [mkUse Scenario.P 0])
  = Some (Some true).
Proof.
  destruct (requires_grad_search Scenario.flag_info)
    as (_ & Hgroup & _ & Hfirst & _).
  apply Hfirst; [constructor|].
  rewrite (Hgroup (mkUse Scenario.G2 0) ([50], [Scenario.Pin], [51]) 50);
    [reflexivity | left; reflexivity | reflexivity | reflexivity
     | reflexivity].
Defined.

(** C3 as stated fails.  With the uses [G2; P] of the sample, the direct
    profiling user [P] says no gradient is required, yet the flag found
    through the group [G2], which comes first, is the one applied.  And the
    output of [G3], a flagless tensor produced by a profiling node, keeps
    its type although the same search over the uses of its outer value
    yields a flag. *)
Lemma search_is_not_two_phase :
  search_uses Scenario.flag_info (uses Scenario.flag_info 21)
  <> Some (two_phase_search Scenario.flag_info (uses Scenario.flag_info 21))
  /\ two_phase_search Scenario.flag_info (uses Scenario.flag_info 21)
     = Some false
  /\ search_uses Scenario.flag_info (uses Scenario.flag_info 21)
     = Some (Some true)
  /\ (exists types',
        AddRequiresGradToDifferentiableGraph Scenario.flag_info Scenario.G1
                                             Scenario.flag_types
        = Some types'
        /\ types' 20 = TensorType (Some true) 0)
  /\ search_uses Scenario.profiled_info (uses Scenario.profiled_info 21)
     = Some (Some true)
  /\ Scenario.flag_types 20 = TensorType None 0
  /\ AddRequiresGradToDifferentiableGraph Scenario.profiled_info Scenario.G3
                                          Scenario.flag_types
     = Some Scenario.flag_types.
Proof.
  split; [vm_compute; discriminate|].
  split; [reflexivity|]. split; [reflexivity|].
  split; [eexists; split; reflexivity|].
  split; [reflexivity|]. split; reflexivity.
Qed.

(** C9.  Whatever [AddRequiresGradToDifferentiableGraph] and the whole
    propagator pass return, the type of every value is either what it was
    or the same tensor type with the missing flag filled in, and then the
    value is not produced by a profiling node; values outside the outputs
    of the group's subgraph keep their type; so do values produced by a
    profiling node, values that are not tensors and values already
    flagged. *)
Theorem propagator_frame info dg types types' :
  AddRequiresGradToDifferentiableGraph info dg types = Some types' ->
  flag_only info types types'
  /\ (forall v sg, subgraph dg = Some sg -> ~ In v (block_returns sg) ->
                   types' v = types v)
  /\ (forall v,
        kind_eqb (producer_kind info v) prim_profile = true
        \/ (exists tag, types v = OtherType tag)
        \/ (exists r fields, types v = TensorType (Some r) fields) ->
        types' v = types v)
  /\ (forall fuel block t t',
        AddRequiresGradOnOutputNodes info fuel block t = Some t' ->
        flag_only info t t').
Proof.
  intro H. apply AddRequiresGradToDifferentiableGraph_frame in H.
  destruct H as [F U]. split; [exact F|]. split; [exact U|]. split.
  - intros v Hv. destruct (F v) as [E|(f & r & E1 & _ & K)]; [exact E|].
    destruct Hv as [Hv|[[tag Hv]|(r' & f' & Hv)]]; congruence.
  - intros fuel. apply AddRequiresGradOnOutputNodes_flag_only.
Qed.

Lemma propagator_frame_witness :
  flag_only Scenario.flag_info Scenario.flag_types
            (setType Scenario.flag_types 20 (TensorType (Some true) 0)).
Proof.
  exact (proj1 (@propagator_frame Scenario.flag_info Scenario.G1
                  Scenario.flag_types _ eq_refl)).
Defined.

(** ** Positions in a block *)

Section Positions.

Lemma index_of_split id ns k :
  index_of id ns = Some k ->
  exists pre n post,
    ns = pre ++ n :: post /\ nid n = id /\ length pre = k
    /\ find_node id pre = None.
Proof.
  revert k. induction ns as [|m rest IH]; simpl; intros k H; [discriminate|].
  destruct (Nat.eqb (nid m) id) eqn:E.
  - inversion H; subst. apply Nat.eqb_eq in E.
    exists [], m, rest. repeat split; auto.
  - destruct (index_of id rest) as [k'|]; [|discriminate].
    inversion H; subst. destruct (IH k' eq_refl) as (pre & n & post & -> & Hn & Hl & Hf).
    exists (m :: pre), n, post. simpl. rewrite E. repeat split; auto.
Qed.

Lemma index_of_at pre n post :
  find_node (nid n) pre = None ->
  index_of (nid n) (pre ++ n :: post) = Some (length pre).
Proof.
  induction pre as [|m pre IH]; simpl; intro H.
  - now rewrite Nat.eqb_refl.
  - destruct (Nat.eqb (nid m) (nid n)); [discriminate|].
    now rewrite IH.
Qed.

Lemma find_node_at pre n post :
  find_node (nid n) pre = None ->
  find_node (nid n) (pre ++ n :: post) = Some n.
Proof.
  induction pre as [|m pre IH]; simpl; intro H.
  - now rewrite Nat.eqb_refl.
  - destruct (Nat.eqb (nid m) (nid n)); [discriminate|]. now apply IH.
Qed.

Lemma find_node_nid id ns n : find_node id ns = Some n -> nid n = id.
Proof.
  induction ns as [|m rest IH]; simpl; [discriminate|].
  destruct (Nat.eqb (nid m) id) eqn:E; [|exact IH].
  intro H. inversion H; subst. now apply Nat.eqb_eq.
Qed.

Lemma find_node_none_notin id ns :
  NoDup (map nid (ns)) -> forall pre n post,
  ns = pre ++ n :: post -> nid n = id -> find_node id pre = None.
Proof.
  intros ND pre n post -> <-.
  rewrite map_app in ND. simpl in ND. apply NoDup_remove_2 in ND.
  induction pre as [|m pre IH]; simpl; [reflexivity|].
  destruct (Nat.eqb (nid m) (nid n)) eqn:E.
  - apply Nat.eqb_eq in E. exfalso. apply ND. simpl. now left.
  - apply IH. intro C. apply ND. simpl. now right.
Qed.

Lemma index_of_find id ns k :
  index_of id ns = Some k -> exists n, find_node id ns = Some n.
Proof.
  intro H. apply index_of_split in H.
  destruct H as (pre & n & post & -> & <- & _ & Hf).
  exists n. now apply find_node_at.
Qed.

Lemma find_index_of id ns n :
  find_node id ns = Some n -> exists k, index_of id ns = Some k.
Proof.
  induction ns as [|m rest IH]; simpl; [discriminate|].
  destruct (Nat.eqb (nid m) id); [now exists 0|].
  intro H. destruct (IH H) as [k ->]. now exists (S k).
Qed.

Lemma index_of_ids id ns ns' :
  map nid ns = map nid ns' -> index_of id ns = index_of id ns'.
Proof.
  revert ns'. induction ns as [|m rest IH]; intros [|m' rest'] H;
    try discriminate; [reflexivity|].
  simpl in *. inversion H as [[Hm Hr]]. rewrite Hm. now rewrite (IH _ Hr).
Qed.

Lemma prev_in_ids id c ns ns' :
  map nid ns = map nid ns' -> prev_in id c ns = prev_in id c ns'.
Proof.
  revert c ns'. induction ns as [|m rest IH]; intros c [|m' rest'] H;
    try discriminate; [reflexivity|].
  simpl in *. inversion H as [[Hm Hr]]. rewrite Hm. now rewrite (IH _ _ Hr).
Qed.

Lemma last_cursor_ids ns ns' :
  map nid ns = map nid ns' -> last_cursor ns = last_cursor ns'.
Proof.
  intro H. unfold last_cursor.
  assert (map nid (rev ns) = map nid (rev ns')) as R
      by now rewrite !map_rev, H.
  destruct (rev ns), (rev ns'); try discriminate; [reflexivity|].
  now inversion R.
Qed.

Lemma idx_ids b b' c : ids b = ids b' -> idx b c = idx b' c.
Proof.
  intro H. destruct c; simpl; [reflexivity| |].
  - now rewrite (index_of_ids _ _ _ H).
  - f_equal. f_equal. unfold ids in H.
    now rewrite <- (length_map nid (nodes b)), H, length_map.
Qed.

Lemma prev_ids b b' c : ids b = ids b' -> prev b c = prev b' c.
Proof.
  intro H. destruct c; simpl; [reflexivity| |].
  - now apply prev_in_ids.
  - f_equal. now apply last_cursor_ids.
Qed.

Lemma prev_in_at pre n post c :
  find_node (nid n) pre = None ->
  prev_in (nid n) c (pre ++ n :: post)
  = Some (match rev pre with [] => c | m :: _ => AtNode (nid m) end).
Proof.
  revert c. induction pre as [|m pre IH]; simpl; intros c H.
  - now rewrite Nat.eqb_refl.
  - destruct (Nat.eqb (nid m) (nid n)); [discriminate|].
    rewrite IH by assumption. f_equal.
    destruct (rev pre) eqn:R; simpl; reflexivity.
Qed.

Lemma index_of_nth id ns : forall k,
  index_of id ns = Some k -> exists n, nth_error ns k = Some n /\ nid n = id.
Proof.
  induction ns as [|m rest IH]; simpl; intros k H; [discriminate|].
  destruct (Nat.eqb (nid m) id) eqn:E.
  - inversion H; subst. exists m. split; [reflexivity|now apply Nat.eqb_eq].
  - destruct (index_of id rest) as [k'|]; [|discriminate].
    inversion H; subst. now apply IH.
Qed.

Lemma idx_inj b x y k : idx b x = Some k -> idx b y = Some k -> x = y.
Proof.
  destruct x as [|a|], y as [|c|]; simpl; intros Hx Hy;
    try reflexivity; try congruence;
    try (destruct (index_of _ _); simpl in *; congruence).
  - destruct (index_of a (nodes b)) as [ka|] eqn:Ea; [|discriminate].
    destruct (index_of c (nodes b)) as [kc|] eqn:Ec; [|discriminate].
    simpl in *. assert (ka = kc) by congruence. subst.
    apply index_of_nth in Ea. apply index_of_nth in Ec.
    destruct Ea as (n & Hn & <-). destruct Ec as (n' & Hn' & <-).
    congruence.
  - destruct (index_of a (nodes b)) as [ka|] eqn:Ea; [|discriminate].
    simpl in Hx. apply index_of_nth in Ea. destruct Ea as (n & Hn & _).
    assert (ka < length (nodes b)) by (apply nth_error_Some; congruence).
    inversion Hx. inversion Hy. lia.
  - destruct (index_of c (nodes b)) as [kc|] eqn:Ec; [|discriminate].
    simpl in Hy. apply index_of_nth in Ec. destruct Ec as (n & Hn & _).
    assert (kc < length (nodes b)) by (apply nth_error_Some; congruence).
    inversion Hx. inversion Hy. lia.
Qed.

Lemma rev_cons_inv {A} (l : list A) m r : rev l = m :: r -> l = rev r ++ [m].
Proof.
  intro H. rewrite <- (rev_involutive l), H. reflexivity.
Qed.

Lemma prev_idx b y k :
  NoDup (ids b) -> idx b y = Some (S k) ->
  exists p, prev b y = Some p /\ idx b p = Some k.
Proof.
  intros ND H. destruct y as [|id|]; simpl in *; [discriminate| |].
  - destruct (index_of id (nodes b)) as [k'|] eqn:E; [|discriminate].
    inversion H; subst. apply index_of_split in E.
    destruct E as (pre & n & post & Hns & <- & Hl & Hf).
    rewrite Hns, prev_in_at by assumption.
    destruct (rev pre) as [|m r] eqn:R.
    + exists AtParam. split; [reflexivity|].
      assert (pre = []) by (now rewrite <- (rev_involutive pre), R). now subst.
    + exists (AtNode (nid m)). split; [reflexivity|]. simpl.
      apply rev_cons_inv in R. subst pre. rewrite Hns, <- app_assoc. simpl.
      rewrite index_of_at.
      * rewrite length_app in Hl. simpl in *. f_equal. lia.
      * eapply find_node_none_notin; [exact ND| |reflexivity].
        unfold ids in *. rewrite Hns, <- app_assoc. reflexivity.
  - inversion H; subst. unfold last_cursor.
    destruct (rev (nodes b)) as [|m r] eqn:R.
    + exists AtParam. split; [reflexivity|].
      assert (nodes b = []) as -> by (now rewrite <- (rev_involutive (nodes b)), R).
      reflexivity.
    + exists (AtNode (nid m)). split; [reflexivity|]. simpl.
      apply rev_cons_inv in R. rewrite R. rewrite index_of_at.
      * simpl. rewrite length_app. simpl. f_equal. lia.
      * eapply find_node_none_notin; [exact ND| |reflexivity].
        unfold ids. now rewrite R.
Qed.

End Positions.

(** ** Termination of the merge loop *)

Section Termination.

Variable O : Oracles.
Hypothesis K : MergeContract O.

Lemma find_node_app id l1 l2 :
  find_node id (l1 ++ l2)
  = match find_node id l1 with
    | Some n => Some n
    | None => find_node id l2
    end.
Proof.
  induction l1 as [|m l1 IH]; simpl; [reflexivity|].
  now destruct (Nat.eqb (nid m) id).
Qed.

Lemma at_or_before_ids b b' x y :
  ids b = ids b' -> at_or_before b x y -> at_or_before b' x y.
Proof.
  intros E (i & j & Hi & Hj & Hij). exists i, j.
  rewrite <- !(@idx_ids b b' _ E). auto.
Qed.

Lemma try_inputs_cases b g ins :
  is_group g = true ->
  Forall (fun v => owned_here b v = true) ins ->
  try_inputs O b g ins = Some (b, None)
  \/ exists p moved,
      shouldConsiderForMerge O p = true
      /\ moveBeforeTopologicallyValid O b p g = Some moved
      /\ try_inputs O b g ins
         = Some (mergeNodeIntoSubgraphAndUpdateAliasing O moved p g, Some g).
Proof.
  intros G. induction 1 as [|v l Hv _ IH]; simpl; [now left|].
  unfold owned_here in Hv.
  destruct (producer_in b v) as [[i p]|]; [|discriminate].
  unfold tryMerge. rewrite G. simpl.
  destruct (shouldConsiderForMerge O p) eqn:S; [|exact IH].
  destruct (moveBeforeTopologicallyValid O b p g) as [moved|] eqn:M;
    [|exact IH].
  right. exists p, moved. auto.
Qed.

Lemma sorted_inputs_owned b l :
  Forall (fun v => owned_here b v = true) (sortReverseTopological b l).
Proof.
  apply Forall_forall. intros v Hv.
  apply (Permutation_in _ (sort_values_perm b _)) in Hv.
  now apply filter_In in Hv.
Qed.

Lemma find_node_In id ns n : find_node id ns = Some n -> In n ns.
Proof.
  induction ns as [|m rest IH]; simpl; [discriminate|].
  destruct (Nat.eqb (nid m) id).
  - intro H. inversion H. now left.
  - intro H. right. now apply IH.
Qed.

(** A candidate in the block, once it is a group for sure. *)
Lemma ensure_group_ok b id consumer :
  well_formed O b ->
  find_node id (nodes b) = Some consumer ->
  shouldConsiderForMerge O consumer = true ->
  exists bw g,
    ensure_group O b consumer (AtNode id) = (bw, g, AtNode id)
    /\ is_group g = true /\ nid g = id
    /\ ids bw = ids b
    /\ well_formed O bw
    /\ find_node id (nodes bw) = Some g
    /\ (forall x, is_boundary b x -> is_boundary bw x).
Proof.
  intros WF F Sc. pose proof (find_node_nid _ _ F) as Hid.
  pose proof (proj2 WF _ (find_node_In _ _ F) Sc) as Hpure.
  unfold ensure_group. destruct (is_group consumer) eqn:G; simpl.
  - exists b, consumer. repeat split; auto; apply WF.
  - destruct (createSingletonSubgraphAndUpdateAliasing O b consumer)
      as [bw g] eqn:W.
    rewrite <- Hid in F.
    destruct (@wrap_in_place O K _ _ _ _ F W)
      as (Gg & Hg & Eg & pre & post & Hb & Hbw & Hpre).
    exists bw, g. rewrite Hg, Hid. subst id.
    assert (ids bw = ids b) as Hids.
    { unfold ids. rewrite Hb, Hbw, !map_app. simpl. now rewrite Hg. }
    split; [reflexivity|]. split; [exact Gg|]. split; [reflexivity|].
    split; [exact Hids|]. split; [|split].
    + split; [rewrite Hids; apply WF|].
      intros n Hn Hc. rewrite Hbw in Hn. apply in_app_or in Hn.
      destruct Hn as [Hn|[<-|Hn]]; [|exact Eg|];
        apply (proj2 WF); auto; rewrite Hb; apply in_or_app;
        [now left|right; now right].
    + rewrite Hbw, <- Hg. apply find_node_at. now rewrite Hg.
    + intros [|x|]; simpl; auto. intros (s & Hs & He).
      rewrite Hb, find_node_app in Hs. rewrite Hbw, find_node_app.
      destruct (find_node x pre) as [s'|]; [now exists s|].
      simpl in *. rewrite Hg.
      destruct (Nat.eqb (nid consumer) x); [|now exists s].
      inversion Hs; subst. rewrite Hpure in He. discriminate.
Qed.

Lemma keeps_boundaries_refl b : keeps_boundaries b b.
Proof. split; auto. Qed.

Lemma keeps_boundaries_trans b0 b1 b2 :
  keeps_boundaries b0 b1 -> keeps_boundaries b1 b2 -> keeps_boundaries b0 b2.
Proof. intros [A1 A2] [B1 B2]. split; auto. Qed.

Lemma step_back_ok b it j :
  NoDup (ids b) -> idx b it = Some (S j) ->
  exists p, step_back b it false = Some (b, p, false) /\ idx b p = Some j.
Proof.
  intros ND H. destruct (@prev_idx b it j ND H) as (p & Hp & Hi).
  exists p. unfold step_back. now rewrite Hp.
Qed.

(** One call of [scanNode] strictly after [begin]: either no merge, and the
    iterator moves one position back in a block with the same identities;
    or a merge, and the block has lost a node while [begin] is still at or
    before the iterator. *)
Lemma scanNode_progress b begin it i j :
  well_formed O b -> is_boundary b begin ->
  idx b begin = Some i -> idx b it = Some (S j) -> i <= j ->
  exists b1 it1 c1,
    scanNode O b it = Some (b1, it1, c1)
    /\ well_formed O b1 /\ keeps_boundaries b b1
    /\ ((c1 = false /\ ids b1 = ids b /\ idx b1 it1 = Some j)
        \/ (c1 = true /\ length (nodes b1) < length (nodes b)
            /\ at_or_before b1 begin it1)).
Proof.
  intros WF Bb Hi Hj Hij.
  assert (Back : forall bw, ids bw = ids b -> well_formed O bw ->
            (forall x, is_boundary b x -> is_boundary bw x) ->
            exists p, step_back bw it false = Some (bw, p, false)
                      /\ well_formed O bw /\ keeps_boundaries b bw
                      /\ ids bw = ids b /\ idx bw p = Some j).
  { intros bw E WFw Hb.
    pose proof (proj1 WFw) as NDw.
    rewrite <- (@idx_ids bw b it E) in Hj.
    destruct (@step_back_ok bw it j NDw Hj) as (p & Hp & Hp').
    exists p. split; [exact Hp|]. split; [exact WFw|].
    split; [|split; [exact E|exact Hp']]. split; [exact Hb|].
    intros x y _ _. apply at_or_before_ids. now symmetry. }
  unfold scanNode. destruct it as [|id|]; simpl in Hj.
  - discriminate.
  - destruct (index_of id (nodes b)) as [k|] eqn:Ek; [|discriminate].
    destruct (@index_of_find _ _ _ Ek) as [consumer F].
    simpl. rewrite F.
    destruct (shouldConsiderForMerge O consumer) eqn:Sc.
    + destruct (@ensure_group_ok _ _ _ WF F Sc)
        as (bw & g & -> & Gg & Hg & Hids & WFw & Fg & Hb).
      destruct (@try_inputs_cases bw g _ Gg (sorted_inputs_owned bw (inputs g)))
        as [T|(p & moved & Sp & M & T)]; rewrite T.
      * destruct (Back bw Hids WFw Hb) as (q & Hq & A & B & C & D).
        exists bw, q, false. rewrite Hq.
        split; [reflexivity|]. split; [exact A|]. split; [exact B|]. left. auto.
      * rewrite <- Hg in Fg.
        destruct (@merge_shrinks O K _ _ _ _ WFw Sp Gg Fg M)
          as (Hlen & Hnd & Hbd & Hord).
        set (b2 := mergeNodeIntoSubgraphAndUpdateAliasing O moved p g) in *.
        assert (length (nodes bw) = length (nodes b)) as Hl.
        { unfold ids in Hids.
          now rewrite <- (length_map nid (nodes bw)), Hids, length_map. }
        exists b2, (AtNode (nid g)), true. split; [reflexivity|].
        split; [exact Hnd|]. split.
        { split; [auto|]. intros x y Hx Hy Hxy.
          apply Hord; auto. apply (@at_or_before_ids _ _ _ _ (eq_sym Hids)), Hxy. }
        right. split; [reflexivity|]. split; [lia|].
        apply Hord; auto. apply (@at_or_before_ids _ _ _ _ (eq_sym Hids)).
        exists i, (S j). rewrite Hg. simpl. rewrite Ek. auto.
    + destruct (Back b eq_refl WF (fun x H => H)) as (q & Hq & A & B & C & D).
      exists b, q, false. rewrite Hq.
      split; [reflexivity|]. split; [exact A|]. split; [exact B|]. left. auto.
  - destruct (@sentinels_are_not_candidates O K b) as [_ R].
    unfold node_at. rewrite R.
    destruct (Back b eq_refl WF (fun x H => H)) as (q & Hq & A & B & C & D).
    exists b, q, false. rewrite Hq.
      split; [reflexivity|]. split; [exact A|]. split; [exact B|]. left. auto.
Qed.

Lemma sweep_total : forall L j b begin it i ch vis,
  length (nodes b) <= L -> well_formed O b -> is_boundary b begin ->
  idx b begin = Some i -> idx b it = Some j -> i <= j ->
  exists fuel b' ch' vis',
    sweep O fuel b begin it ch vis = Some (b', ch', vis')
    /\ well_formed O b' /\ keeps_boundaries b b'
    /\ length (nodes b') <= length (nodes b)
    /\ (ch' = true -> ch = true \/ length (nodes b') < length (nodes b)).
Proof.
  induction L as [L IHL] using lt_wf_ind.
  induction j as [|k IHk]; intros b begin it i ch vis HL ND Bb Hi Hj Hij;
    destruct (cursor_eqb it begin) eqn:E;
    try (exists 0, b, ch, vis; simpl; rewrite E;
         split; [reflexivity|]; split; [assumption|];
         split; [apply keeps_boundaries_refl|]; split; [lia|tauto]).
  - assert (i = 0) by lia. subst.
    rewrite (idx_inj _ _ _ Hj Hi), cursor_eqb_refl in E. discriminate.
  - assert (i <= k) as Hik.
    { destruct (Nat.eq_dec i (S k)) as [->|]; [|lia].
      rewrite (idx_inj _ _ _ Hj Hi), cursor_eqb_refl in E. discriminate. }
    destruct (@scanNode_progress b begin it i k ND Bb Hi Hj Hik)
      as (b1 & it1 & c1 & Hs & ND1 & K1 & [(-> & Hids & Hit1)|(-> & Hlen & Hab)]).
    + assert (length (nodes b1) = length (nodes b)) as Hl.
      { unfold ids in Hids.
        now rewrite <- (length_map nid (nodes b1)), Hids, length_map. }
      destruct K1 as [K1a K1b].
      destruct (IHk b1 begin it1 i (ch || false) (it :: vis))
        as (f & b' & ch' & vis' & Hsw & ND' & K' & Hle & Hch);
        try assumption; [lia|apply K1a, Bb|now rewrite (@idx_ids b1 b _ Hids)|].
      exists (S f), b', ch', vis'. simpl. rewrite E, Hs.
      split; [exact Hsw|]. split; [exact ND'|].
      split; [eapply keeps_boundaries_trans; [split|]; eauto|]. split; [lia|].
      intro C. destruct (Hch C) as [C'|C']; [|right; lia].
      left. now rewrite orb_false_r in C'.
    + destruct Hab as (i' & j' & Hi' & Hj' & Hij').
      destruct (IHL (length (nodes b1)) ltac:(lia) j' b1 begin it1 i'
                    (ch || true) (it :: vis))
        as (f & b' & ch' & vis' & Hsw & ND' & K' & Hle & Hch);
        try assumption; [lia|apply K1, Bb|].
      exists (S f), b', ch', vis'. simpl. rewrite E, Hs.
      split; [exact Hsw|]. split; [exact ND'|].
      split; [eapply keeps_boundaries_trans; eauto|]. split; [lia|].
      intros _. right. lia.
Qed.

Lemma sweep_mono f : forall f' b begin it ch vis r,
  sweep O f b begin it ch vis = Some r -> f <= f' ->
  sweep O f' b begin it ch vis = Some r.
Proof.
  induction f as [|f IH]; intros f' b begin it ch vis r H Hle.
  - simpl in H. destruct (cursor_eqb it begin) eqn:E; [|discriminate].
    destruct f'; simpl; now rewrite E.
  - destruct f' as [|f']; [lia|]. simpl in *.
    destruct (cursor_eqb it begin); [exact H|].
    destruct (scanNode O b it) as [[[b1 it1] c1]|]; [|discriminate].
    apply IH; [exact H|lia].
Qed.

Lemma merge_while_mono f : forall f' b w r,
  merge_while O f b w = Some r -> f <= f' -> merge_while O f' b w = Some r.
Proof.
  induction f as [|f IH]; intros f' b w r H Hle; [discriminate|].
  destruct f' as [|f']; [lia|].
  cbn [merge_while] in *.
  destruct (sweep O (S f) b (wb_begin w) (wb_end w) false [])
    as [[[b1 c1] v1]|] eqn:E; [|discriminate].
  rewrite (@sweep_mono (S f) (S f') _ _ _ _ _ _ E) by lia.
  destruct c1; [|exact H]. apply IH; [exact H|lia].
Qed.

Lemma valid_workblock_keeps b b' w :
  keeps_boundaries b b' -> valid_workblock b w -> valid_workblock b' w.
Proof.
  intros [K1 K2] (B & E & A). repeat split; auto.
Qed.

Lemma merge_while_total : forall L b w,
  length (nodes b) <= L -> well_formed O b -> valid_workblock b w ->
  exists fuel b',
    merge_while O fuel b w = Some b'
    /\ well_formed O b' /\ keeps_boundaries b b'
    /\ length (nodes b') <= length (nodes b)
    /\ exists bl f vis,
        sweep O f bl (wb_begin w) (wb_end w) false [] = Some (b', false, vis).
Proof.
  induction L as [L IHL] using lt_wf_ind.
  intros b w HL ND V. pose proof V as (Bb & Be & (i & j & Hi & Hj & Hij)).
  destruct (@sweep_total L j b (wb_begin w) (wb_end w) i false []
                         HL ND Bb Hi Hj Hij)
    as (fs & b1 & ch1 & vis1 & Hs & ND1 & K1 & Hle & Hch).
  destruct ch1.
  - destruct (Hch eq_refl) as [C|Hlt]; [discriminate|].
    destruct (IHL (length (nodes b1)) ltac:(lia) b1 w (le_n _) ND1
                  (valid_workblock_keeps K1 V))
      as (fr & b' & Hm & ND' & K' & Hle' & Hlast).
    exists (S (Nat.max fs fr)), b'. cbn [merge_while].
    rewrite (@sweep_mono fs (S (Nat.max fs fr)) _ _ _ _ _ _ Hs) by lia.
    rewrite (@merge_while_mono fr (Nat.max fs fr) _ _ _ Hm) by lia.
    split; [reflexivity|]. split; [exact ND'|].
    split; [eapply keeps_boundaries_trans; eauto|]. split; [lia|exact Hlast].
  - exists (S fs), b1. cbn [merge_while].
    rewrite (@sweep_mono fs (S fs) _ _ _ _ _ _ Hs) by lia.
    split; [reflexivity|]. split; [exact ND1|]. split; [exact K1|].
    split; [exact Hle|]. now exists b, fs, vis1.
Qed.

Lemma for_workblocks_mono ws : forall f f' b r,
  for_workblocks O f b ws = Some r -> f <= f' ->
  for_workblocks O f' b ws = Some r.
Proof.
  induction ws as [|w rest IH]; simpl; intros f f' b r H Hle; [exact H|].
  destruct (merge_while O f b w) as [b1|] eqn:E; [|discriminate].
  rewrite (@merge_while_mono f f' _ _ _ E Hle). eapply IH; eauto.
Qed.

Lemma for_workblocks_total ws : forall b,
  well_formed O b -> Forall (valid_workblock b) ws ->
  exists fuel b',
    for_workblocks O fuel b ws = Some b'
    /\ well_formed O b' /\ keeps_boundaries b b'.
Proof.
  induction ws as [|w rest IH]; intros b ND V.
  - exists 0, b. simpl. auto using keeps_boundaries_refl.
  - inversion V as [|? ? Vw Vrest]; subst.
    destruct (@merge_while_total _ b w (le_n _) ND Vw)
      as (f1 & b1 & Hm & ND1 & K1 & _).
    destruct (IH b1 ND1) as (f2 & b' & Hf & ND' & K').
    { eapply Forall_impl; [|exact Vrest].
      intro. now apply valid_workblock_keeps. }
    exists (Nat.max f1 f2), b'. simpl.
    rewrite (@merge_while_mono f1 (Nat.max f1 f2) _ _ _ Hm) by lia.
    rewrite (@for_workblocks_mono rest f2 (Nat.max f1 f2) _ _ Hf) by lia.
    split; [reflexivity|]. split; [exact ND'|].
    eapply keeps_boundaries_trans; eauto.
Qed.

(** The work blocks [buildWorkBlocks] emits are work blocks of the block. *)
Lemma scan_back_valid minSubgraphSize_ b (ND : NoDup (ids b)) :
  forall pre suf e c wl j,
    nodes b = pre ++ suf ->
    is_boundary b e -> idx b e = Some j -> length pre < j ->
    Forall (valid_workblock b) wl ->
    Forall (valid_workblock b) (scan_back O minSubgraphSize_ (rev pre) e c wl).
Proof.
  induction pre as [|curr pre IH] using rev_ind;
    intros suf e c wl j Hb Be He Hlt Hwl; simpl.
  - destruct (_ <=? _); [|exact Hwl].
    apply Forall_app. split; [exact Hwl|]. constructor; [|constructor].
    repeat split; auto. exists 0, j. simpl. repeat split; auto. lia.
  - rewrite rev_app_distr. simpl. rewrite <- app_assoc in Hb. simpl in Hb.
    rewrite length_app in Hlt. simpl in Hlt.
    assert (find_node (nid curr) pre = None) as Hpre
        by (eapply find_node_none_notin; [exact ND|exact Hb|reflexivity]).
    assert (idx b (AtNode (nid curr)) = Some (S (length pre))) as Hc.
    { simpl. rewrite Hb, index_of_at by assumption. reflexivity. }
    destruct (hasSideEffects curr) eqn:Eff.
    + assert (is_boundary b (AtNode (nid curr))) as Bc.
      { simpl. exists curr. split; [|exact Eff].
        rewrite Hb. now apply find_node_at. }
      apply (IH (curr :: suf) _ _ _ (S (length pre))); auto.
      destruct (_ <=? _); [|exact Hwl].
      apply Forall_app. split; [exact Hwl|]. constructor; [|constructor].
      repeat split; auto. exists (S (length pre)), j.
      repeat split; auto. lia.
    + apply (IH (curr :: suf) _ _ _ j); auto. lia.
Qed.

Lemma buildWorkBlocks_valid minSubgraphSize_ b :
  NoDup (ids b) ->
  Forall (valid_workblock b) (buildWorkBlocks O minSubgraphSize_ b).
Proof.
  intro ND. unfold buildWorkBlocks.
  apply (@scan_back_valid minSubgraphSize_ b ND (nodes b) [] AtReturn 0 []
                          (S (length (nodes b))));
    simpl; auto. now rewrite app_nil_r.
Qed.

Lemma sweep_changed_shrinks f b w b' vis :
  well_formed O b -> valid_workblock b w ->
  sweep O f b (wb_begin w) (wb_end w) false [] = Some (b', true, vis) ->
  length (nodes b') < length (nodes b).
Proof.
  intros WF (Bb & Be & (i & j & Hi & Hj & Hij)) H.
  destruct (@sweep_total _ j b (wb_begin w) (wb_end w) i false []
                         (le_n _) WF Bb Hi Hj Hij)
    as (fs & b1 & ch1 & vis1 & Hs & _ & _ & _ & Hch).
  apply (@sweep_mono f (Nat.max f fs)) in H; [|lia].
  apply (@sweep_mono fs (Nat.max f fs)) in Hs; [|lia].
  rewrite H in Hs. inversion Hs; subst.
  destruct (Hch eq_refl) as [C|C]; [discriminate|exact C].
Qed.

End Termination.

(** ** The reference collaborators honour the contract *)

Section ReferenceContract.

Lemma split_at_spec id ns : forall pre m post,
  Reference.split_at id ns = Some (pre, m, post) ->
  ns = pre ++ m :: post /\ nid m = id /\ find_node id pre = None.
Proof.
  induction ns as [|n rest IH]; simpl; intros pre m post H; [discriminate|].
  destruct (Nat.eqb (nid n) id) eqn:E.
  - inversion H; subst. apply Nat.eqb_eq in E. auto.
  - destruct (Reference.split_at id rest) as [[[pre' m'] post']|];
      [|discriminate].
    inversion H; subst. destruct (IH _ _ _ eq_refl) as (-> & Hm & Hf).
    simpl. rewrite E. auto.
Qed.

Lemma split_at_at pre m post :
  find_node (nid m) pre = None ->
  Reference.split_at (nid m) (pre ++ m :: post) = Some (pre, m, post).
Proof.
  induction pre as [|n pre IH]; simpl; intro H.
  - now rewrite Nat.eqb_refl.
  - destruct (Nat.eqb (nid n) (nid m)); [discriminate|]. now rewrite IH.
Qed.

Lemma find_node_split id ns n :
  find_node id ns = Some n ->
  exists pre post, ns = pre ++ n :: post /\ find_node id pre = None.
Proof.
  induction ns as [|m rest IH]; simpl; [discriminate|].
  destruct (Nat.eqb (nid m) id) eqn:E.
  - intro H. inversion H; subst. now exists [], rest.
  - intro H. destruct (IH H) as (pre & post & -> & Hf).
    exists (m :: pre), post. simpl. now rewrite E.
Qed.

Lemma index_of_app z l1 l2 :
  index_of z (l1 ++ l2)
  = match index_of z l1 with
    | Some k => Some k
    | None => option_map (fun k => length l1 + k) (index_of z l2)
    end.
Proof.
  induction l1 as [|m l1 IH]; simpl.
  - now destruct (index_of z l2).
  - destruct (Nat.eqb (nid m) z); [reflexivity|]. rewrite IH.
    destruct (index_of z l1); [reflexivity|].
    now destruct (index_of z l2).
Qed.

Lemma index_of_lt z l k : index_of z l = Some k -> k < length l.
Proof.
  intro H. apply index_of_nth in H. destruct H as (n & Hn & _).
  apply nth_error_Some. congruence.
Qed.

(** Positions after one node has left the block. *)
Lemma remove_shift pre p R R' z k :
  nid p <> z -> map nid R' = map nid R ->
  option_map S (index_of z (pre ++ p :: R)) = Some k ->
  option_map S (index_of z (pre ++ R'))
  = Some (if k <=? length pre then k else k - 1).
Proof.
  intros Hz HR. rewrite !index_of_app. simpl.
  apply Nat.eqb_neq in Hz. rewrite Hz.
  rewrite (index_of_ids z R' R HR).
  destruct (index_of z pre) as [k0|] eqn:E0.
  - apply index_of_lt in E0. simpl. intro H. inversion H; subst.
    destruct (S k0 <=? length pre) eqn:L; [reflexivity|].
    apply Nat.leb_gt in L. lia.
  - destruct (index_of z R) as [k1|]; simpl; [|discriminate].
    intro H. inversion H; subst.
    destruct (S (length pre + S k1) <=? length pre) eqn:L.
    + apply Nat.leb_le in L. lia.
    + f_equal. lia.
Qed.

Lemma find_node_unique ns pre m post :
  NoDup (map nid ns) -> ns = pre ++ m :: post ->
  find_node (nid m) ns = Some m.
Proof.
  intros ND ->. apply find_node_at.
  eapply find_node_none_notin; [exact ND|reflexivity|reflexivity].
Qed.

(** What the removal of the node [p] and the replacement of [c] by [g]
    keep of a well-formed block. *)
Lemma removal_keeps O b b2 pre p mid c post g :
  well_formed O b ->
  nodes b = pre ++ p :: mid ++ c :: post ->
  nodes b2 = (pre ++ mid) ++ g :: post ->
  nid g = nid c -> hasSideEffects g = false ->
  hasSideEffects p = false -> hasSideEffects c = false ->
  length (nodes b2) < length (nodes b)
  /\ well_formed O b2
  /\ (forall x, is_boundary b x -> is_boundary b2 x)
  /\ (forall x y,
        is_boundary b x ->
        is_boundary b y \/ y = AtNode (nid c) ->
        at_or_before b x y -> at_or_before b2 x y).
Proof.
  intros [ND PC] Hb Hb2 Hg Eg Ep Ec.
  assert (NDb := ND). unfold ids in NDb. rewrite Hb in NDb.
  assert (Fp : find_node (nid p) (nodes b) = Some p)
    by (eapply find_node_unique; [exact ND|exact Hb]).
  assert (Fc : find_node (nid c) (nodes b) = Some c).
  { eapply (@find_node_unique _ (pre ++ p :: mid)); [exact ND|].
    rewrite Hb, <- app_assoc. reflexivity. }
  assert (Hpc : nid p <> nid c).
  { rewrite map_app in NDb. simpl in NDb. apply NoDup_remove_2 in NDb.
    intro C. apply NDb. apply in_or_app. right.
    rewrite map_app. apply in_or_app. right. simpl. now left. }
  assert (Shift : forall z k, z <> AtNode (nid p) -> idx b z = Some k ->
            idx b2 z = Some (if k <=? length pre then k else k - 1)).
  { intros [|z|] k Hz Hk; simpl in *.
    - inversion Hk; subst. reflexivity.
    - rewrite Hb in Hk. rewrite Hb2, <- app_assoc.
      apply (@remove_shift pre p (mid ++ c :: post) (mid ++ g :: post));
        [congruence| |exact Hk].
      rewrite !map_app. simpl. now rewrite Hg.
    - inversion Hk; subst.
      assert (length (nodes b) = length pre + S (length mid + S (length post)))
        as Lb by (rewrite Hb, !length_app; simpl; rewrite length_app;
                  reflexivity).
      assert (length (nodes b2) = length pre + length mid + S (length post))
        as Lb2 by (rewrite Hb2, !length_app; reflexivity).
      destruct (S (length (nodes b)) <=? length pre) eqn:L;
        [apply Nat.leb_le in L; lia|].
      f_equal. lia. }
  assert (NotP : forall x, is_boundary b x -> x <> AtNode (nid p)).
  { intros x Hx ->. simpl in Hx. destruct Hx as (s0 & Hs & He).
    rewrite Fp in Hs. inversion Hs; subst. congruence. }
  split; [|split; [|split]].
  - rewrite Hb, Hb2, !length_app. simpl. rewrite !length_app. simpl. lia.
  - split.
    + unfold ids. rewrite Hb2, <- app_assoc, !map_app. simpl. rewrite Hg.
      rewrite !map_app in NDb. simpl in NDb. rewrite map_app in NDb.
      simpl in NDb. now apply NoDup_remove_1 in NDb.
    + intros n Hn Hc. rewrite Hb2 in Hn.
      apply in_app_or in Hn. destruct Hn as [Hn|[<-|Hn]]; [|exact Eg|].
      * apply PC; [|exact Hc]. rewrite Hb.
        apply in_app_or in Hn. destruct Hn as [Hn|Hn]; apply in_or_app;
          [now left|right; right; apply in_or_app; now left].
      * apply PC; [|exact Hc]. rewrite Hb. apply in_or_app. right. right.
        apply in_or_app. right. now right.
  - intros [|z|]; simpl; auto. intros (s0 & Hs & He).
    exists s0. split; [|exact He].
    rewrite Hb in Hs. rewrite Hb2.
    rewrite !find_node_app in *. simpl in *. rewrite find_node_app in Hs.
    simpl in Hs. rewrite Hg.
    destruct (find_node z pre); [exact Hs|].
    destruct (Nat.eqb (nid p) z); [inversion Hs; congruence|].
    destruct (find_node z mid); [exact Hs|].
    destruct (Nat.eqb (nid c) z); [inversion Hs; congruence|exact Hs].
  - intros x y Hx Hy (i & j & Hi & Hj & Hij).
    assert (y <> AtNode (nid p)) as Hyp.
    { destruct Hy as [Hy| ->]; [now apply NotP|congruence]. }
    exists (if i <=? length pre then i else i - 1),
           (if j <=? length pre then j else j - 1).
    split; [apply Shift; auto|]. split; [apply Shift; auto|].
    destruct (i <=? length pre) eqn:Li, (j <=? length pre) eqn:Lj;
      try apply Nat.leb_le in Li; try apply Nat.leb_le in Lj;
      try apply Nat.leb_gt in Li; try apply Nat.leb_gt in Lj; lia.
Qed.

Lemma reference_contract : MergeContract Reference.oracles.
Proof.
  constructor.
  - intro b. split; reflexivity.
  - intros b n b' g F W. simpl in W.
    unfold Reference.createSingletonSubgraphAndUpdateAliasing in W.
    destruct (@find_node_split _ _ _ F) as (pre & post & Hb & Hpre).
    rewrite Hb, (@split_at_at pre n post Hpre) in W. inversion W; subst.
    repeat split; auto. now exists pre, post.
  - intros b p c moved WF Sp Gc Fc M. simpl in M.
    unfold Reference.moveBeforeTopologicallyValid in M.
    destruct (Reference.split_at (nid p) (nodes b)) as [[[pre p'] rest]|]
      eqn:E1; [|discriminate].
    destruct (Reference.split_at (nid c) rest) as [[[mid c'] post]|]
      eqn:E2; [|discriminate].
    destruct (negb (hasSideEffects p') && _) eqn:Cnd; [|discriminate].
    inversion M; subst moved. clear M.
    apply split_at_spec in E1. destruct E1 as (Hb & Hp' & Hpre).
    apply split_at_spec in E2. destruct E2 as (-> & Hc' & Hmid).
    apply andb_true_iff in Cnd. destruct Cnd as [Ep' _].
    apply negb_true_iff in Ep'.
    pose proof (proj1 WF) as ND.
    assert (c' = c) as ->.
    { assert (find_node (nid c') (nodes b) = Some c') as F'.
      { eapply (@find_node_unique _ (pre ++ p' :: mid)); [exact ND|].
        rewrite Hb, <- app_assoc. reflexivity. }
      rewrite Hc' in F'. congruence. }
    assert (hasSideEffects c = false) as Ec.
    { apply (proj2 WF); [now apply (@find_node_In _ _ _ Fc)|].
      unfold shouldConsiderForMerge. unfold is_group in Gc. now rewrite Gc. }
    assert (find_node (nid p') (pre ++ mid) = None) as Hpm.
    { unfold ids in ND. rewrite Hb in ND.
      rewrite find_node_app. rewrite Hp'. rewrite Hpre.
      rewrite map_app in ND. simpl in ND. apply NoDup_remove_2 in ND.
      destruct (find_node (nid p) mid) as [m|] eqn:Fm; [|reflexivity].
      exfalso. apply ND. apply in_or_app. right. rewrite map_app.
      apply in_or_app. left.
      rewrite <- Hp' in Fm. rewrite <- (@find_node_nid _ _ _ Fm).
      apply in_map. now apply (@find_node_In _ _ _ Fm). }
    cbv zeta. simpl mergeNodeIntoSubgraphAndUpdateAliasing.
    unfold Reference.mergeNodeIntoSubgraphAndUpdateAliasing.
    change (nodes (with_nodes b (pre ++ mid ++ p' :: c :: post)))
      with (pre ++ mid ++ p' :: c :: post).
    rewrite app_assoc, <- Hp', (@split_at_at _ _ _ Hpm). simpl.
    rewrite Nat.eqb_refl.
    eapply (@removal_keeps Reference.oracles b _ pre p' mid c post);
      [exact WF|exact Hb|reflexivity|reflexivity|reflexivity|exact Ep'
       |exact Ec].
Qed.

End ReferenceContract.

(** ** Alias repairs *)

Section AliasRepair.

Variable O : Oracles.
Variable AF : AliasFacts.
Hypothesis A : AliasContract O AF.

Lemma unfuse_sweep_quiet rn : forall after ch ns,
  unfuse_sweep O rn after ch = (ns, false) ->
  ch = false /\ ns = rev rn ++ after
  /\ forall n, In n rn -> is_group n = true -> alias_free AF n.
Proof.
  induction rn as [|n rest IH]; simpl; intros after ch ns H.
  - inversion H; subst. repeat split; auto; intros n [].
  - destruct (is_group n) eqn:G.
    + destruct (unmergeAliasedOutputs O n) as [[n1 out1] c1] eqn:E1.
      destruct (unmergeOutputsAlisingInputs O n1) as [[n2 out2] c2] eqn:E2.
      apply IH in H. destruct H as (Hch & -> & Hall).
      apply orb_false_iff in Hch. destruct Hch as [Hch ->].
      apply orb_false_iff in Hch. destruct Hch as [-> ->].
      destruct (@aliased_outputs_fixed O AF A _ _ _ E1) as (-> & -> & F1).
      destruct (@aliasing_inputs_fixed O AF A _ _ _ E2) as (-> & -> & F2).
      split; [reflexivity|]. split; [now rewrite <- app_assoc|].
      intros m [<-|Hm] Gm; [now split|auto].
    + apply IH in H. destruct H as (-> & -> & Hall).
      split; [reflexivity|]. split; [now rewrite <- app_assoc|].
      intros m [<-|Hm] Gm; [congruence|auto].
Qed.

(** The loop stops at a sweep that changes nothing, on a block level whose
    groups are all free of aliasing. *)
Lemma unfuse_while_result fuel : forall ns ns',
  unfuse_while O fuel ns = Some ns' ->
  unfuse_sweep O (rev ns') [] false = (ns', false)
  /\ forall n, In n ns' -> is_group n = true -> alias_free AF n.
Proof.
  induction fuel as [|fuel IH]; simpl; intros ns ns' H; [discriminate|].
  destruct (unfuse_sweep O (rev ns) [] false) as [ns1 [|]] eqn:E;
    [now apply IH in H|].
  inversion H; subst.
  destruct (unfuse_sweep_quiet _ _ _ E) as (_ & Hns & Hall).
  rewrite rev_involutive, app_nil_r in Hns. subst ns'.
  split; [exact E|]. intros n Hn. apply Hall. now apply -> in_rev.
Qed.

Lemma Forall2_right {X Y} (R : X -> Y -> Prop) l l' :
  Forall2 R l l' -> forall y, In y l' -> exists x, In x l /\ R x y.
Proof.
  induction 1 as [|x y l l' Hxy _ IH]; intros z Hz; [destruct Hz|].
  destruct Hz as [<-|Hz]; [exists x; simpl; auto|].
  destruct (IH z Hz) as (x' & Hx' & HR). exists x'. simpl. auto.
Qed.

Section Results.

Context {S : Type} (f : Block -> S -> option (Block * S)) (Q : Block -> Prop).
Hypothesis f_result : forall b s b' s', f b s = Some (b', s') -> Q b'.

Lemma for_blocks_results bs : forall s bs' s',
  for_blocks f bs s = Some (bs', s') -> Forall Q bs'.
Proof.
  induction bs as [|b rest IH]; simpl; intros s bs' s' H.
  - inversion H; subst. constructor.
  - destruct (f b s) as [[b1 s1]|] eqn:Eb; try discriminate.
    destruct (for_blocks f rest s1) as [[r2 s2]|] eqn:Er; try discriminate.
    inversion H; subst. constructor; eauto.
Qed.

Lemma for_nodes_results ns : forall s ns' s',
  for_nodes f ns s = Some (ns', s') ->
  Forall2 (fun n n' => (exists bs, n' = set_blocks n bs)
                       /\ Forall Q (blocks n')) ns ns'.
Proof.
  induction ns as [|n rest IH]; simpl; intros s ns' s' H.
  - inversion H; subst. constructor.
  - destruct (for_blocks f (blocks n) s) as [[bs s1]|] eqn:Eb;
      try discriminate.
    destruct (for_nodes f rest s1) as [[r2 s2]|] eqn:Er; try discriminate.
    inversion H; subst. constructor; [|eauto].
    split; [now exists bs|]. simpl. eapply for_blocks_results; eauto.
Qed.

End Results.

Lemma unfuse_tree fuel : forall b b2,
  unfuseAliasedOutputs O fuel b = Some b2 -> tree_groups (alias_free AF) b2.
Proof.
  induction fuel as [|fuel IH]; intros b b2 H; [discriminate|].
  cbn [unfuseAliasedOutputs] in H.
  destruct (unfuse_while O (Datatypes.S fuel) (nodes b)) as [ns1|] eqn:W;
    [|discriminate].
  destruct (for_nodes _ ns1 tt) as [[ns2 u]|] eqn:F; [|discriminate].
  inversion H; subst. constructor. intros n2 Hn2. simpl in Hn2.
  apply unfuse_while_result in W. destruct W as [_ Hall].
  eapply for_nodes_results in F.
  - destruct (Forall2_right F _ Hn2) as (n & Hn & (bs & ->) & HQ).
    split.
    + intro G. apply (Hall n Hn G).
    + intros ib Hib. eapply Forall_forall in HQ; eauto.
  - intros ib s ib' s' Hr. simpl in Hr.
    destruct (unfuseAliasedOutputs O fuel ib) as [r|] eqn:E; [|discriminate].
    inversion Hr; subst. now apply IH in E.
Qed.

Section Pre.

Context {S : Type} (f : Block -> S -> option (Block * S)).
Context (I : S -> Prop) (Pre : Block -> Prop).
Hypothesis f_keeps :
  forall b s b' s', Pre b -> f b s = Some (b', s') -> I s -> I s'.

Lemma for_blocks_keeps_pre bs : forall s bs' s',
  Forall Pre bs -> for_blocks f bs s = Some (bs', s') -> I s -> I s'.
Proof.
  induction bs as [|b rest IH]; simpl; intros s bs' s' HP H Hs.
  - now inversion H; subst.
  - inversion HP; subst.
    destruct (f b s) as [[b1 s1]|] eqn:Eb; try discriminate.
    destruct (for_blocks f rest s1) as [[r2 s2]|] eqn:Er; try discriminate.
    inversion H; subst. eapply IH; eauto.
Qed.

Lemma for_nodes_keeps_pre ns : forall s ns' s',
  Forall (fun n => Forall Pre (blocks n)) ns ->
  for_nodes f ns s = Some (ns', s') -> I s -> I s'.
Proof.
  induction ns as [|n rest IH]; simpl; intros s ns' s' HP H Hs.
  - now inversion H; subst.
  - inversion HP; subst.
    destruct (for_blocks f (blocks n) s) as [[bs s1]|] eqn:Eb;
      try discriminate.
    destruct (for_nodes f rest s1) as [[r2 s2]|] eqn:Er; try discriminate.
    inversion H; subst. eapply IH; eauto using for_blocks_keeps_pre.
Qed.

End Pre.

Local Abbreviation repaired b :=
  (tree_groups (alias_free AF) b /\ tree_groups (releases_no_blocks O) b).

Lemma cleanup_loop_alias threshold rn : forall after d ns d',
  cleanup_loop O threshold rn after d = Some (ns, d') ->
  (forall n, In n rn ->
     (is_group n = true -> alias_free AF n /\ releases_no_blocks O n)
     /\ Forall (fun ib => repaired ib) (blocks n)) ->
  Forall (fun m => Forall (fun ib => repaired ib) (blocks m)) after ->
  Forall (alias_free AF) d ->
  Forall (alias_free AF) d'
  /\ Forall (fun m => Forall (fun ib => repaired ib) (blocks m)) ns.
Proof.
  induction rn as [|n rest IH]; intros after d ns d' H Hrn Hafter Hd.
  - simpl in H. inversion H; subst. auto.
  - rewrite cleanup_loop_cons in H.
    destruct (Hrn n (or_introl eq_refl)) as [Hgrp Hblk].
    assert (Hrest : forall m, In m rest ->
              (is_group m = true -> alias_free AF m /\ releases_no_blocks O m)
              /\ Forall (fun ib => repaired ib) (blocks m))
      by (intros m Hm; apply Hrn; right; exact Hm).
    destruct (is_group n) eqn:G.
    + destruct (Hgrp eq_refl) as [Hfree Hrel].
      destruct (subgraph n); [|discriminate].
      destruct (reaches_min O threshold 0 _).
      * eapply IH; [exact H|exact Hrest| |].
        -- constructor; [exact Hblk|exact Hafter].
        -- apply Forall_app. split; [exact Hd|].
           constructor; [|constructor].
           now apply (@cse_keeps_alias_free O AF A).
      * eapply IH; [exact H|exact Hrest| |exact Hd].
        apply Forall_app. split; [|exact Hafter].
        apply Forall_forall. intros m Hm. rewrite (Hrel m Hm). constructor.
    + eapply IH; [exact H|exact Hrest| |exact Hd].
      constructor; [exact Hblk|exact Hafter].
Qed.

Lemma repaired_nodes b :
  repaired b ->
  forall n, In n (nodes b) ->
    (is_group n = true -> alias_free AF n /\ releases_no_blocks O n)
    /\ Forall (fun ib => repaired ib) (blocks n).
Proof.
  intros [H1 H2] n Hn. inversion H1 as [? T1]. inversion H2 as [? T2]. subst.
  destruct (T1 n Hn) as [G1 B1]. destruct (T2 n Hn) as [G2 B2].
  split; [auto|]. apply Forall_forall. intros ib Hib. split; auto.
Qed.

Lemma cleanup_alias threshold fuel : forall b d b' d',
  cleanupSubgraphs O threshold fuel b d = Some (b', d') ->
  repaired b ->
  Forall (alias_free AF) d -> Forall (alias_free AF) d'.
Proof.
  induction fuel as [|fuel IH]; simpl; intros b d b' d' H R Hd;
    [discriminate|].
  destruct (cleanup_loop _ _ _ _ _) as [[ns d1]|] eqn:L; try discriminate.
  destruct (for_nodes _ _ _) as [[ns' d2]|] eqn:F; try discriminate.
  inversion H; subst.
  eapply cleanup_loop_alias in L;
    [|intros n Hn; apply (@repaired_nodes b R); now rewrite <- in_rev in Hn
     |constructor|exact Hd].
  destruct L as [Hd1 Hns].
  eapply (@for_nodes_keeps_pre _ (cleanupSubgraphs O threshold fuel)
            (Forall (alias_free AF)) (fun ib => repaired ib));
    [|exact Hns|exact F|exact Hd1].
  intros ib s ib' s' Pib Hc Hs. eapply IH; eauto.
Qed.

End AliasRepair.


Lemma reference_alias_contract :
  AliasContract Reference.oracles Scenario.alias_facts.
Proof.
  constructor.
  - intros n n' out H. simpl in H. unfold Reference.unmergeAliasedOutputs in H.
    destruct (Reference.has_dup (Reference.subgraph_returns n)) eqn:E;
      [discriminate|].
    inversion H; subst. repeat split.
    unfold Reference.subgraph_returns in E. simpl.
    destruct (subgraph n'); [congruence|tauto].
  - intros n n' out H. simpl in H.
    unfold Reference.unmergeOutputsAlisingInputs in H.
    destruct (existsb _ _) eqn:E; [discriminate|].
    inversion H; subst. repeat split.
    unfold Reference.subgraph_returns, Reference.subgraph_params in E. simpl.
    destruct (subgraph n'); [congruence|tauto].
  - intros n H. unfold alias_free, finalized in *. simpl in *.
    unfold Reference.EliminateCommonSubexpression.
    destruct (subgraph n); exact H.
Qed.



(** ** The side-effect boundary scenario *)

(** C8.  With the reference collaborators, on the block [A; B; C; D] where
    [A], [C], [D] are differentiable and [B] has side effects, threshold 2,
    the dependencies being those of the sequence ([D] consumes the output of
    [C]; in [line] every node consumes the output of the node before it):
    the only work block is the one after [B]; the pass returns exactly one
    group, whose subgraph holds [C] and [D] in this order; and [A] and [B]
    stay in the outer block, ungrouped, before the group. *)
Theorem side_effect_boundary_scenario :
  buildWorkBlocks Reference.oracles 2 Scenario.chain = [(AtNode 2, AtReturn)]
  /\ CreateAutodiffSubgraphs Reference.oracles Scenario.no_info 10
                             Scenario.chain 2 Scenario.untyped
     = Some (Scenario.chain_partitioned, Scenario.untyped, [Scenario.CD])
  /\ subgraph_nodes Scenario.CD = [Scenario.C; Scenario.D]
  /\ nodes Scenario.chain_partitioned
     = [Scenario.A; Scenario.B; Scenario.CD]
  /\ buildWorkBlocks Reference.oracles 2 Scenario.line = [(AtNode 2, AtReturn)]
  /\ CreateAutodiffSubgraphs Reference.oracles Scenario.no_info 10
                             Scenario.line 2 Scenario.untyped
     = Some (Scenario.line_partitioned, Scenario.untyped, [Scenario.CD'])
  /\ subgraph_nodes Scenario.CD' = [Scenario.C'; Scenario.D']
  /\ nodes Scenario.line_partitioned
     = [Scenario.A'; Scenario.B'; Scenario.CD'].
Proof.
  repeat split; vm_compute; reflexivity.
Qed.

(** * Further properties *)

(** ** The size filter, exactly *)

(** X1.  [inlineIfTooSmall] keeps a group exactly when its subgraph is not
    empty and holds at least the minimum of executed nodes; a group with an
    empty subgraph is dissolved whatever the minimum, zero included; and on
    a group node that carries no subgraph the access to it fails. *)
Theorem inlineIfTooSmall_keeps_iff O minSubgraphSize_ n :
  is_group n = true ->
  (inlineIfTooSmall O minSubgraphSize_ n = Some ([n], false)
   <-> subgraph_nodes n <> [] /\ minSubgraphSize_ <= executed_count O n)
  /\ (forall g, subgraph n = Some g -> nodes g = [] ->
      inlineIfTooSmall O minSubgraphSize_ n = Some (unmergeSubgraph O n, true))
  /\ (subgraph n = None -> inlineIfTooSmall O minSubgraphSize_ n = None).
Proof.
  intro G. unfold inlineIfTooSmall, executed_count, subgraph_nodes.
  rewrite G. simpl. split; [|split].
  - destruct (subgraph n) as [g|].
    + rewrite <- (reaches_min_iff O minSubgraphSize_ (nodes g) 0).
      destruct (reaches_min O minSubgraphSize_ 0 (nodes g));
        split; congruence.
    + split; [discriminate|]. intros [C _]. now elim C.
  - intros g -> ->. reflexivity.
  - intros ->. reflexivity.
Qed.

Lemma inlineIfTooSmall_keeps_iff_witness :
  inlineIfTooSmall Reference.oracles 2 Scenario.CD = Some ([Scenario.CD], false)
  <-> subgraph_nodes Scenario.CD <> []
      /\ 2 <= executed_count Reference.oracles Scenario.CD.
Proof.
  exact (proj1 (@inlineIfTooSmall_keeps_iff Reference.oracles 2 Scenario.CD
                  eq_refl)).
Defined.

(** ** Work blocks and the threshold *)

Section WorkBlockBounds.

Variable O : Oracles.

Lemma scan_back_none t rn : forall e c,
  c + candidates O rn < t -> scan_back O t rn e c [] = [].
Proof.
  induction rn as [|n rest IH]; intros e c H; simpl.
  - unfold candidates in H. simpl in H.
    destruct (t <=? c) eqn:E; [apply Nat.leb_le in E; lia|reflexivity].
  - rewrite candidates_cons in H.
    destruct (hasSideEffects n).
    + destruct (t <=? c + b2n (shouldConsiderForMerge O n)) eqn:E;
        [apply Nat.leb_le in E; lia|].
      apply IH. lia.
    + apply IH. lia.
Qed.

Lemma scan_back_length t rn : forall e c wl,
  length (scan_back O t rn e c wl) <= length wl + S (side_effecting rn)
  /\ (t = 0 ->
      length (scan_back O t rn e c wl) = length wl + S (side_effecting rn)).
Proof.
  induction rn as [|n rest IH]; intros e c wl; unfold side_effecting; simpl.
  - destruct (t <=? c) eqn:E.
    + rewrite length_app. simpl. split; [lia|intros; lia].
    + split; [lia|]. intros ->. discriminate.
  - destruct (hasSideEffects n); simpl; [|apply IH].
    destruct (t <=? c + b2n (shouldConsiderForMerge O n)) eqn:E.
    + destruct (IH (AtNode (nid n)) 0 (wl ++ [(AtNode (nid n), e)]))
        as [H1 H2].
      rewrite length_app in *. simpl in *. unfold side_effecting in *.
      split; [lia|]. intro T. rewrite (H2 T). lia.
    + destruct (IH (AtNode (nid n)) 0 wl) as [H1 _].
      unfold side_effecting in *. split; [lia|].
      intros ->. discriminate.
Qed.

Lemma side_effecting_rev ns : side_effecting (rev ns) = side_effecting ns.
Proof.
  unfold side_effecting. induction ns as [|n ns IH]; [reflexivity|].
  simpl. rewrite filter_app, length_app, IH. simpl.
  destruct (hasSideEffects n); simpl; lia.
Qed.

Lemma scan_back_mono t t' rn : forall e c wl wl' w,
  t' <= t ->
  (forall x, In x wl -> In x wl') ->
  In w (scan_back O t rn e c wl) -> In w (scan_back O t' rn e c wl').
Proof.
  induction rn as [|n rest IH]; intros e c wl wl' w Ht Hwl; simpl.
  - destruct (t <=? c) eqn:E.
    + apply Nat.leb_le in E.
      assert ((t' <=? c) = true) as -> by (apply Nat.leb_le; lia).
      intro H. apply in_app_or in H. apply in_or_app.
      destruct H as [H|H]; [left; auto|now right].
    + intro H. destruct (t' <=? c); [apply in_or_app; left|]; auto.
  - destruct (hasSideEffects n); [|now apply IH].
    apply IH; [exact Ht|].
    destruct (t <=? c + b2n (shouldConsiderForMerge O n)) eqn:E.
    + apply Nat.leb_le in E.
      assert ((t' <=? c + b2n (shouldConsiderForMerge O n)) = true) as ->
          by (apply Nat.leb_le; lia).
      intros x H. apply in_app_or in H. apply in_or_app.
      destruct H as [H|H]; [left; auto|now right].
    + intros x H. destruct (t' <=? _); [apply in_or_app; left|]; auto.
Qed.

End WorkBlockBounds.

(** X2.  When the block holds fewer merge candidates than the threshold,
    [buildWorkBlocks] emits no work block, and the loop over the work
    blocks returns the block as it is. *)
Theorem no_work_block_below_threshold O threshold b fuel :
  candidates O (nodes b) < threshold ->
  buildWorkBlocks O threshold b = []
  /\ for_workblocks O fuel b (buildWorkBlocks O threshold b) = Some b.
Proof.
  intro H.
  assert (buildWorkBlocks O threshold b = []) as E.
  { unfold buildWorkBlocks. apply scan_back_none.
    simpl. now rewrite candidates_rev. }
  rewrite E. split; reflexivity.
Qed.

Lemma no_work_block_below_threshold_witness :
  buildWorkBlocks Reference.oracles 5 Scenario.chain = []
  /\ for_workblocks Reference.oracles 0 Scenario.chain
       (buildWorkBlocks Reference.oracles 5 Scenario.chain)
     = Some Scenario.chain.
Proof.
  apply (@no_work_block_below_threshold Reference.oracles 5 Scenario.chain 0).
  vm_compute. lia.
Defined.

(** X3.  [buildWorkBlocks] emits at most one work block per side-effecting
    node plus one; with threshold 0 it emits exactly that many. *)
Theorem work_block_count O threshold b :
  length (buildWorkBlocks O threshold b) <= S (side_effecting (nodes b))
  /\ (threshold = 0 ->
      length (buildWorkBlocks O threshold b) = S (side_effecting (nodes b))).
Proof.
  unfold buildWorkBlocks.
  destruct (scan_back_length O threshold (rev (nodes b)) AtReturn 0 [])
    as [H1 H2].
  rewrite side_effecting_rev in *. simpl in *. auto.
Qed.

(** X4.  Lowering the threshold loses nothing: a work block emitted at a
    threshold is emitted at every smaller one, and a subgraph whose count
    reaches a minimum reaches every smaller one. *)
Theorem threshold_monotone O t t' :
  t' <= t ->
  (forall b w, In w (buildWorkBlocks O t b) -> In w (buildWorkBlocks O t' b))
  /\ (forall ns, reaches_min O t 0 ns = true -> reaches_min O t' 0 ns = true).
Proof.
  intro Ht. split.
  - intros b w. unfold buildWorkBlocks. now apply scan_back_mono.
  - intros ns. rewrite !reaches_min_iff. intros [H1 H2]. split; [exact H1|lia].
Qed.

Lemma threshold_monotone_witness :
  In (AtNode 2, AtReturn) (buildWorkBlocks Reference.oracles 1 Scenario.chain).
Proof.
  refine (proj1 (@threshold_monotone Reference.oracles 2 1 _)
                Scenario.chain _ _).
  - lia.
  - vm_compute. now left.
Defined.

(** ** What a scan may change *)

Section ScanInversion.

Variable O : Oracles.

Lemma tryMerge_inv b g p b' r :
  tryMerge O b g p = Some (b', r) ->
  (r = None /\ b' = b)
  \/ (r = Some g /\ shouldConsiderForMerge O p = true
      /\ exists moved,
          moveBeforeTopologicallyValid O b p g = Some moved
          /\ b' = mergeNodeIntoSubgraphAndUpdateAliasing O moved p g).
Proof.
  unfold tryMerge. destruct (negb (is_group g)); [discriminate|].
  destruct (shouldConsiderForMerge O p); [|intro H; inversion H; auto].
  destruct (moveBeforeTopologicallyValid O b p g) as [moved|] eqn:M;
    intro H; inversion H; subst; [right|left]; eauto.
Qed.

Lemma try_inputs_inv b g ins : forall b' r,
  try_inputs O b g ins = Some (b', r) ->
  (r = None /\ b' = b)
  \/ (r = Some g
      /\ exists v i p moved,
          In v ins /\ producer_in b v = Some (i, p)
          /\ shouldConsiderForMerge O p = true
          /\ moveBeforeTopologicallyValid O b p g = Some moved
          /\ b' = mergeNodeIntoSubgraphAndUpdateAliasing O moved p g).
Proof.
  induction ins as [|v rest IH]; simpl; intros b' r H.
  - inversion H; auto.
  - destruct (producer_in b v) as [[i p]|] eqn:P; [|discriminate].
    destruct (tryMerge O b g p) as [[b1 [g1|]]|] eqn:T; [| |discriminate].
    + inversion H; subst.
      destruct (tryMerge_inv _ _ _ T) as [[C _]|(Hg & Sp & moved & M & ->)];
        [discriminate|].
      inversion Hg; subst. right. split; [reflexivity|].
      exists v, i, p, moved. simpl. auto 7.
    + destruct (tryMerge_inv _ _ _ T) as [[_ ->]|[C _]]; [|discriminate].
      destruct (IH _ _ H) as [?|(Hr & v' & i' & p' & moved & Hin & Hrest)];
        [now left|].
      right. split; [exact Hr|]. exists v', i', p', moved. simpl. auto.
Qed.

End ScanInversion.

(** X5.  What [scanNode] may do to the block.  When it reports no change
    the block is the one it was given, or that block with the scanned node
    wrapped into a singleton group.  When it reports a change, exactly one
    merge took place: the producer is a merge candidate that produces, in
    this block, one of the inputs of the group, the alias oracle granted
    its move, and the iterator returned is the group's. *)
Theorem scanNode_effect O b it b' it' changed :
  scanNode O b it = Some (b', it', changed) ->
  exists consumer b1 group it1,
    node_at b it = Some consumer
    /\ (shouldConsiderForMerge O consumer = false ->
        changed = false /\ b' = b)
    /\ (shouldConsiderForMerge O consumer = true ->
        ensure_group O b consumer it = (b1, group, it1)
        /\ (changed = false -> b' = b1)
        /\ (changed = true ->
            it' = AtNode (nid group)
            /\ exists v i p moved,
                In v (inputs group)
                /\ producer_in b1 v = Some (i, p)
                /\ shouldConsiderForMerge O p = true
                /\ moveBeforeTopologicallyValid O b1 p group = Some moved
                /\ b' = mergeNodeIntoSubgraphAndUpdateAliasing O moved p group)).
Proof.
  unfold scanNode. intro H.
  destruct (node_at b it) as [consumer|]; [|discriminate].
  destruct (shouldConsiderForMerge O consumer) eqn:Sc.
  - destruct (ensure_group O b consumer it) as [[b1 group] it1] eqn:E.
    exists consumer, b1, group, it1. split; [reflexivity|].
    split; [intro C; congruence|]. intros _. split; [exact E|].
    destruct (try_inputs O b1 group _) as [[b2 r]|] eqn:T; [|discriminate].
    destruct (@try_inputs_inv O _ _ _ _ _ T)
      as [[-> ->]|(-> & v & i & p & moved & Hin & Hp & Sp & M & ->)].
    + unfold step_back in H. destruct (prev b1 it1); [|discriminate].
      inversion H; subst. split; [reflexivity|intro C; congruence].
    + inversion H; subst. split; [intro C; congruence|]. intros _.
      split; [reflexivity|]. exists v, i, p, moved.
      repeat split; auto.
      apply (Permutation_in _ (sort_values_perm b1 _)) in Hin.
      now apply filter_In in Hin.
  - exists consumer, b, consumer, it. split; [reflexivity|].
    split; [|intro C; congruence]. intros _.
    unfold step_back in H. destruct (prev b it); [|discriminate].
    inversion H; subst. auto.
Qed.

Lemma scanNode_effect_witness :
  exists consumer b1 group it1,
    node_at Scenario.chain (AtNode 4) = Some consumer
    /\ (shouldConsiderForMerge Reference.oracles consumer = false ->
        true = false /\ Scenario.chain_partitioned = Scenario.chain)
    /\ (shouldConsiderForMerge Reference.oracles consumer = true ->
        ensure_group Reference.oracles Scenario.chain consumer (AtNode 4)
        = (b1, group, it1)
        /\ (true = false -> Scenario.chain_partitioned = b1)
        /\ (true = true ->
            AtNode 4 = AtNode (nid group)
            /\ exists v i p moved,
                In v (inputs group)
                /\ producer_in b1 v = Some (i, p)
                /\ shouldConsiderForMerge Reference.oracles p = true
                /\ moveBeforeTopologicallyValid Reference.oracles b1 p group
                   = Some moved
                /\ Scenario.chain_partitioned
                   = mergeNodeIntoSubgraphAndUpdateAliasing Reference.oracles
                       moved p group)).
Proof.
  apply (@scanNode_effect Reference.oracles Scenario.chain (AtNode 4)).
  vm_compute. reflexivity.
Defined.

(** ** What the merge loop keeps *)

Section MergeKeeps.

Variable O : Oracles.
Hypothesis K : MergeContract O.

Lemma ids_length b b' : ids b = ids b' -> length (nodes b) = length (nodes b').
Proof.
  unfold ids. intro H.
  now rewrite <- (length_map nid (nodes b)), H, length_map.
Qed.

Lemma keeps_boundaries_ids b b' :
  ids b' = ids b ->
  (forall x, is_boundary b x -> is_boundary b' x) ->
  keeps_boundaries b b'.
Proof.
  intros E Hb. split; [exact Hb|].
  intros x y _ _. apply at_or_before_ids. now symmetry.
Qed.

Lemma scanNode_step b it b1 it1 c :
  well_formed O b ->
  scanNode O b it = Some (b1, it1, c) ->
  well_formed O b1 /\ keeps_boundaries b b1
  /\ (c = false -> ids b1 = ids b)
  /\ (c = true -> length (nodes b1) < length (nodes b)).
Proof.
  intros WF H.
  assert (Same : forall p, step_back b it false = Some (b1, p, c) ->
            well_formed O b1 /\ keeps_boundaries b b1
            /\ (c = false -> ids b1 = ids b)
            /\ (c = true -> length (nodes b1) < length (nodes b))).
  { intros p Hs. unfold step_back in Hs.
    destruct (prev b it); [|discriminate]. inversion Hs; subst.
    split; [exact WF|]. split; [apply keeps_boundaries_refl|].
    split; [reflexivity|discriminate]. }
  unfold scanNode in H. destruct it as [|id|]; unfold node_at in H.
  - destruct (@sentinels_are_not_candidates O K b) as [R _].
    rewrite R in H. discriminate.
  - destruct (find_node id (nodes b)) as [consumer|] eqn:F; [|discriminate].
    destruct (shouldConsiderForMerge O consumer) eqn:Sc;
      [|now apply (Same it1)].
    destruct (@ensure_group_ok O K _ _ _ WF F Sc)
      as (bw & g & E & Gg & Hg & Hids & WFw & Fg & Hb).
    rewrite E in H.
    destruct (@try_inputs_cases O bw g _ Gg
                (sorted_inputs_owned bw (inputs g)))
      as [T|(p & moved & Sp & M & T)]; rewrite T in H.
    + unfold step_back in H. destruct (prev bw (AtNode id)); [|discriminate].
      inversion H; subst. split; [exact WFw|].
      split; [now apply keeps_boundaries_ids|].
      split; [auto|discriminate].
    + inversion H; subst.
      destruct (@merge_shrinks O K _ _ _ _ WFw Sp Gg Fg M)
        as (Hlen & WF2 & Hbd & Hord).
      split; [exact WF2|]. split; [|split; [discriminate|]].
      * split; [auto|]. intros x y Hx Hy Hxy. apply Hord; auto.
        apply (@at_or_before_ids _ _ _ _ (eq_sym Hids)), Hxy.
      * intros _. rewrite <- (@ids_length _ _ Hids). exact Hlen.
  - destruct (@sentinels_are_not_candidates O K b) as [_ R].
    rewrite R in H. now apply (Same it1).
Qed.

Lemma sweep_step fuel : forall b begin it ch vis b' ch' vis',
  well_formed O b ->
  sweep O fuel b begin it ch vis = Some (b', ch', vis') ->
  well_formed O b' /\ keeps_boundaries b b'
  /\ length (nodes b') <= length (nodes b)
  /\ (ch' = false -> ch = false /\ ids b' = ids b)
  /\ (ch = false -> ch' = true -> length (nodes b') < length (nodes b)).
Proof.
  induction fuel as [|fuel IH]; intros b begin it ch vis b' ch' vis' WF H;
    simpl in H; destruct (cursor_eqb it begin);
    try discriminate;
    try (inversion H; subst; split; [exact WF|];
         split; [apply keeps_boundaries_refl|]; split; [lia|];
         split; [auto|intros; congruence]).
  destruct (scanNode O b it) as [[[b1 it1] c1]|] eqn:Sn; [|discriminate].
  destruct (@scanNode_step _ _ _ _ _ WF Sn) as (WF1 & K1 & Hq & Hl).
  destruct (IH _ _ _ _ _ _ _ _ WF1 H) as (WF' & K' & Hle & Hq' & Hl').
  assert (length (nodes b1) <= length (nodes b)) as Hle1.
  { destruct c1; [specialize (Hl eq_refl); lia|].
    rewrite (@ids_length _ _ (Hq eq_refl)). lia. }
  split; [exact WF'|]. split; [eapply keeps_boundaries_trans; eauto|].
  split; [lia|]. split.
  - intro C. destruct (Hq' C) as [Hor Hids].
    apply orb_false_iff in Hor. destruct Hor as [-> ->].
    split; [reflexivity|]. now rewrite Hids, (Hq eq_refl).
  - intros -> C. destruct c1.
    + specialize (Hl eq_refl). lia.
    + specialize (Hl' eq_refl C). lia.
Qed.

Lemma merge_while_step fuel : forall b w b',
  well_formed O b ->
  merge_while O fuel b w = Some b' ->
  well_formed O b' /\ keeps_boundaries b b'
  /\ length (nodes b') <= length (nodes b).
Proof.
  induction fuel as [|fuel IH]; intros b w b' WF H; [discriminate|].
  cbn [merge_while] in H.
  destruct (sweep O (S fuel) b (wb_begin w) (wb_end w) false [])
    as [[[b1 c1] v1]|] eqn:Sw; [|discriminate].
  destruct (@sweep_step _ _ _ _ _ _ _ _ _ WF Sw) as (WF1 & K1 & Hle & _).
  destruct c1.
  - destruct (IH _ _ _ WF1 H) as (WF' & K' & Hle').
    split; [exact WF'|]. split; [eapply keeps_boundaries_trans; eauto|lia].
  - inversion H; subst. auto.
Qed.

Lemma for_workblocks_step fuel ws : forall b b',
  well_formed O b ->
  for_workblocks O fuel b ws = Some b' ->
  well_formed O b' /\ keeps_boundaries b b'
  /\ length (nodes b') <= length (nodes b).
Proof.
  induction ws as [|w rest IH]; simpl; intros b b' WF H.
  - inversion H; subst. split; [exact WF|].
    split; [apply keeps_boundaries_refl|lia].
  - destruct (merge_while O fuel b w) as [b1|] eqn:M; [|discriminate].
    destruct (@merge_while_step _ _ _ _ WF M) as (WF1 & K1 & Hle).
    destruct (IH _ _ WF1 H) as (WF' & K' & Hle').
    split; [exact WF'|]. split; [eapply keeps_boundaries_trans; eauto|lia].
Qed.

End MergeKeeps.

Lemma chain_well_formed : well_formed Reference.oracles Scenario.chain.
Proof.
  split.
  - unfold ids. simpl. repeat constructor; simpl; intuition discriminate.
  - intros n [<-|[<-|[<-|[<-|[]]]]] H; try reflexivity; discriminate H.
Qed.

(** X6.  Under the contract of the merge collaborators, a sweep over a
    well-formed block that returns leaves a well-formed block; when it
    reports no change the node identities and their order are those it
    started from, and when it reports a change the block has strictly
    fewer nodes. *)
Theorem sweep_effect O (K : MergeContract O) fuel b begin it vis b' ch' vis' :
  well_formed O b ->
  sweep O fuel b begin it false vis = Some (b', ch', vis') ->
  well_formed O b'
  /\ (ch' = false -> ids b' = ids b)
  /\ (ch' = true -> length (nodes b') < length (nodes b)).
Proof.
  intros WF H.
  destruct (@sweep_step O K _ _ _ _ _ _ _ _ _ WF H)
    as (WF' & _ & _ & Hq & Hl).
  split; [exact WF'|]. split; [intro C; now apply Hq|now apply Hl].
Qed.

Lemma sweep_effect_witness :
  well_formed Reference.oracles Scenario.chain_partitioned
  /\ (true = false -> ids Scenario.chain_partitioned = ids Scenario.chain)
  /\ (true = true ->
      length (nodes Scenario.chain_partitioned) < length (nodes Scenario.chain)).
Proof.
  apply (@sweep_effect Reference.oracles reference_contract 10 Scenario.chain
           (AtNode 2) AtReturn [] Scenario.chain_partitioned true
           [AtNode 4; AtNode 4; AtReturn]).
  - exact chain_well_formed.
  - vm_compute. reflexivity.
Defined.

(** X7.  Under the contract of the merge collaborators, whatever the loop
    over a list of work blocks returns from a well-formed block is
    well-formed, has no more nodes, and keeps every boundary: each
    side-effecting node is still in the block, and the boundaries stand in
    the same order. *)
Theorem buildup_keeps_boundaries O (K : MergeContract O) fuel ws b b' :
  well_formed O b ->
  for_workblocks O fuel b ws = Some b' ->
  well_formed O b'
  /\ length (nodes b') <= length (nodes b)
  /\ (forall x, is_boundary b x -> is_boundary b' x)
  /\ (forall x y, is_boundary b x -> is_boundary b y ->
                  at_or_before b x y -> at_or_before b' x y).
Proof.
  intros WF H.
  destruct (@for_workblocks_step O K _ _ _ _ WF H) as (WF' & [K1 K2] & Hle).
  auto.
Qed.

Lemma buildup_keeps_boundaries_witness :
  well_formed Reference.oracles Scenario.chain_partitioned
  /\ length (nodes Scenario.chain_partitioned) <= length (nodes Scenario.chain)
  /\ (forall x, is_boundary Scenario.chain x ->
                is_boundary Scenario.chain_partitioned x)
  /\ (forall x y, is_boundary Scenario.chain x -> is_boundary Scenario.chain y ->
                  at_or_before Scenario.chain x y ->
                  at_or_before Scenario.chain_partitioned x y).
Proof.
  apply (@buildup_keeps_boundaries Reference.oracles reference_contract 10
           (buildWorkBlocks Reference.oracles 2 Scenario.chain)).
  - exact chain_well_formed.
  - vm_compute. reflexivity.
Defined.

(** ** The propagator, run again *)

Section PropagatorAgain.

Variable info : ValueInfo.

Lemma flag_only_flagged t t' v r f :
  flag_only info t t' -> t v = TensorType (Some r) f ->
  t' v = TensorType (Some r) f.
Proof.
  intros F E. destruct (F v) as [->|(f' & r' & E' & _)]; congruence.
Qed.

Lemma flag_only_other t t' v tag :
  flag_only info t t' -> t v = OtherType tag -> t' v = OtherType tag.
Proof.
  intros F E. destruct (F v) as [->|(f' & r' & E' & _)]; congruence.
Qed.

Lemma flag_only_unflagged t t' v f :
  flag_only info t t' -> t v = TensorType None f ->
  t' v = TensorType None f \/ exists r, t' v = TensorType (Some r) f.
Proof.
  intros F E. destruct (F v) as [->|(f' & r' & E' & E'' & _)]; [now left|].
  right. exists r'. congruence.
Qed.

Lemma setType_same t v ty : setType t v ty v = ty.
Proof. unfold setType. now rewrite Nat.eqb_refl. Qed.

Lemma outputs_loop_again dg outs : forall i t t1 t',
  outputs_loop info dg i outs t = Some t1 ->
  flag_only info t1 t' ->
  outputs_loop info dg i outs t' = Some t'.
Proof.
  induction outs as [|output rest IH]; simpl; intros i t t1 t' H F;
    [reflexivity|].
  destruct (kind_eqb (producer_kind info output) prim_profile) eqn:Kp;
    [now apply (IH _ t t1)|].
  pose proof (outputs_loop_frame info dg rest (S i)) as Frame.
  destruct (t output) as [[r0|] f|tag] eqn:T.
  - rewrite (@flag_only_flagged _ _ _ _ _ F
               (@flag_only_flagged _ _ _ _ _ (proj1 (Frame _ _ H)) T)).
    now apply (IH _ t t1).
  - destruct (nth_error (outputs dg) i) as [outer|]; [|discriminate].
    destruct (search_uses info (uses info outer)) as [[r|]|];
      [| |discriminate].
    + pose proof (proj1 (Frame _ _ H)) as F1.
      rewrite (@flag_only_flagged _ _ _ _ _ F
                 (@flag_only_flagged _ _ _ _ _ F1 (setType_same t output _))).
      eapply IH; eauto.
    + pose proof (proj1 (Frame _ _ H)) as F1.
      destruct (@flag_only_unflagged _ _ _ _
                  (@flag_only_trans info _ _ _ F1 F) T)
        as [->|[r ->]]; now apply (IH _ t t1).
  - rewrite (@flag_only_other _ _ _ _ F
               (@flag_only_other _ _ _ _ (proj1 (Frame _ _ H)) T)).
    now apply (IH _ t t1).
Qed.

Lemma AddRequiresGradToDifferentiableGraph_again dg t t1 t' :
  AddRequiresGradToDifferentiableGraph info dg t = Some t1 ->
  flag_only info t1 t' ->
  AddRequiresGradToDifferentiableGraph info dg t' = Some t'.
Proof.
  unfold AddRequiresGradToDifferentiableGraph.
  destruct (negb (is_group dg)); [discriminate|].
  destruct (subgraph dg); [|discriminate]. apply outputs_loop_again.
Qed.

Section Again.

Variable f : Block -> TypeStore -> option TypeStore.
Hypothesis f_frame : forall b t t1, f b t = Some t1 -> flag_only info t t1.
Hypothesis f_again :
  forall b t t1 t', f b t = Some t1 -> flag_only info t1 t' -> f b t' = Some t'.

Lemma grad_blocks_again bs : forall t t1 t',
  grad_blocks f bs t = Some t1 -> flag_only info t1 t' ->
  grad_blocks f bs t' = Some t'.
Proof.
  induction bs as [|b rest IH]; simpl; intros t t1 t' H F; [reflexivity|].
  destruct (f b t) as [ta|] eqn:E; [|discriminate].
  pose proof (@grad_blocks_flag_only info f f_frame rest _ _ H) as Fr.
  rewrite (@f_again _ _ _ _ E (@flag_only_trans info _ _ _ Fr F)). eapply IH; eauto.
Qed.

Lemma grad_nodes_again ns : forall t t1 t',
  grad_nodes info f ns t = Some t1 -> flag_only info t1 t' ->
  grad_nodes info f ns t' = Some t'.
Proof.
  induction ns as [|n rest IH]; simpl; intros t t1 t' H F; [reflexivity|].
  destruct (if is_group n then _ else _) as [ta|] eqn:E1; [|discriminate].
  destruct (grad_blocks f (blocks n) ta) as [tb|] eqn:E2; [|discriminate].
  pose proof (@grad_blocks_flag_only info f f_frame _ _ _ E2) as Fb.
  pose proof (@grad_nodes_flag_only info f f_frame _ _ _ H) as Fr.
  assert ((if is_group n
           then AddRequiresGradToDifferentiableGraph info n t'
           else Some t') = Some t') as ->.
  { destruct (is_group n); [|reflexivity].
    eapply AddRequiresGradToDifferentiableGraph_again; [exact E1|].
    eauto using flag_only_trans. }
  rewrite (@grad_blocks_again _ _ _ _ E2 (@flag_only_trans info _ _ _ Fr F)).
  eapply IH; eauto.
Qed.

End Again.

Lemma AddRequiresGradOnOutputNodes_again fuel : forall b t t1 t',
  AddRequiresGradOnOutputNodes info fuel b t = Some t1 ->
  flag_only info t1 t' ->
  AddRequiresGradOnOutputNodes info fuel b t' = Some t'.
Proof.
  induction fuel as [|fuel IH]; simpl; intros b t t1 t' H F; [discriminate|].
  eapply grad_nodes_again; eauto.
  intros. eapply AddRequiresGradOnOutputNodes_flag_only; eauto.
Qed.

End PropagatorAgain.

(** X8.  The propagator is idempotent: run again on the types it returned,
    [AddRequiresGradToDifferentiableGraph], and likewise the whole pass
    [AddRequiresGradOnOutputNodes], succeeds and returns those types
    unchanged. *)
Theorem propagator_idempotent info :
  (forall dg t t1,
      AddRequiresGradToDifferentiableGraph info dg t = Some t1 ->
      AddRequiresGradToDifferentiableGraph info dg t1 = Some t1)
  /\ (forall fuel b t t1,
        AddRequiresGradOnOutputNodes info fuel b t = Some t1 ->
        AddRequiresGradOnOutputNodes info fuel b t1 = Some t1).
Proof.
  split.
  - intros dg t t1 H.
    eapply AddRequiresGradToDifferentiableGraph_again; [exact H|].
    apply flag_only_refl.
  - intros fuel b t t1 H.
    eapply AddRequiresGradOnOutputNodes_again; [exact H|].
    apply flag_only_refl.
Qed.

Lemma propagator_idempotent_witness :
  AddRequiresGradToDifferentiableGraph Scenario.flag_info Scenario.G1
    (setType Scenario.flag_types 20 (TensorType (Some true) 0))
  = Some (setType Scenario.flag_types 20 (TensorType (Some true) 0)).
Proof.
  exact (proj1 (propagator_idempotent Scenario.flag_info) Scenario.G1
               Scenario.flag_types _ eq_refl).
Defined.

Section PropagatorComplete.

Variable info : ValueInfo.

Lemma outputs_loop_complete dg outs : forall i t t1 k v f,
  outputs_loop info dg i outs t = Some t1 ->
  nth_error outs k = Some v ->
  kind_eqb (producer_kind info v) prim_profile = false ->
  t1 v = TensorType None f ->
  exists outer,
    nth_error (outputs dg) (i + k) = Some outer
    /\ search_uses info (uses info outer) = Some None.
Proof.
  induction outs as [|output rest IH]; intros i t t1 k v f H Hk Kp Hv.
  - destruct k; discriminate.
  - destruct k as [|k].
    + simpl in Hk. inversion Hk; subst output. clear Hk.
      simpl in H. rewrite Kp in H. rewrite Nat.add_0_r.
      pose proof (outputs_loop_frame info dg rest (S i)) as Frame.
      destruct (t v) as [[r0|] f0|tag] eqn:T.
      * rewrite (@flag_only_flagged info _ _ _ _ _
                   (proj1 (Frame _ _ H)) T) in Hv. discriminate.
      * destruct (nth_error (outputs dg) i) as [outer|]; [|discriminate].
        exists outer. split; [reflexivity|].
        destruct (search_uses info (uses info outer)) as [[r|]|];
          [|reflexivity|discriminate].
        rewrite (@flag_only_flagged info _ _ _ _ _ (proj1 (Frame _ _ H))
                   (setType_same t v _)) in Hv. discriminate.
      * rewrite (@flag_only_other info _ _ _ _
                   (proj1 (Frame _ _ H)) T) in Hv. discriminate.
    + simpl in Hk. replace (i + S k) with (S i + k) by lia.
      simpl in H.
      destruct (kind_eqb (producer_kind info output) prim_profile);
        [eapply IH; eauto|].
      destruct (t output) as [[r0|] f0|tag]; try (eapply IH; eauto; fail).
      destruct (nth_error (outputs dg) i) as [outer|]; [|discriminate].
      destruct (search_uses info (uses info outer)) as [[r|]|];
        [eapply IH; eauto|eapply IH; eauto|discriminate].
Qed.

Lemma flag_of_use_total use :
  use_well_formed use -> exists r, flag_of_use info use = Some r.
Proof.
  intro W. unfold flag_of_use.
  destruct (if is_profile (user use) then _ else None); [eauto|].
  destruct (is_group (user use)) eqn:G; [|eauto].
  destruct (W G) as (dg & v & -> & ->). eauto.
Qed.

Lemma search_uses_total us :
  Forall use_well_formed us -> exists r, search_uses info us = Some r.
Proof.
  induction 1 as [|use rest W _ IH]; simpl; [eauto|].
  destruct (flag_of_use_total W) as [[r|] ->]; eauto.
Qed.

Lemma outputs_loop_total dg outs : forall i t,
  i + length outs <= length (outputs dg) ->
  (forall outer, In outer (outputs dg) ->
                 Forall use_well_formed (uses info outer)) ->
  exists t', outputs_loop info dg i outs t = Some t'.
Proof.
  induction outs as [|output rest IH]; simpl; intros i t Hlen Hw; [eauto|].
  assert (Next : forall t0, exists t',
             outputs_loop info dg (S i) rest t0 = Some t')
    by (intro t0; apply IH; [lia|exact Hw]).
  destruct (kind_eqb (producer_kind info output) prim_profile); [apply Next|].
  destruct (t output) as [[r0|] f0|tag]; try apply Next.
  destruct (nth_error (outputs dg) i) as [outer|] eqn:N.
  - destruct (search_uses_total (Hw outer (nth_error_In _ _ N)))
      as [[r|] ->]; apply Next.
  - apply nth_error_None in N. lia.
Qed.

End PropagatorComplete.

(** X9.  After [AddRequiresGradToDifferentiableGraph] has returned, a
    subgraph output that is not produced by a profiling node and whose
    type is still a tensor type without a flag is one for which the search
    through the uses of the matching outer output found no flag. *)
Theorem unflagged_means_not_found info dg t t1 sg k v f :
  AddRequiresGradToDifferentiableGraph info dg t = Some t1 ->
  subgraph dg = Some sg ->
  nth_error (block_returns sg) k = Some v ->
  kind_eqb (producer_kind info v) prim_profile = false ->
  t1 v = TensorType None f ->
  exists outer,
    nth_error (outputs dg) k = Some outer
    /\ search_uses info (uses info outer) = Some None.
Proof.
  unfold AddRequiresGradToDifferentiableGraph. intros H Hsg Hk Kp Hv.
  destruct (negb (is_group dg)); [discriminate|].
  rewrite Hsg in H.
  exact (@outputs_loop_complete info dg _ 0 t t1 k v f H Hk Kp Hv).
Qed.

Lemma unflagged_means_not_found_witness :
  exists outer,
    nth_error (outputs Scenario.G1) 0 = Some outer
    /\ search_uses (Scenario.no_info Scenario.chain)
                   (uses (Scenario.no_info Scenario.chain) outer)
       = Some None.
Proof.
  apply (@unflagged_means_not_found (Scenario.no_info Scenario.chain)
           Scenario.G1 Scenario.flag_types Scenario.flag_types
           ([10], [Scenario.M], [20]) 0 20 0);
    reflexivity.
Defined.

(** X10.  The propagator does not fault on a well-formed group: when the
    node is a group carrying its subgraph, has at least as many outputs as
    the subgraph returns values, and every use of its outputs by a group
    node designates an input of that group's subgraph,
    [AddRequiresGradToDifferentiableGraph] returns. *)
Theorem propagator_returns info dg sg t :
  is_group dg = true ->
  subgraph dg = Some sg ->
  length (block_returns sg) <= length (outputs dg) ->
  (forall outer, In outer (outputs dg) ->
                 Forall use_well_formed (uses info outer)) ->
  exists t', AddRequiresGradToDifferentiableGraph info dg t = Some t'.
Proof.
  intros G Hsg Hlen Hw. unfold AddRequiresGradToDifferentiableGraph.
  rewrite G, Hsg. simpl. apply outputs_loop_total; [simpl; lia|exact Hw].
Qed.

Lemma propagator_returns_witness :
  exists t', AddRequiresGradToDifferentiableGraph Scenario.flag_info
               Scenario.G1 Scenario.flag_types = Some t'.
Proof.
  apply (@propagator_returns Scenario.flag_info Scenario.G1
           ([10], [Scenario.M], [20]));
    [reflexivity | reflexivity | simpl; lia |].
  intros outer [<-|[]]. simpl.
  repeat constructor; intro G; try discriminate G.
  exists ([50], [Scenario.Pin], [51]), 50. split; reflexivity.
Defined.

(** ** Levels without groups, and the cleanup in place *)

Section Levels.

Variable O : Oracles.

Lemma set_blocks_same n : blocks n = [] -> set_blocks n [] = n.
Proof. destruct n. simpl. now intros ->. Qed.

Lemma with_nodes_same (b : Block) : with_nodes b (nodes b) = b.
Proof. now destruct b as [[p ns] r]. Qed.

Lemma for_nodes_flat {S : Type} (f : Block -> S -> option (Block * S))
      ns (s : S) :
  Forall (fun n => blocks n = []) ns -> for_nodes f ns s = Some (ns, s).
Proof.
  induction 1 as [|n rest Hn _ IH]; simpl; [reflexivity|].
  rewrite Hn. simpl. rewrite IH. now rewrite set_blocks_same.
Qed.

Lemma not_candidate_not_group n :
  shouldConsiderForMerge O n = false -> is_group n = false.
Proof.
  unfold shouldConsiderForMerge, is_group.
  now destruct (kind_eqb (kind n) prim_DifferentiableGraph).
Qed.

Lemma unfuse_sweep_no_groups rn : forall after ch,
  Forall (fun n => is_group n = false) rn ->
  unfuse_sweep O rn after ch = (rev rn ++ after, ch).
Proof.
  induction rn as [|n rest IH]; simpl; intros after ch H; [reflexivity|].
  inversion H as [|? ? Hn Hrest]; subst. rewrite Hn.
  rewrite IH by assumption. now rewrite <- app_assoc.
Qed.

Lemma cleanup_loop_in_place t rn : forall after d,
  Forall has_subgraph rn ->
  cleanup_loop O t rn after d
  = Some (flat_map (level_repl O t) (rev rn) ++ after,
          d ++ map (finalized O) (filter (survives O t) rn)).
Proof.
  induction rn as [|n rest IH]; intros after d Hs.
  - simpl. now rewrite app_nil_r.
  - inversion Hs as [|? ? Hn Hrest]; subst.
    rewrite cleanup_loop_cons. simpl.
    rewrite flat_map_app. simpl. rewrite app_nil_r, <- app_assoc.
    destruct (is_group n) eqn:G.
    + assert (survives O t n
              = reaches_min O t 0 (subgraph_nodes (finalized O n))) as Sv
          by (unfold survives; now rewrite G).
      assert (level_repl O t n
              = if reaches_min O t 0 (subgraph_nodes (finalized O n))
                then [finalized O n]
                else unmergeSubgraph O (finalized O n)) as Lr
          by (unfold level_repl; now rewrite G, Sv).
      rewrite Sv, Lr.
      destruct (subgraph n) eqn:Sg; [|now elim (Hn G)].
      destruct (reaches_min O t 0 (subgraph_nodes (finalized O n))).
      * rewrite IH by assumption. simpl. now rewrite <- app_assoc.
      * now rewrite IH.
    + assert (survives O t n = false) as Sv
          by (unfold survives; now rewrite G).
      assert (level_repl O t n = [n]) as Lr
          by (unfold level_repl; now rewrite G).
      rewrite Sv, Lr. now apply IH.
Qed.

Lemma cleanup_loop_faults t rn : forall after d,
  Exists (fun n => is_group n = true /\ subgraph n = None) rn ->
  cleanup_loop O t rn after d = None.
Proof.
  induction rn as [|n rest IH]; intros after d H; [inversion H|].
  rewrite cleanup_loop_cons.
  inversion H as [? ? [G Sg]|? ? Hr]; subst.
  - now rewrite G, Sg.
  - destruct (is_group n); [|now apply IH].
    destruct (subgraph n); [|reflexivity].
    destruct (reaches_min O t 0 _); now apply IH.
Qed.

End Levels.

(** X11.  When every group node of a block level carries its subgraph, the
    cleanup loop of the level returns and works in place: each node of the
    level is replaced, at its position, by itself when it is no group, by
    its deduplicated self when it is a group that survives the size filter,
    and by its dissolved contents otherwise; the surviving groups are
    appended to the recorded list, tail-most first.  When some group node of
    the level carries no subgraph, the access to it fails and so does the
    loop. *)
Theorem cleanup_level_in_place O threshold b d :
  (Forall has_subgraph (nodes b) ->
   cleanup_loop O threshold (rev (nodes b)) [] d
   = Some (flat_map (level_repl O threshold) (nodes b),
           d ++ level_kept O threshold (nodes b)))
  /\ (Exists (fun n => is_group n = true /\ subgraph n = None) (nodes b) ->
      cleanup_loop O threshold (rev (nodes b)) [] d = None).
Proof.
  split.
  - intro H. rewrite cleanup_loop_in_place by now apply Forall_rev.
    now rewrite rev_involutive, app_nil_r.
  - intro H. apply cleanup_loop_faults. apply Exists_exists in H.
    destruct H as (n & Hn & Hb). apply Exists_exists. exists n.
    split; [now apply -> in_rev|exact Hb].
Qed.

Lemma cleanup_level_in_place_witness :
  cleanup_loop Reference.oracles 2 (rev (nodes Scenario.chain_partitioned)) [] []
  = Some (flat_map (level_repl Reference.oracles 2)
                   (nodes Scenario.chain_partitioned),
          [] ++ level_kept Reference.oracles 2
                  (nodes Scenario.chain_partitioned)).
Proof.
  apply (proj1 (cleanup_level_in_place Reference.oracles 2
                  Scenario.chain_partitioned [])).
  repeat constructor; intro; discriminate.
Defined.

(** X12.  On a block holding no merge candidate and no node that owns
    child blocks, with a threshold of at least 1, [run] builds no work
    block, wraps and records nothing, and returns the block as given,
    passed through the final common-subexpression elimination only. *)
Theorem run_without_candidates O threshold fuel b d :
  1 <= threshold ->
  Forall (fun n => shouldConsiderForMerge O n = false /\ blocks n = [])
         (nodes b) ->
  run O threshold (S fuel) b d = Some (EliminateCommonSubexpression O b, d).
Proof.
  intros Ht H.
  assert (Hflat : Forall (fun n => blocks n = []) (nodes b))
    by (eapply Forall_impl; [|exact H]; now intros n [_ Hb]).
  assert (Hng : Forall (fun n => is_group n = false) (nodes b))
    by (eapply Forall_impl; [|exact H];
        intros n [Hc _]; now apply (not_candidate_not_group O)).
  assert (candidates O (nodes b) = 0) as Hc.
  { unfold candidates. clear Hflat Hng.
    induction H as [|n rest [Hn _] _ IH]; simpl; [reflexivity|].
    now rewrite Hn. }
  unfold run. cbn [buildupSubgraphs].
  assert (buildWorkBlocks O threshold b = []) as ->.
  { unfold buildWorkBlocks. apply scan_back_none.
    simpl. rewrite candidates_rev. lia. }
  cbn [for_workblocks]. rewrite (for_nodes_flat _ _ Hflat).
  rewrite with_nodes_same. cbn [unfuseAliasedOutputs unfuse_while].
  rewrite unfuse_sweep_no_groups by now apply Forall_rev.
  rewrite rev_involutive, app_nil_r, (for_nodes_flat _ _ Hflat).
  rewrite with_nodes_same. cbn [cleanupSubgraphs].
  rewrite cleanup_loop_in_place, rev_involutive, app_nil_r
    by (apply Forall_rev; eapply Forall_impl; [|exact Hng];
        intros n Hn G; congruence).
  fold (level_kept O threshold (nodes b)).
  assert (flat_map (level_repl O threshold) (nodes b) = nodes b) as ->.
  { clear Hflat Hc H. induction Hng as [|n rest Hn _ IH]; [reflexivity|].
    simpl. unfold level_repl at 1. rewrite Hn. simpl. now rewrite IH. }
  assert (level_kept O threshold (nodes b) = []) as ->.
  { unfold level_kept. apply Forall_rev in Hng.
    clear Hflat Hc H. induction Hng as [|n rest Hn _ IH]; [reflexivity|].
    simpl. unfold survives at 1. rewrite Hn. simpl. exact IH. }
  rewrite (for_nodes_flat _ _ Hflat), with_nodes_same, app_nil_r.
  reflexivity.
Qed.

Lemma run_without_candidates_witness :
  run Reference.oracles 1 (S 0) ([1], [Scenario.B], []) []
  = Some (EliminateCommonSubexpression Reference.oracles
            ([1], [Scenario.B], []), []).
Proof.
  apply run_without_candidates; [lia|].
  repeat constructor.
Defined.

(** ** Work blocks do not overlap *)

Section WorkBlockOrder.

Variable O : Oracles.
Variable t : nat.
Variable b : Block.
Hypothesis ND : NoDup (ids b).

Lemma at_or_before_trans x y z :
  at_or_before b x y -> at_or_before b y z -> at_or_before b x z.
Proof.
  intros (i & j & Hi & Hj & Hij) (j' & k & Hj' & Hk & Hjk).
  exists i, k. repeat split; auto. rewrite Hj in Hj'. inversion Hj'. lia.
Qed.

Lemma scan_back_ordered : forall pre suf e c j,
  nodes b = pre ++ suf -> idx b e = Some j -> length pre < j ->
  Forall (fun w => at_or_before b (wb_end w) e)
         (scan_back O t (rev pre) e c [])
  /\ ForallOrdPairs (fun w1 w2 => at_or_before b (wb_end w2) (wb_begin w1))
                    (scan_back O t (rev pre) e c []).
Proof.
  induction pre as [|curr pre IH] using rev_ind; intros suf e c j Hb He Hlt.
  - simpl. destruct (t <=? c); simpl.
    + split.
      * constructor; [|constructor]. simpl. exists j, j. auto.
      * constructor; constructor.
    + split; constructor.
  - rewrite rev_app_distr. simpl. rewrite <- app_assoc in Hb. simpl in Hb.
    rewrite length_app in Hlt. simpl in Hlt.
    destruct (hasSideEffects curr); [|apply (IH (curr :: suf) e _ j); auto; lia].
    assert (find_node (nid curr) pre = None) as Hpre
        by (eapply find_node_none_notin; [exact ND|exact Hb|reflexivity]).
    assert (idx b (AtNode (nid curr)) = Some (S (length pre))) as Hc.
    { simpl. rewrite Hb, index_of_at by assumption. reflexivity. }
    destruct (IH (curr :: suf) (AtNode (nid curr)) 0 (S (length pre)) Hb Hc
                 ltac:(lia)) as [Hends Hpairs].
    assert (at_or_before b (AtNode (nid curr)) e) as Hce
        by (exists (S (length pre)), j; repeat split; auto; lia).
    assert (Forall (fun w => at_or_before b (wb_end w) e)
                   (scan_back O t (rev pre) (AtNode (nid curr)) 0 [])) as Hends'.
    { eapply Forall_impl; [|exact Hends]. intros w Hw.
      eapply at_or_before_trans; [exact Hw|exact Hce]. }
    destruct (t <=? c + b2n (shouldConsiderForMerge O curr));
      [|now split].
    rewrite scan_back_acc. simpl. split.
    + constructor; [|exact Hends']. simpl. exists j, j. auto.
    + constructor; [exact Hends|exact Hpairs].
Qed.

End WorkBlockOrder.

(** X13.  On a block whose nodes have distinct identities, the work blocks
    of [buildWorkBlocks] are listed from the tail of the block to its head
    and do not overlap: each one ends at or before the begin boundary of
    every work block listed before it. *)
Theorem work_blocks_disjoint O threshold b :
  NoDup (ids b) ->
  ForallOrdPairs (fun w1 w2 => at_or_before b (wb_end w2) (wb_begin w1))
                 (buildWorkBlocks O threshold b).
Proof.
  intro ND. unfold buildWorkBlocks.
  apply (@scan_back_ordered O threshold b ND (nodes b) [] AtReturn 0
                            (S (length (nodes b)))); simpl; auto.
  now rewrite app_nil_r.
Qed.

Lemma work_blocks_disjoint_witness :
  ForallOrdPairs
    (fun w1 w2 => at_or_before Scenario.chain (wb_end w2) (wb_begin w1))
    (buildWorkBlocks Reference.oracles 1 Scenario.chain).
Proof.
  apply work_blocks_disjoint. exact (proj1 chain_well_formed).
Defined.

(** ** Termination of the merge loop on every block *)

Section LoopTermination.

Variable O : Oracles.
Hypothesis K : LoopContract O.

Lemma at_or_before_refl b x i : idx b x = Some i -> at_or_before b x x.
Proof. intro H. exists i, i. auto. Qed.

Lemma keeps_below_refl b s : keeps_below b b s.
Proof. split; auto. Qed.

Lemma keeps_below_trans b0 b1 b2 s :
  is_boundary b0 s -> at_or_before b0 s s ->
  keeps_below b0 b1 s -> keeps_below b1 b2 s -> keeps_below b0 b2 s.
Proof.
  intros Bs Hs [A1 A2] [B1 B2]. split.
  - intros x Hx Hxs. apply B1; [now apply A1|]. now apply A2.
  - intros x y Hx Hy Hys Hxy.
    pose proof (at_or_before_trans Hxy Hys) as Hxs.
    apply B2; [now apply A1|now apply A1|now apply A2|now apply A2].
Qed.

Lemma keeps_below_ids b b' s : ids b' = ids b ->
  (forall x, is_boundary b x -> at_or_before b x s -> is_boundary b' x) ->
  keeps_below b b' s.
Proof.
  intros E H. split; [exact H|].
  intros x y _ _ _. apply at_or_before_ids. now symmetry.
Qed.

(** Wrapping the candidate at [AtNode id] keeps every boundary elsewhere. *)
Lemma ensure_group_any b id consumer :
  NoDup (ids b) ->
  find_node id (nodes b) = Some consumer ->
  exists bw g,
    ensure_group O b consumer (AtNode id) = (bw, g, AtNode id)
    /\ is_group g = true /\ nid g = id
    /\ ids bw = ids b
    /\ find_node id (nodes bw) = Some g
    /\ (forall x, x <> AtNode id -> is_boundary b x -> is_boundary bw x).
Proof.
  intros ND F. pose proof (find_node_nid _ _ F) as Hid.
  unfold ensure_group. destruct (is_group consumer) eqn:G; simpl.
  - exists b, consumer. repeat split; auto.
  - destruct (createSingletonSubgraphAndUpdateAliasing O b consumer)
      as [bw g] eqn:W.
    rewrite <- Hid in F.
    destruct (@loop_wrap O K _ _ _ _ F W)
      as (Gg & Hg & pre & post & Hb & Hbw & Hpre).
    exists bw, g. rewrite Hg, Hid. subst id.
    assert (ids bw = ids b) as Hids.
    { unfold ids. rewrite Hb, Hbw, !map_app. simpl. now rewrite Hg. }
    split; [reflexivity|]. split; [exact Gg|]. split; [reflexivity|].
    split; [exact Hids|]. split.
    + rewrite Hbw, <- Hg. apply find_node_at. now rewrite Hg.
    + intros [|x|] Hx; simpl; auto. intros (s & Hs & He).
      rewrite Hb, find_node_app in Hs. rewrite Hbw, find_node_app.
      destruct (find_node x pre) as [s'|]; [now exists s|].
      simpl in *. rewrite Hg.
      destruct (Nat.eqb (nid consumer) x) eqn:E; [|now exists s].
      apply Nat.eqb_eq in E. congruence.
Qed.

Lemma below_differs b x s it i j :
  at_or_before b x s -> idx b s = Some i -> idx b it = Some j -> i < j ->
  x <> it.
Proof.
  intros (k & i' & Hk & Hi' & Hle) Hi Hj Hlt ->.
  rewrite Hi in Hi'. inversion Hi'; subst. rewrite Hj in Hk.
  inversion Hk. lia.
Qed.

Lemma scanNode_advances b begin it e i j :
  sweeping b begin it e ->
  idx b begin = Some i -> idx b it = Some (S j) -> i <= j ->
  exists b1 it1 c1,
    scanNode O b it = Some (b1, it1, c1)
    /\ sweeping b1 begin it1 e /\ keeps_below b b1 begin
    /\ ((c1 = false /\ ids b1 = ids b /\ idx b1 it1 = Some j)
        \/ (c1 = true /\ length (nodes b1) < length (nodes b))).
Proof.
  intros (ND & Bb & Hbi & Hie) Hi Hj Hij.
  assert (Hbb : at_or_before b begin begin) by (eapply at_or_before_refl; eauto).
  assert (Below : forall x, at_or_before b x begin -> x <> it).
  { intros x Hx. eapply below_differs; eauto. lia. }
  assert (Back : forall bw, ids bw = ids b ->
            (forall x, x <> it -> is_boundary b x -> is_boundary bw x) ->
            exists q, step_back bw it false = Some (bw, q, false)
                      /\ sweeping bw begin q e /\ keeps_below b bw begin
                      /\ ids bw = ids b /\ idx bw q = Some j).
  { intros bw E Hb.
    assert (NDw : NoDup (ids bw)) by now rewrite E.
    assert (Hjw : idx bw it = Some (S j)) by now rewrite (@idx_ids bw b it E).
    destruct (@step_back_ok bw it j NDw Hjw) as (q & Hq & Hq').
    exists q. split; [exact Hq|]. split; [|split; [|split; [exact E|exact Hq']]].
    - split; [exact NDw|]. split; [apply Hb; auto|]. split.
      + exists i, j. rewrite (@idx_ids bw b begin E). auto.
      + apply (@at_or_before_trans bw q it e).
        * exists j, (S j). auto.
        * apply (@at_or_before_ids b bw); [now symmetry|exact Hie].
    - apply keeps_below_ids; [exact E|]. intros x Hx Hxs. apply Hb; auto. }
  unfold scanNode. destruct it as [|id|]; simpl in Hj.
  - discriminate.
  - destruct (index_of id (nodes b)) as [k|] eqn:Ek; [|discriminate].
    destruct (@index_of_find _ _ _ Ek) as [consumer F].
    simpl. rewrite F.
    destruct (shouldConsiderForMerge O consumer) eqn:Sc.
    + destruct (@ensure_group_any _ _ _ ND F)
        as (bw & g & -> & Gg & Hg & Hids & Fg & Hb).
      destruct (@try_inputs_cases O bw g _ Gg (sorted_inputs_owned bw (inputs g)))
        as [T|(p & moved & Sp & M & T)]; rewrite T.
      * destruct (Back bw Hids Hb) as (q & Hq & A & B & C & D).
        exists bw, q, false. rewrite Hq.
        split; [reflexivity|]. split; [exact A|]. split; [exact B|]. left. auto.
      * rewrite <- Hg in Fg.
        assert (NDw : NoDup (ids bw)) by now rewrite Hids.
        destruct (@loop_merge O K _ _ _ _ NDw Gg Fg M)
          as (Hlen & Hnd & Hp & Hpc & Hbd & Hord & Haft).
        set (b2 := mergeNodeIntoSubgraphAndUpdateAliasing O moved p g) in *.
        assert (length (nodes bw) = length (nodes b)) as Hl.
        { unfold ids in Hids.
          now rewrite <- (length_map nid (nodes bw)), Hids, length_map. }
        assert (Hw : forall x y, at_or_before b x y -> at_or_before bw x y)
          by (intros x y; apply at_or_before_ids; now symmetry).
        assert (Hgp : AtNode (nid g) <> AtNode (nid p)).
        { intro C. destruct Hpc as (a & c & Ha & Hc & Hac).
          rewrite C in Hc. rewrite Ha in Hc. inversion Hc. lia. }
        assert (Bw : forall x, is_boundary b x -> at_or_before b x begin ->
                               is_boundary bw x).
        { intros x Hx Hxs. apply Hb; [|exact Hx]. now apply Below. }
        assert (NotP : forall x, is_boundary bw x -> x <> AtNode (nid p)).
        { intros x Hx ->. now apply Hp. }
        exists b2, (AtNode (nid g)), true. split; [reflexivity|].
        split; [|split].
        -- split; [exact Hnd|]. split; [|split].
           ++ apply Hbd; [|now apply Bw].
              rewrite Hg. now apply Below.
           ++ apply Hord; [exact Hgp|now apply Bw|].
              rewrite Hg. now apply Hw.
           ++ apply Haft. rewrite Hg. now apply Hw.
        -- split.
           ++ intros x Hx Hxs. apply Hbd; [|now apply Bw].
              rewrite Hg. now apply Below.
           ++ intros x y Hx Hy Hys Hxy.
              pose proof (at_or_before_trans Hxy Hys) as Hxs.
              apply Hord; [apply NotP; now apply Bw|now apply Bw|now apply Hw].
        -- right. split; [reflexivity|lia].
    + destruct (Back b eq_refl (fun x _ H => H)) as (q & Hq & A & B & C & D).
      exists b, q, false. rewrite Hq.
      split; [reflexivity|]. split; [exact A|]. split; [exact B|]. left. auto.
  - destruct (@loop_sentinels O K b) as [_ R].
    unfold node_at. rewrite R.
    destruct (Back b eq_refl (fun x _ H => H)) as (q & Hq & A & B & C & D).
    exists b, q, false. rewrite Hq.
    split; [reflexivity|]. split; [exact A|]. split; [exact B|]. left. auto.
Qed.

Lemma sweep_returns : forall L j b begin it e i ch vis,
  length (nodes b) <= L -> sweeping b begin it e ->
  idx b begin = Some i -> idx b it = Some j ->
  exists fuel b' ch' vis',
    sweep O fuel b begin it ch vis = Some (b', ch', vis')
    /\ sweeping b' begin begin e /\ keeps_below b b' begin
    /\ length (nodes b') <= length (nodes b)
    /\ (ch' = true -> ch = true \/ length (nodes b') < length (nodes b)).
Proof.
  induction L as [L IHL] using lt_wf_ind.
  induction j as [|k IHk]; intros b begin it e i ch vis HL Sw Hi Hj;
    pose proof Sw as (ND & Bb & (i0 & j0 & Hi0 & Hj0 & Hij) & Hie);
    rewrite Hi in Hi0; rewrite Hj in Hj0; inversion Hi0; inversion Hj0;
    subst i0 j0; clear Hi0 Hj0;
    destruct (cursor_eqb it begin) eqn:E;
    try (apply cursor_eqb_eq in E; subst it;
         exists 0, b, ch, vis; simpl; rewrite cursor_eqb_refl;
         split; [reflexivity|]; split; [exact Sw|];
         split; [apply keeps_below_refl|]; split; [lia|tauto]).
  - assert (i = 0) by lia. subst.
    rewrite (idx_inj _ _ _ Hj Hi), cursor_eqb_refl in E. discriminate.
  - assert (i <= k) as Hik.
    { destruct (Nat.eq_dec i (S k)) as [->|]; [|lia].
      rewrite (idx_inj _ _ _ Hj Hi), cursor_eqb_refl in E. discriminate. }
    assert (Hbb : at_or_before b begin begin)
      by (eapply at_or_before_refl; eauto).
    destruct (@scanNode_advances b begin it e i k Sw Hi Hj Hik)
      as (b1 & it1 & c1 & Hs & Sw1 & K1
          & [(-> & Hids & Hit1)|(-> & Hlen)]).
    + assert (length (nodes b1) = length (nodes b)) as Hl.
      { unfold ids in Hids.
        now rewrite <- (length_map nid (nodes b1)), Hids, length_map. }
      destruct (IHk b1 begin it1 e i (ch || false) (it :: vis))
        as (f & b' & ch' & vis' & Hsw & Sw' & K' & Hle & Hch);
        [lia|exact Sw1|now rewrite (@idx_ids b1 b _ Hids)|exact Hit1|].
      exists (S f), b', ch', vis'. simpl. rewrite E, Hs.
      split; [exact Hsw|]. split; [exact Sw'|].
      split; [eapply keeps_below_trans; eauto|]. split; [lia|].
      intro C. destruct (Hch C) as [C'|C']; [|right; lia].
      left. now rewrite orb_false_r in C'.
    + pose proof Sw1 as (_ & _ & (i' & j' & Hi' & Hj' & _) & _).
      destruct (IHL (length (nodes b1)) ltac:(lia) j' b1 begin it1 e i'
                    (ch || true) (it :: vis))
        as (f & b' & ch' & vis' & Hsw & Sw' & K' & Hle & Hch);
        [lia|exact Sw1|exact Hi'|exact Hj'|].
      exists (S f), b', ch', vis'. simpl. rewrite E, Hs.
      split; [exact Hsw|]. split; [exact Sw'|].
      split; [eapply keeps_below_trans; eauto|]. split; [lia|].
      intros _. right. lia.
Qed.

(** A work block the loop can run on: its begin is a boundary at or before
    its end. *)
Lemma merge_while_returns : forall L b w,
  length (nodes b) <= L -> NoDup (ids b) ->
  is_boundary b (wb_begin w) -> at_or_before b (wb_begin w) (wb_end w) ->
  exists fuel b',
    merge_while O fuel b w = Some b'
    /\ NoDup (ids b') /\ keeps_below b b' (wb_begin w)
    /\ length (nodes b') <= length (nodes b)
    /\ exists bl f vis,
        sweep O f bl (wb_begin w) (wb_end w) false [] = Some (b', false, vis).
Proof.
  induction L as [L IHL] using lt_wf_ind.
  intros b w HL ND Bb Hbe. pose proof Hbe as (i & j & Hi & Hj & Hij).
  assert (Hbb : at_or_before b (wb_begin w) (wb_begin w))
    by (eapply at_or_before_refl; eauto).
  assert (Sw : sweeping b (wb_begin w) (wb_end w) (wb_end w)).
  { split; [exact ND|]. split; [exact Bb|]. split; [exact Hbe|].
    eapply at_or_before_refl; eauto. }
  destruct (@sweep_returns L j b (wb_begin w) (wb_end w) (wb_end w) i false []
                           HL Sw Hi Hj)
    as (fs & b1 & ch1 & vis1 & Hs & Sw1 & K1 & Hle & Hch).
  destruct Sw1 as (ND1 & Bb1 & _ & Hbe1).
  destruct ch1.
  - destruct (Hch eq_refl) as [C|Hlt]; [discriminate|].
    destruct (IHL (length (nodes b1)) ltac:(lia) b1 w (le_n _) ND1 Bb1 Hbe1)
      as (fr & b' & Hm & ND' & K' & Hle' & Hlast).
    exists (S (Nat.max fs fr)), b'. cbn [merge_while].
    rewrite (@sweep_mono O fs (S (Nat.max fs fr)) _ _ _ _ _ _ Hs) by lia.
    rewrite (@merge_while_mono O fr (Nat.max fs fr) _ _ _ Hm) by lia.
    split; [reflexivity|]. split; [exact ND'|].
    split; [eapply keeps_below_trans; eauto|]. split; [lia|exact Hlast].
  - exists (S fs), b1. cbn [merge_while].
    rewrite (@sweep_mono O fs (S fs) _ _ _ _ _ _ Hs) by lia.
    split; [reflexivity|]. split; [exact ND1|]. split; [exact K1|].
    split; [exact Hle|]. now exists b, fs, vis1.
Qed.

Lemma valid_workblock_below b b' s w :
  keeps_below b b' s -> valid_workblock b w ->
  at_or_before b (wb_end w) s -> valid_workblock b' w.
Proof.
  intros [K1 K2] (B & E & A) Hs.
  pose proof (at_or_before_trans A Hs) as Hbs.
  split; [now apply K1|]. split; [now apply K1|]. now apply K2.
Qed.

Lemma ordered_below b b' s ws :
  keeps_below b b' s ->
  Forall (fun w => valid_workblock b w /\ at_or_before b (wb_end w) s) ws ->
  ForallOrdPairs (fun w1 w2 => at_or_before b (wb_end w2) (wb_begin w1)) ws ->
  ForallOrdPairs (fun w1 w2 => at_or_before b' (wb_end w2) (wb_begin w1)) ws.
Proof.
  intros [_ K2] Below. induction 1 as [|w r Hw Hr IH]; [constructor|].
  inversion Below as [|? ? [(Bw & _ & Aw) Hws] Br]; subst.
  constructor; [|now apply IH].
  apply Forall_forall. intros w3 Hin.
  eapply Forall_forall in Hw; [|exact Hin].
  eapply Forall_forall in Br; [|exact Hin].
  destruct Br as [(_ & E3 & _) _].
  apply K2; [exact E3|exact Bw| |exact Hw].
  eapply at_or_before_trans; eauto.
Qed.

Lemma for_workblocks_returns ws : forall b,
  NoDup (ids b) -> Forall (valid_workblock b) ws ->
  ForallOrdPairs (fun w1 w2 => at_or_before b (wb_end w2) (wb_begin w1)) ws ->
  exists fuel b', for_workblocks O fuel b ws = Some b'.
Proof.
  induction ws as [|w rest IH]; intros b ND V Ord.
  - exists 0, b. reflexivity.
  - inversion V as [|? ? Vw Vrest]; subst.
    inversion Ord as [|? ? Hw Hrest]; subst.
    destruct Vw as (Bb & Be & Hbe).
    destruct (@merge_while_returns _ b w (le_n _) ND Bb Hbe)
      as (f1 & b1 & Hm & ND1 & K1 & _).
    assert (Below : Forall (fun w2 => valid_workblock b w2
                                      /\ at_or_before b (wb_end w2) (wb_begin w))
                           rest).
    { apply Forall_forall. intros w2 H2. split.
      - eapply Forall_forall in Vrest; eauto.
      - eapply Forall_forall in Hw; eauto. }
    destruct (IH b1 ND1) as (f2 & b' & Hf).
    { eapply Forall_impl; [|exact Below].
      intros w2 [V2 H2]. eapply valid_workblock_below; eauto. }
    { eapply ordered_below; eauto. }
    exists (Nat.max f1 f2), b'. simpl.
    rewrite (@merge_while_mono O f1 (Nat.max f1 f2) _ _ _ Hm) by lia.
    rewrite (@for_workblocks_mono O rest f2 (Nat.max f1 f2) _ _ Hf) by lia.
    reflexivity.
Qed.

Lemma sweep_change_shrinks f b w b' vis :
  NoDup (ids b) -> valid_workblock b w ->
  sweep O f b (wb_begin w) (wb_end w) false [] = Some (b', true, vis) ->
  length (nodes b') < length (nodes b).
Proof.
  intros ND (Bb & Be & Hbe) H. pose proof Hbe as (i & j & Hi & Hj & Hij).
  assert (Sw : sweeping b (wb_begin w) (wb_end w) (wb_end w)).
  { split; [exact ND|]. split; [exact Bb|]. split; [exact Hbe|].
    eapply at_or_before_refl; eauto. }
  destruct (@sweep_returns _ j b (wb_begin w) (wb_end w) (wb_end w) i false []
                           (le_n _) Sw Hi Hj)
    as (fs & b1 & ch1 & vis1 & Hs & _ & _ & _ & Hch).
  apply (@sweep_mono O f (Nat.max f fs)) in H; [|lia].
  apply (@sweep_mono O fs (Nat.max f fs)) in Hs; [|lia].
  rewrite H in Hs. inversion Hs; subst.
  destruct (Hch eq_refl) as [C|C]; [discriminate|exact C].
Qed.

End LoopTermination.

(** Positions and nodes after the producer [p] has left the block and the
    group [c] has been replaced, in place, by [g]. *)
Lemma removal_positions b b2 pre p mid c post g :
  NoDup (ids b) ->
  nodes b = pre ++ p :: mid ++ c :: post ->
  nodes b2 = (pre ++ mid) ++ g :: post ->
  nid g = nid c ->
  length (nodes b2) < length (nodes b)
  /\ NoDup (ids b2)
  /\ find_node (nid p) (nodes b) = Some p
  /\ strictly_before b (AtNode (nid p)) (AtNode (nid c))
  /\ (forall z k, z <> AtNode (nid p) -> idx b z = Some k ->
        idx b2 z = Some (if k <=? length pre then k else k - 1))
  /\ (forall z, z <> nid c -> z <> nid p ->
        find_node z (nodes b2) = find_node z (nodes b)).
Proof.
  intros ND Hb Hb2 Hg.
  assert (NDb := ND). unfold ids in NDb. rewrite Hb in NDb.
  assert (Fp : find_node (nid p) (nodes b) = Some p)
    by (eapply find_node_unique; [exact ND|exact Hb]).
  assert (Hpc : nid p <> nid c).
  { rewrite map_app in NDb. simpl in NDb. apply NoDup_remove_2 in NDb.
    intro C. apply NDb. apply in_or_app. right.
    rewrite map_app. apply in_or_app. right. simpl. now left. }
  assert (Hpre : find_node (nid p) pre = None)
    by (eapply find_node_none_notin; [exact ND|exact Hb|reflexivity]).
  assert (Hpm : find_node (nid c) (pre ++ p :: mid) = None).
  { eapply find_node_none_notin; [exact ND| |reflexivity].
    rewrite Hb, <- app_assoc. reflexivity. }
  split; [|split; [|split; [exact Fp|split; [|split]]]].
  - rewrite Hb, Hb2, !length_app. simpl. rewrite !length_app. simpl. lia.
  - unfold ids. rewrite Hb2, <- app_assoc, !map_app. simpl. rewrite Hg.
    rewrite !map_app in NDb. simpl in NDb. rewrite map_app in NDb.
    simpl in NDb. now apply NoDup_remove_1 in NDb.
  - exists (S (length pre)), (S (length (pre ++ p :: mid))).
    split; [|split].
    + simpl. rewrite Hb, index_of_at by assumption. reflexivity.
    + simpl. rewrite Hb.
      replace (pre ++ p :: mid ++ c :: post)
        with ((pre ++ p :: mid) ++ c :: post)
        by (rewrite <- app_assoc; reflexivity).
      rewrite index_of_at by assumption. reflexivity.
    + rewrite length_app. simpl. lia.
  - intros [|z|] k Hz Hk; simpl in *.
    + inversion Hk; subst. reflexivity.
    + rewrite Hb in Hk. rewrite Hb2, <- app_assoc.
      apply (@remove_shift pre p (mid ++ c :: post) (mid ++ g :: post));
        [congruence| |exact Hk].
      rewrite !map_app. simpl. now rewrite Hg.
    + inversion Hk; subst.
      assert (length (nodes b) = length pre + S (length mid + S (length post)))
        as Lb by (rewrite Hb, !length_app; simpl; rewrite length_app;
                  reflexivity).
      assert (length (nodes b2) = length pre + length mid + S (length post))
        as Lb2 by (rewrite Hb2, !length_app; reflexivity).
      destruct (S (length (nodes b)) <=? length pre) eqn:L;
        [apply Nat.leb_le in L; lia|].
      f_equal. lia.
  - intros z Hzc Hzp. rewrite Hb, Hb2.
    rewrite !find_node_app. simpl. rewrite find_node_app. simpl. rewrite Hg.
    destruct (find_node z pre); [reflexivity|].
    destruct (Nat.eqb (nid p) z) eqn:Ep;
      [apply Nat.eqb_eq in Ep; congruence|].
    destruct (find_node z mid); [reflexivity|].
    destruct (Nat.eqb (nid c) z) eqn:Ec;
      [apply Nat.eqb_eq in Ec; congruence|reflexivity].
Qed.

Lemma shifted_order b b2 (f : nat -> nat) x y :
  (forall i j, i <= j -> f i <= f j) ->
  (forall k, idx b x = Some k -> idx b2 x = Some (f k)) ->
  (forall k, idx b y = Some k -> idx b2 y = Some (f k)) ->
  at_or_before b x y -> at_or_before b2 x y.
Proof.
  intros Mono Hx Hy (i & j & Hi & Hj & Hij).
  exists (f i), (f j). auto.
Qed.

Lemma reference_loop_contract : LoopContract Reference.oracles.
Proof.
  constructor.
  - intro b. split; reflexivity.
  - intros b n b' g F W. simpl in W.
    unfold Reference.createSingletonSubgraphAndUpdateAliasing in W.
    destruct (@find_node_split _ _ _ F) as (pre & post & Hb & Hpre).
    rewrite Hb, (@split_at_at pre n post Hpre) in W. inversion W; subst.
    repeat split; auto. now exists pre, post.
  - intros b p c moved ND Gc Fc M. simpl in M.
    unfold Reference.moveBeforeTopologicallyValid in M.
    destruct (Reference.split_at (nid p) (nodes b)) as [[[pre p'] rest]|]
      eqn:E1; [|discriminate].
    destruct (Reference.split_at (nid c) rest) as [[[mid c'] post]|]
      eqn:E2; [|discriminate].
    destruct (negb (hasSideEffects p') && _) eqn:Cnd; [|discriminate].
    inversion M; subst moved. clear M.
    apply split_at_spec in E1. destruct E1 as (Hb & Hp' & Hpre).
    apply split_at_spec in E2. destruct E2 as (-> & Hc' & Hmid).
    apply andb_true_iff in Cnd. destruct Cnd as [Ep' _].
    apply negb_true_iff in Ep'.
    assert (c' = c) as ->.
    { assert (find_node (nid c') (nodes b) = Some c') as F'.
      { eapply (@find_node_unique _ (pre ++ p' :: mid)); [exact ND|].
        rewrite Hb, <- app_assoc. reflexivity. }
      rewrite Hc' in F'. congruence. }
    assert (find_node (nid p') (pre ++ mid) = None) as Hpm.
    { unfold ids in ND. rewrite Hb in ND.
      rewrite find_node_app. rewrite Hp'. rewrite Hpre.
      rewrite map_app in ND. simpl in ND. apply NoDup_remove_2 in ND.
      destruct (find_node (nid p) mid) as [m|] eqn:Fm; [|reflexivity].
      exfalso. apply ND. apply in_or_app. right. rewrite map_app.
      apply in_or_app. left.
      rewrite <- Hp' in Fm. rewrite <- (@find_node_nid _ _ _ Fm).
      apply in_map. now apply (@find_node_In _ _ _ Fm). }
    cbv zeta. simpl mergeNodeIntoSubgraphAndUpdateAliasing.
    unfold Reference.mergeNodeIntoSubgraphAndUpdateAliasing.
    change (nodes (with_nodes b (pre ++ mid ++ p' :: c :: post)))
      with (pre ++ mid ++ p' :: c :: post).
    rewrite app_assoc, <- Hp', (@split_at_at _ _ _ Hpm). simpl.
    rewrite Nat.eqb_refl.
    match goal with
    | |- context [with_nodes ?bb ((pre ++ mid) ++ [] ++ ?gg :: post)] =>
        set (g := gg);
        set (b2 := with_nodes bb ((pre ++ mid) ++ [] ++ g :: post))
    end.
    destruct (@removal_positions b b2 pre p' mid c post g ND Hb eq_refl eq_refl)
      as (Hlen & ND2 & Fp & Hpc & Shift & Same).
    assert (NotB : ~ is_boundary b (AtNode (nid p'))).
    { simpl. intros (s0 & Hs & He). rewrite Fp in Hs. inversion Hs; subst.
      congruence. }
    assert (Mono : forall i j, i <= j ->
              (if i <=? length pre then i else i - 1)
              <= (if j <=? length pre then j else j - 1)).
    { intros i j Hij.
      destruct (i <=? length pre) eqn:Li, (j <=? length pre) eqn:Lj;
        try apply Nat.leb_le in Li; try apply Nat.leb_le in Lj;
        try apply Nat.leb_gt in Li; try apply Nat.leb_gt in Lj; lia. }
    split; [exact Hlen|]. split; [exact ND2|]. split; [exact NotB|].
    split; [exact Hpc|]. split; [|split].
    + intros [|z|] Hz; simpl; auto. intros (s0 & Hs & He).
      exists s0. split; [|exact He].
      change (nodes b2) with ((pre ++ mid) ++ g :: post).
      assert (z <> nid p') as Hzp.
      { intros ->. rewrite Fp in Hs. inversion Hs; subst. congruence. }
      assert (z <> nid c) as Hzc by congruence.
      rewrite <- Hs. apply (Same z Hzc Hzp).
    + intros x y Hy Hx Hxy.
      apply (@shifted_order b b2
               (fun k => if k <=? length pre then k else k - 1) x y Mono);
        [| |exact Hxy]; intros k Hk; apply Shift; auto.
      intros ->. now apply NotB.
    + intros y Hcy.
      assert (AtNode (nid c) <> AtNode (nid p')) as Hcp.
      { intro C. destruct Hpc as (i & j & Hi & Hj & Hij).
        rewrite C in Hj. rewrite Hi in Hj. inversion Hj. lia. }
      assert (y <> AtNode (nid p')) as Hyp.
      { intros ->. destruct Hpc as (i & j & Hi & Hj & Hij).
        destruct Hcy as (i' & j' & Hi' & Hj' & Hij').
        rewrite Hi' in Hj. rewrite Hi in Hj'. inversion Hj. inversion Hj'.
        lia. }
      apply (@shifted_order b b2
               (fun k => if k <=? length pre then k else k - 1) _ y Mono);
        [| |exact Hcy]; intros k Hk; apply Shift; auto.
Qed.



(** ** Inputs offered for merging *)

(** X14.  [sortReverseTopological] offers exactly the inputs produced in
    this block: a value is in its result if and only if it is among the
    inputs and is an output of a node of the block or one of the block's
    parameters; nothing is added or duplicated. *)
Theorem sortReverseTopological_members b ins :
  (forall v, In v (sortReverseTopological b ins)
             <-> In v ins
                 /\ (In v (block_params b)
                     \/ exists p, In p (nodes b) /\ In v (outputs p)))
  /\ length (sortReverseTopological b ins) <= length ins.
Proof.
  pose proof (sort_values_perm b (filter (owned_here b) ins)) as P.
  split.
  - intro v. fold (produced_here b v).
    rewrite <- owned_here_iff, <- filter_In.
    unfold sortReverseTopological. split.
    + apply (Permutation_in _ P).
    + apply (Permutation_in _ (Permutation_sym P)).
  - unfold sortReverseTopological. rewrite (Permutation_length P).
    apply filter_length_le.
Qed.

(** ** Inputs with the same producer *)

Section TieOrder.

Variable O : Oracles.
Variable b : Block.

Lemma tryMerge_refusal consumer producer b' :
  tryMerge O b consumer producer = Some (b', None) -> b' = b.
Proof.
  unfold tryMerge. destruct (negb (is_group consumer)); [discriminate|].
  destruct (shouldConsiderForMerge O producer); [|now inversion 1].
  destruct (moveBeforeTopologicallyValid O b producer consumer);
    [discriminate|now inversion 1].
Qed.

Lemma try_inputs_producers consumer l1 : forall l2,
  map (producer_in b) l1 = map (producer_in b) l2 ->
  try_inputs O b consumer l1 = try_inputs O b consumer l2.
Proof.
  induction l1 as [|v l1 IH]; intros [|w l2] H; try discriminate;
    [reflexivity|].
  simpl in H. inversion H as [[Hv Hl]]. simpl. rewrite <- Hv.
  destruct (producer_in b v) as [[i p]|]; [|reflexivity].
  destruct (tryMerge O b consumer p) as [[b' [g|]]|] eqn:T;
    [reflexivity| |reflexivity].
  apply tryMerge_refusal in T. subst b'. now apply IH.
Qed.

Lemma producer_in_nth v i p :
  producer_in b v = Some (i, p) ->
  (i = 0 /\ p = param_node b)
  \/ exists k, i = S k /\ nth_error (nodes b) k = Some p.
Proof.
  unfold producer_in.
  destruct (find_producer v 1 (nodes b)) as [[j q]|] eqn:F.
  - intro H. inversion H; subst. right.
    apply find_producer_some in F.
    destruct F as (pre & post & Hn & _ & _ & ->).
    exists (length pre). split; [reflexivity|].
    rewrite Hn, nth_error_app2 by lia. now rewrite Nat.sub_diag.
  - destruct (existsb (Nat.eqb v) (block_params b)); [|discriminate].
    intro H. inversion H. now left.
Qed.

Lemma same_position_same_producer v w :
  owned_here b v = true -> owned_here b w = true ->
  topo_position b v = topo_position b w ->
  producer_in b v = producer_in b w.
Proof.
  unfold owned_here, topo_position.
  destruct (producer_in b v) as [[i p]|] eqn:Ev; [|discriminate].
  destruct (producer_in b w) as [[j q]|] eqn:Ew; [|discriminate].
  intros _ _ <-.
  apply producer_in_nth in Ev, Ew.
  destruct Ev as [[-> ->]|(k & -> & Hk)], Ew as [[E ->]|(k' & E & Hk')];
    try discriminate; [reflexivity|].
  inversion E; subst. congruence.
Qed.

Lemma descending_unique (l1 : list nat) : forall l2,
  Permutation l1 l2 ->
  StronglySorted ge l1 -> StronglySorted ge l2 -> l1 = l2.
Proof.
  induction l1 as [|a l1 IH]; intros l2 P S1 S2.
  - apply Permutation_nil in P. now subst.
  - destruct l2 as [|c l2];
      [apply Permutation_sym, Permutation_nil in P; discriminate|].
    inversion S1 as [|? ? S1' F1]; subst.
    inversion S2 as [|? ? S2' F2]; subst.
    assert (a = c) as ->.
    { assert (In a (c :: l2)) as Ha
          by (apply (Permutation_in _ P); now left).
      assert (In c (a :: l1)) as Hc
          by (apply (Permutation_in _ (Permutation_sym P)); now left).
      destruct Ha as [->|Ha]; [reflexivity|].
      destruct Hc as [->|Hc]; [reflexivity|].
      eapply Forall_forall in F1; [|exact Hc].
      eapply Forall_forall in F2; [|exact Ha]. lia. }
    f_equal. apply IH; auto. now apply Permutation_cons_inv in P.
Qed.

Lemma later_first_descending l :
  Sorted (later_first b) l -> StronglySorted ge (map (topo_position b) l).
Proof.
  intro H. apply Sorted_StronglySorted.
  - intros x y z Hxy Hyz. unfold ge in *. lia.
  - induction H as [|a l _ IH Hd]; simpl; constructor; [exact IH|].
    destruct Hd; simpl; constructor. exact H.
Qed.

Lemma positions_producers l1 : forall l2,
  Forall (fun v => owned_here b v = true) l1 ->
  Forall (fun v => owned_here b v = true) l2 ->
  map (topo_position b) l1 = map (topo_position b) l2 ->
  map (producer_in b) l1 = map (producer_in b) l2.
Proof.
  induction l1 as [|v l1 IH]; intros [|w l2] F1 F2 H; try discriminate;
    [reflexivity|].
  inversion F1; inversion F2; subst. simpl in *. inversion H.
  f_equal; [now apply same_position_same_producer|now apply IH].
Qed.

Lemma produced_order_later_first l :
  Forall (fun v => owned_here b v = true) l ->
  Sorted (produced_later_first b) l -> Sorted (later_first b) l.
Proof.
  intros F H. induction H as [|a l _ IH Hd]; constructor.
  - apply IH. now inversion F.
  - inversion F as [|? ? Ha Fl]; subst.
    destruct Hd as [|c l Hac]; constructor.
    inversion Fl as [|? ? Hc _]; subst.
    apply owned_here_at in Ha, Hc.
    destruct Ha as [i Hi], Hc as [j Hj].
    unfold later_first.
    rewrite (produced_at_position Hi), (produced_at_position Hj).
    now apply Hac.
Qed.

Lemma try_inputs_any_order consumer l1 l2 :
  Forall (fun v => owned_here b v = true) l1 ->
  Permutation l1 l2 ->
  Sorted (later_first b) l1 -> Sorted (later_first b) l2 ->
  try_inputs O b consumer l1 = try_inputs O b consumer l2.
Proof.
  intros F1 P S1 S2.
  assert (F2 : Forall (fun v => owned_here b v = true) l2).
  { apply Forall_forall. intros v Hv.
    eapply Forall_forall in F1; [exact F1|].
    apply (Permutation_in _ (Permutation_sym P)), Hv. }
  apply try_inputs_producers, positions_producers; auto.
  apply descending_unique; try now apply later_first_descending.
  now apply Permutation_map.
Qed.

End TieOrder.

(** X16.  The order in which the sort leaves inputs that have the same
    producer does not matter: whatever list of the inputs produced in this
    block, ordered with later producers first, is handed to the loop over
    the inputs, the loop does what it does on the list the model sorts. *)
Theorem tie_order_is_irrelevant O b consumer ins l :
  Permutation l (filter (owned_here b) ins) ->
  Sorted (produced_later_first b) l ->
  try_inputs O b consumer l
  = try_inputs O b consumer (sortReverseTopological b ins).
Proof.
  intros P S.
  assert (F : Forall (fun v => owned_here b v = true) l).
  { apply Forall_forall. intros v Hv.
    apply (Permutation_in _ P) in Hv. now apply filter_In in Hv. }
  apply try_inputs_any_order; [exact F| | |].
  - unfold sortReverseTopological.
    rewrite P. symmetry. apply sort_values_perm.
  - now apply produced_order_later_first.
  - apply sort_values_sorted.
Qed.

Lemma tie_order_is_irrelevant_witness :
  try_inputs Reference.oracles ([1; 2], [], []) Scenario.CD [2; 1]
  = try_inputs Reference.oracles ([1; 2], [], []) Scenario.CD
      (sortReverseTopological ([1; 2], [], []) [1; 2]).
Proof.
  apply tie_order_is_irrelevant.
  - simpl. apply perm_swap.
  - repeat constructor. intros i j Hi Hj.
    apply produced_at_position in Hi, Hj. vm_compute in Hi, Hj. lia.
Defined.

(** ** Outputs nobody profiles *)

Section Unprofiled.

Variable info : ValueInfo.

Lemma search_uses_ordinary us :
  Forall ordinary_use us -> search_uses info us = Some None.
Proof.
  intro H. apply search_uses_none.
  eapply Forall_impl; [|exact H]. intros use [Hp Hg].
  apply flag_of_use_other; auto.
Qed.

Lemma outputs_loop_unprofiled dg outs : forall i t,
  i + length outs <= length (outputs dg) ->
  (forall outer, In outer (outputs dg) ->
                 Forall ordinary_use (uses info outer)) ->
  outputs_loop info dg i outs t = Some t.
Proof.
  induction outs as [|output rest IH]; simpl; intros i t Hlen Hw;
    [reflexivity|].
  assert (Next : outputs_loop info dg (S i) rest t = Some t)
    by (apply IH; [lia|exact Hw]).
  destruct (kind_eqb (producer_kind info output) prim_profile); [exact Next|].
  destruct (t output) as [[r0|] f0|tag]; try exact Next.
  destruct (nth_error (outputs dg) i) as [outer|] eqn:N.
  - now rewrite (search_uses_ordinary (Hw outer (nth_error_In _ _ N))).
  - apply nth_error_None in N. lia.
Qed.

End Unprofiled.

(** X15.  When every use of every output of a group is by a node that is
    neither a profiling node nor a group, the propagator has nothing to
    go by: [AddRequiresGradToDifferentiableGraph] returns the types it was
    given. *)
Theorem unprofiled_outputs_unchanged info dg sg t :
  is_group dg = true ->
  subgraph dg = Some sg ->
  length (block_returns sg) <= length (outputs dg) ->
  (forall outer, In outer (outputs dg) ->
                 Forall ordinary_use (uses info outer)) ->
  AddRequiresGradToDifferentiableGraph info dg t = Some t.
Proof.
  intros G Hsg Hlen Hw. unfold AddRequiresGradToDifferentiableGraph.
  rewrite G, Hsg. simpl. apply outputs_loop_unprofiled; [simpl; lia|exact Hw].
Qed.

Lemma unprofiled_outputs_unchanged_witness :
  AddRequiresGradToDifferentiableGraph (Scenario.no_info Scenario.chain)
    Scenario.G1 Scenario.flag_types
  = Some Scenario.flag_types.
Proof.
  apply (@unprofiled_outputs_unchanged (Scenario.no_info Scenario.chain)
           Scenario.G1 ([10], [Scenario.M], [20]));
    [reflexivity | reflexivity | simpl; lia |].
  intros outer _. constructor.
Defined.
